(** * Toronto BikeShare station network: aggregation, ranking and projection

    A shallow embedding of the engine in [script.js] (the revision of the
    page script that has the 3D mode): cache construction ([buildCaches]), the
    node / edge selection of [updateVis], the view state machine driven by
    the control handlers, the perspective projection of the 3D mode and the
    geocode resolver [getStationLatLng].

    Conventions.
    - JS numbers that hold counts are [Z].  The fractions of the selection
      (the slider percentage and the quantile) are doubles: they are
      rationals [Q], and every operation on them is followed by the IEEE 754
      rounding [fl].  A coordinate of the geocode resolver is a [JsNum]: a
      rational or a non-finite number.  The projection, where the code
      calls [Math.cos] and [Math.sin], is over the reals [R], in exact
      arithmetic.
    - A JS [Map] is an insertion-ordered association list ([JsMap]): the code
      iterates Maps with [Array.from], so the order is observable.
    - A JS object used as a dictionary (never iterated) is a [gmap string].
    - [Array.prototype.sort] is stable; it is modelled by a stable insertion
      sort driven by the comparator's sign.
    - Strings are byte strings; station names are taken to be ASCII, where
      JS code units and bytes coincide. *)

From Stdlib Require Import ZArith QArith Qround Qpower Reals Lra Lqa Lia.
From Stdlib Require Import Sorting.Sorted Sorting.Permutation.
From Stdlib Require Import Strings.Ascii Strings.String.
From stdpp Require Import gmap strings list fin_maps sorting pretty.

#[local] Set Warnings "-clear-no-such-hyp".

Local Open Scope string_scope.
Local Open Scope Z_scope.

(** ** JS [Map]: insertion-ordered association list *)

Module JsMap.

Definition t (V : Type) : Type := list (string * V).

Definition empty {V} : t V := [].

(** [map.get(k)]: the value of the first (and, for maps built with [set],
    only) entry with key [k]. *)
Fixpoint get {V} (k : string) (m : t V) : option V :=
  match m with
  | [] => None
  | (k', v) :: m' => if String.eqb k k' then Some v else get k m'
  end.

(** [map.set(k, v)]: an existing key keeps its position, a new key goes
    last. *)
Fixpoint set {V} (k : string) (v : V) (m : t V) : t V :=
  match m with
  | [] => [(k, v)]
  | (k', v') :: m' =>
      if String.eqb k k' then (k, v) :: m' else (k', v') :: set k v m'
  end.

(** [Array.from(map.values())] and [Array.from(map.entries())]. *)
Definition values {V} (m : t V) : list V := map snd m.
Definition entries {V} (m : t V) : list (string * V) := m.
Definition keys {V} (m : t V) : list string := map fst m.

End JsMap.

(** ** Data model *)

(** A cleaned trip, as pushed by [loadAllCSVs]. *)
Module Trip.
Record t := mk {
  start_station_name : string;
  end_station_name : string;
  member_type : string
}.
End Trip.

(** One element of [state.allData]: [{ month, mm, trips }]. *)
Module MonthObj.
Record t := mk {
  month : string;
  mm : string;
  trips : list Trip.t
}.
End MonthObj.

(** The record kept per station in a cell: [{ name, start, end }]. *)
Module Rec.
Record t := mk {
  name : string;
  start : Z;
  end_ : Z
}.
End Rec.

(** [stationAgg]: memberKey -> monthKey -> Map(station -> record). *)
Abbreviation StationAgg := (gmap string (gmap string (JsMap.t Rec.t))).
(** [endRoutes]: memberKey -> monthKey -> { startStation -> Map(end -> count) }. *)
Abbreviation EndRoutes := (gmap string (gmap string (gmap string (JsMap.t Z)))).

Record Caches := mkCaches {
  c_stationAgg : StationAgg;
  c_endRoutes : EndRoutes
}.

(** ** Cache construction: [buildCaches] *)

Definition members : list string := ["All"; "Annual"; "Casual"].
Definition months : list string :=
  ["All"; "01"; "02"; "03"; "04"; "05"; "06"; "07"; "08"; "09"; "10"; "11"; "12"].

(** The nested initialisation loops: one fresh container per
    (member, month) cell. *)
Definition init_table {X} (fresh : X) : gmap string (gmap string X) :=
  foldl (fun tbl mem =>
           <[mem := foldl (fun row mk => <[mk := fresh]> row) ∅ months]> tbl)
        ∅ members.

(** [tbl[mem][mk]]; [None] stands for [undefined]. *)
Definition cell {X} (tbl : gmap string (gmap string X)) (mem mk : string)
  : option X :=
  row ← tbl !! mem; row !! mk.

(** In-place mutation of the container stored in [tbl[mem][mk]].  Every use
    in [buildCaches] dereferences the container, so a missing cell raises a
    [TypeError] (at the latest on [endRoutes[mem][mm][...]]): [None]. *)
Definition with_cell {X} (tbl : gmap string (gmap string X)) (mem mk : string)
    (f : X -> X) : option (gmap string (gmap string X)) :=
  row ← tbl !! mem;
  c ← row !! mk;
  Some (<[mem := <[mk := f c]> row]> tbl).

(** The local helper [updateStation(map, name, type)]. *)
Definition updateStation (map : JsMap.t Rec.t) (name type : string)
  : JsMap.t Rec.t :=
  if String.eqb name "" then map
  else
    let rec :=
      match JsMap.get name map with
      | Some r => r
      | None => Rec.mk name 0 0
      end in
    let rec' :=
      if String.eqb type "start"
      then Rec.mk (Rec.name rec) (Rec.start rec + 1) (Rec.end_ rec)
      else if String.eqb type "end"
      then Rec.mk (Rec.name rec) (Rec.start rec) (Rec.end_ rec + 1)
      else rec in
    JsMap.set name rec' map.

(** [x || 0] on a count read from a Map. *)
Definition or0 (o : option Z) : Z := default 0 o.

(** The route update on one cell's object:
    [if (!o[s]) o[s] = new Map(); o[s].set(e, (o[s].get(e) || 0) + 1)]. *)
Definition bumpRoute (s e : string) (o : gmap string (JsMap.t Z))
  : gmap string (JsMap.t Z) :=
  let m := default JsMap.empty (o !! s) in
  <[s := JsMap.set e (or0 (JsMap.get e m) + 1) m]> o.

(** [for (const x of l) body(x)] over a state that a body may abort. *)
Fixpoint for_each {A S} (body : A -> S -> option S) (l : list A) (s : S)
  : option S :=
  match l with
  | [] => Some s
  | x :: l' => s' ← body x s; for_each body l' s'
  end.

Definition memberBucket (trip : Trip.t) : string :=
  if String.eqb (Trip.member_type trip) "Annual" then "Annual"
  else if String.eqb (Trip.member_type trip) "Casual" then "Casual"
  else "Other".

Definition applyMembers (trip : Trip.t) : list string :=
  let mt := memberBucket trip in
  if String.eqb mt "Other" then ["All"] else ["All"; mt].

(** Body of [for (const mem of applyMembers)]. *)
Definition accumulate (mm : string) (trip : Trip.t) (mem : string) (c : Caches)
  : option Caches :=
  let s := Trip.start_station_name trip in
  let e := Trip.end_station_name trip in
  sa1 ← with_cell (c_stationAgg c) mem "All" (fun m => updateStation m s "start");
  sa2 ← with_cell sa1 mem "All" (fun m => updateStation m e "end");
  sa3 ← with_cell sa2 mem mm (fun m => updateStation m s "start");
  sa4 ← with_cell sa3 mem mm (fun m => updateStation m e "end");
  er1 ← with_cell (c_endRoutes c) mem "All" (bumpRoute s e);
  er2 ← with_cell er1 mem mm (bumpRoute s e);
  Some (mkCaches sa4 er2).

(** Body of [for (const trip of monthObj.trips)]. *)
Definition processTrip (mm : string) (trip : Trip.t) (c : Caches)
  : option Caches :=
  for_each (accumulate mm trip) (applyMembers trip) c.

Definition initCaches : Caches :=
  mkCaches (init_table JsMap.empty) (init_table ∅).

Definition processMonth (monthObj : MonthObj.t) (c : Caches) : option Caches :=
  for_each (processTrip (MonthObj.mm monthObj)) (MonthObj.trips monthObj) c.

(** [buildCaches()] as a function of [state.allData]; [None] when the loop
    throws (a month key outside [months]). *)
Definition buildCaches (allData : list MonthObj.t) : option Caches :=
  for_each processMonth allData initCaches.

(** Readers used by the statements. *)
Definition stationRec (sa : StationAgg) (mem mk st : string) : option Rec.t :=
  m ← cell sa mem mk; JsMap.get st m.
Definition start_count (c : Caches) (mem mk st : string) : Z :=
  from_option Rec.start 0 (stationRec (c_stationAgg c) mem mk st).
Definition end_count (c : Caches) (mem mk st : string) : Z :=
  from_option Rec.end_ 0 (stationRec (c_stationAgg c) mem mk st).
Definition route_count (c : Caches) (mem mk s e : string) : Z :=
  or0 (o ← cell (c_endRoutes c) mem mk; m ← o !! s; JsMap.get e m).

(** ** [Array.prototype.sort(cmp)]: stable, driven by the comparator's sign *)

Section Sort.
Context {A : Type} (cmp : A -> A -> Z).

(** [x] stood before every element of [l]; it goes in front of the first
    element it is not greater than. *)
Fixpoint sort_insert (x : A) (l : list A) : list A :=
  match l with
  | [] => [x]
  | y :: l' => if cmp x y <=? 0 then x :: y :: l' else y :: sort_insert x l'
  end.

Fixpoint js_sort (l : list A) : list A :=
  match l with
  | [] => []
  | x :: l' => sort_insert x (js_sort l')
  end.
End Sort.

(** ** JS numbers: rounding to the nearest double

    A JS number is an IEEE 754 binary64 value; [+], [-], [*] and [/] return
    the exact result rounded to the nearest double, ties to the even
    significand.  [fl x] is that rounding of the rational [x]: the spacing
    of the doubles around [x] is [2 ^ ulpExp x] (53 significant bits, and
    [2 ^ -1074] in the subnormal range).  From magnitude [2 ^ 53] on, [fl]
    leaves its argument as it is, so that every [Z] is a fixed point: the
    counts of the page are sums of ones over the trips, far below that
    magnitude, and neither integers that a double cannot hold nor overflow
    to [Infinity] are modelled.  The result is in lowest terms. *)

(** The exponent [e] with [2 ^ e <= x < 2 ^ (e + 1)], for [x > 0]. *)
Definition ilog2 (x : Q) : Z :=
  let d := Z.log2 (Qnum x) - Z.log2 (Z.pos (Qden x)) in
  if Qle_bool (2 ^ d) x then d else d - 1.

(** Rounding to the nearest integer, ties to even. *)
Definition rne (y : Q) : Z :=
  let f := Qfloor y in
  match Qcompare (y - inject_Z f) (1 # 2) with
  | Lt => f
  | Gt => f + 1
  | Eq => if Z.even f then f else f + 1
  end.

Definition ulpExp (x : Q) : Z := Z.max (ilog2 x - 52) (-1074).

Definition flpos (x : Q) : Q :=
  if Qle_bool (2 ^ 53) x then x
  else (inject_Z (rne (x / 2 ^ ulpExp x)) * 2 ^ ulpExp x)%Q.

Definition fl (x : Q) : Q :=
  match Z.compare (Qnum x) 0 with
  | Eq => 0%Q
  | Gt => Qred (flpos (Qred x))
  | Lt => Qred (- flpos (Qred (- x)))
  end.

(** ** [d3.quantileSorted(values, p)] (d3-array)

    The library function called by [updateVis]; it is not part of the
    repository.  Its definition (R-7 quantile): [undefined] on an empty
    array; the first value for [p <= 0] or fewer than two values; the last
    value for [p >= 1]; otherwise, with [i = (n - 1) * p] and
    [i0 = Math.floor(i)], the linear interpolation
    [value0 + (value1 - value0) * (i - i0)] between the values at ranks [i0]
    and [i0 + 1], each operation rounded.  Past the end of the array
    [values[i0 + 1]] is [undefined], [value1] is [NaN] and so is the result.
    [None] stands for the two falsy results, [undefined] and [NaN]. *)
Definition nthZ (values : list Z) (i : Z) : Z := nth (Z.to_nat i) values 0.

Definition quantileSorted (values : list Z) (p : Q) : option Q :=
  let n := Z.of_nat (length values) in
  if n =? 0 then None
  else if Qle_bool p 0 || (n <? 2) then Some (inject_Z (nthZ values 0))
  else if Qle_bool 1 p then Some (inject_Z (nthZ values (n - 1)))
  else
    let i := fl (inject_Z (n - 1) * p) in
    let i0 := Qfloor i in
    if n <=? i0 + 1 then None
    else
      let value0 := inject_Z (nthZ values i0) in
      let value1 := inject_Z (nthZ values (i0 + 1)) in
      Some (fl (value0 + fl (fl (value1 - value0) * fl (i - inject_Z i0)))).

(** ** View state and the selection performed by [updateVis] *)

Module Node.
Record t := mk {
  id : string;
  name : string;
  start : Z;
  end_ : Z;
  total : Z
}.
End Node.

Module Link.
Record t := mk {
  source : string;
  target : string;
  value : Z
}.
End Link.

(** A coordinate as a JS number: finite, or one of NaN / +-Infinity. *)
Inductive JsNum := Finite (q : Q) | NonFinite.

Module LatLng.
Record t := mk { lat : JsNum; lng : JsNum }.
End LatLng.

(** The fields of the page's [state] object that selection, the handlers
    and the geocode resolver read or write.  [None] is [null] /
    [undefined].  (The camera fields live in [Projection.Camera].) *)
Record State := mkState {
  allData : list MonthObj.t;
  stationAgg : option StationAgg;
  endRoutes : option EndRoutes;
  isDetail : bool;
  selectedStation : option string;
  selectedMember : string;
  selectedMonthKey : string;
  minRouteCount : Z;
  minRoutePercent : Q;
  hideLowNodes : bool;
  stationPos : JsMap.t LatLng.t;
  stationPosNorm : JsMap.t LatLng.t;
  torontoCentroid : option (JsNum * JsNum)
}.

Definition set_allData v st :=
  mkState v (stationAgg st) (endRoutes st) (isDetail st) (selectedStation st)
    (selectedMember st) (selectedMonthKey st) (minRouteCount st)
    (minRoutePercent st) (hideLowNodes st) (stationPos st) (stationPosNorm st)
    (torontoCentroid st).
Definition set_caches sa er st :=
  mkState (allData st) sa er (isDetail st) (selectedStation st)
    (selectedMember st) (selectedMonthKey st) (minRouteCount st)
    (minRoutePercent st) (hideLowNodes st) (stationPos st) (stationPosNorm st)
    (torontoCentroid st).
Definition set_detail b sel st :=
  mkState (allData st) (stationAgg st) (endRoutes st) b sel
    (selectedMember st) (selectedMonthKey st) (minRouteCount st)
    (minRoutePercent st) (hideLowNodes st) (stationPos st) (stationPosNorm st)
    (torontoCentroid st).
Definition set_selectedMember v st :=
  mkState (allData st) (stationAgg st) (endRoutes st) (isDetail st)
    (selectedStation st) v (selectedMonthKey st) (minRouteCount st)
    (minRoutePercent st) (hideLowNodes st) (stationPos st) (stationPosNorm st)
    (torontoCentroid st).
Definition set_selectedMonthKey v st :=
  mkState (allData st) (stationAgg st) (endRoutes st) (isDetail st)
    (selectedStation st) (selectedMember st) v (minRouteCount st)
    (minRoutePercent st) (hideLowNodes st) (stationPos st) (stationPosNorm st)
    (torontoCentroid st).
Definition set_minRouteCount v st :=
  mkState (allData st) (stationAgg st) (endRoutes st) (isDetail st)
    (selectedStation st) (selectedMember st) (selectedMonthKey st) v
    (minRoutePercent st) (hideLowNodes st) (stationPos st) (stationPosNorm st)
    (torontoCentroid st).
Definition set_minRoutePercent v st :=
  mkState (allData st) (stationAgg st) (endRoutes st) (isDetail st)
    (selectedStation st) (selectedMember st) (selectedMonthKey st)
    (minRouteCount st) v (hideLowNodes st) (stationPos st) (stationPosNorm st)
    (torontoCentroid st).
Definition set_hideLowNodes v st :=
  mkState (allData st) (stationAgg st) (endRoutes st) (isDetail st)
    (selectedStation st) (selectedMember st) (selectedMonthKey st)
    (minRouteCount st) (minRoutePercent st) v (stationPos st) (stationPosNorm st)
    (torontoCentroid st).
Definition set_stationPos v st :=
  mkState (allData st) (stationAgg st) (endRoutes st) (isDetail st)
    (selectedStation st) (selectedMember st) (selectedMonthKey st)
    (minRouteCount st) (minRoutePercent st) (hideLowNodes st) v
    (stationPosNorm st) (torontoCentroid st).

(** The initial [state] literal. *)
Definition state0 : State :=
  mkState [] None None false None "All" "All" 0 0 false
    JsMap.empty JsMap.empty None.

(** [s || 'All'] on a string. *)
Definition orAll (s : string) : string := if String.eqb s "" then "All" else s.

(** Truthiness of [state.selectedStation]. *)
Definition truthy (o : option string) : bool :=
  match o with
  | Some s => negb (String.eqb s "")
  | None => false
  end.

Definition MAX_NODES : nat := 60.
Definition TOP_LINKS_PER_SOURCE : nat := 5.

Section Selection.
Variable st : State.

Definition memberKey : string := orAll (selectedMember st).
Definition monthKey : string := orAll (selectedMonthKey st).

(** [state.stationAgg[memberKey]?.[monthKey] || new Map()] *)
Definition aggMap : JsMap.t Rec.t :=
  default JsMap.empty (sa ← stationAgg st; cell sa memberKey monthKey).

Definition toNode (d : Rec.t) : Node.t :=
  Node.mk (Rec.name d) (Rec.name d) (Rec.start d) (Rec.end_ d)
          (Rec.start d + Rec.end_ d).

Definition byTotalDesc (a b : Node.t) : Z := Node.total b - Node.total a.

(** [nodes] after [sort] and [slice(0, MAX_NODES)]. *)
Definition nodes : list Node.t :=
  take MAX_NODES (js_sort byTotalDesc (map toNode (JsMap.values aggMap))).

Definition included : gset string := list_to_set (map Node.name nodes).

(** [state.endRoutes?.[memberKey]?.[monthKey] || {}] *)
Definition routes : gmap string (JsMap.t Z) :=
  default ∅ (er ← endRoutes st; cell er memberKey monthKey).

Definition byCountDesc (a b : string * Z) : Z := b.2 - a.2.

(** The links pushed for one source node. *)
Definition linksOf (src : Node.t) : list Link.t :=
  match routes !! Node.name src with
  | None => []
  | Some m =>
      let arr := js_sort byCountDesc (JsMap.entries m) in
      let arr :=
        if negb (isDetail st
                 && bool_decide (selectedStation st = Some (Node.name src)))
        then take TOP_LINKS_PER_SOURCE arr
        else arr in
      (fun tc => Link.mk (Node.name src) tc.1 tc.2)
        <$> filter (fun tc => tc.1 ∈ included) arr
  end.

Definition linksRaw : list Link.t := flat_map linksOf nodes.

Definition ascending (a b : Z) : Z := a - b.

Definition values : list Z := js_sort ascending (map Link.value linksRaw).

(** [Math.floor(d3.quantileSorted(values, p) || 0)] with
    [p = (state.minRoutePercent || 0) / 100], or [0] when there is no
    candidate link. *)
Definition thresholdCount : Z :=
  match values with
  | [] => 0
  | _ =>
      let p := fl (minRoutePercent st / 100) in
      Qfloor (default 0%Q (quantileSorted values p))
  end.
End Selection.

(** The state written by [updateVis]: [state.minRouteCount = thresholdCount],
    unless the caches are not built yet (early return). *)
Definition updateVis (st : State) : State :=
  match stationAgg st with
  | None => st
  | Some _ => set_minRouteCount (thresholdCount st) st
  end.

Section View.
Variable st : State.

Definition detailMode : bool := isDetail st && truthy (selectedStation st).

Definition fromSelected (l : Link.t) : Prop :=
  Some (Link.source l) = selectedStation st.

(** [links]: the popularity filter applies in the default view only; it
    reads the [state.minRouteCount] just written. *)
Definition links : list Link.t :=
  if detailMode
  then filter fromSelected (linksRaw st)
  else filter (fun l => minRouteCount (updateVis st) <= Link.value l) (linksRaw st).

Definition keep : gset string :=
  list_to_set
    (flat_map (fun l =>
                 app (if String.eqb (Link.source l) "" then [] else [Link.source l])
                     (if String.eqb (Link.target l) "" then [] else [Link.target l]))
              links).

Definition nodesVis : list Node.t :=
  if negb (isDetail st) && hideLowNodes st
  then filter (fun n => Node.name n ∈ keep) (nodes st)
  else nodes st.

Definition keepNames : gset string := list_to_set (map Node.name nodesVis).

Definition linksView : list Link.t :=
  if negb (isDetail st) && hideLowNodes st
  then filter (fun l => Link.source l ∈ keepNames ∧ Link.target l ∈ keepNames) links
  else links.

Definition byValueDesc (a b : Link.t) : Z := Link.value b - Link.value a.

(** Detail highlighting: [selectedLinks] sorted, then [top]. *)
Definition selectedLinks : list Link.t :=
  js_sort byValueDesc (filter fromSelected links).

Definition top : list Link.t :=
  if detailMode then take 5 (filter fromSelected selectedLinks) else [].
End View.

#[global] Instance fromSelected_dec st l : Decision (fromSelected st l).
Proof. unfold fromSelected. apply _. Defined.

(** ** Control handlers and the view state machine *)

(** [String.prototype.padStart(2, '0')]. *)
Definition padStart2 (s : string) : string :=
  match String.length s with
  | O => "00"
  | S O => "0" +:+ s
  | _ => s
  end.

(** [updateMonthFromSlider()], for the slider value [m]. *)
Definition updateMonthFromSlider (m : nat) (st : State) : State :=
  set_selectedMonthKey (padStart2 (pretty m)) st.

Definition exitDetailView (st : State) : State :=
  updateVis (set_detail false None st).

Definition goToDetail (stationName : string) (st : State) : State :=
  updateVis (set_detail true (Some stationName) st).

(** The events of the listeners that redraw the network (all of them end
    with a call of [updateVis]), with the control values they read. *)
Inductive Event :=
| ByMonthChange (checked : bool) (slider : nat)
| MonthSliderInput (slider : nat)
| MemberRadioChange (checked : option string)
| BackButtonClick
| MinRouteSliderInput (v : Q)
| HideLowNodesChange (checked : bool)
| ColorBlindChange (checked : bool)
| Mode3dChange (checked : bool)
| StationClick (stationName : string).

Definition leaveDetail (st : State) : State :=
  if isDetail st then exitDetailView st else st.

(** One listener run. *)
Definition handle (ev : Event) (st : State) : State :=
  match ev with
  | ByMonthChange checked slider =>
      let st1 :=
        if negb checked then set_selectedMonthKey "All" st
        else updateMonthFromSlider slider st in
      updateVis (leaveDetail st1)
  | MonthSliderInput slider =>
      updateVis (leaveDetail (updateMonthFromSlider slider st))
  | MemberRadioChange checked =>
      updateVis (leaveDetail (set_selectedMember (default "All" checked) st))
  | BackButtonClick =>
      updateVis (exitDetailView st)
  | MinRouteSliderInput v =>
      (* [v] is the number read, [+minRouteSliderEl.value || 0] *)
      updateVis (set_minRoutePercent v st)
  | HideLowNodesChange checked =>
      updateVis (leaveDetail (set_hideLowNodes checked st))
  | ColorBlindChange _ =>
      (* [state.colorBlind] selects the palette of the drawing only; the
         listener does not leave the detail view *)
      updateVis st
  | Mode3dChange _ =>
      (* the camera fields it resets are in [Projection.Camera] *)
      updateVis (leaveDetail st)
  | StationClick stationName =>
      updateVis (goToDetail stationName st)
  end.

Definition run (evs : list Event) (st : State) : State :=
  foldl (fun s ev => handle ev s) st evs.

(** The remaining listeners: zoom and pan of the drawing and the two zoom
    buttons, the rotation drag of the 3D mode (pointer down, move, up or
    leave), hovering over a link or a station, dragging a station,
    releasing it by a double click, and the tick of the layout simulation.
    They move the camera, the tooltip or a node of the layout; none of them
    assigns a field of [State] or calls [updateVis]. *)
Inductive Gesture :=
| Zoom
| ZoomButton (zoomIn : bool)
| RotateStart
| RotateMove
| RotateEnd
| LinkHover
| StationHover
| StationDrag
| StationRelease
| Tick.

(** Anything the page reacts to after loading. *)
Inductive Input :=
| Control (ev : Event)
| Pointer (g : Gesture).

Definition react (i : Input) (st : State) : State :=
  match i with
  | Control ev => handle ev st
  | Pointer _ => st
  end.

Definition runInputs (ins : list Input) (st : State) : State :=
  foldl (fun s i => react i s) st ins.

(** ** Synthetic demo data and the initialisation chain *)

Definition demoStart : string := "Demo Station (Synthetic)".
Definition ends : list (string * (Q * Q) * nat) :=
  [ ("Union Station (Synthetic)", (43.6450, -79.3800)%Q, 40%nat);
    ("Harbourfront (Synthetic)", (43.6390, -79.3800)%Q, 30%nat);
    ("Chinatown (Synthetic)", (43.6520, -79.3980)%Q, 20%nat);
    ("Distillery District (Synthetic)", (43.6500, -79.3590)%Q, 15%nat);
    ("Kensington Market (Synthetic)", (43.6550, -79.4050)%Q, 10%nat) ].

Definition totalTrips (st : State) : Z :=
  foldl (fun sum m => sum + Z.of_nat (length (MonthObj.trips m))) 0 (allData st).

(** [injectSyntheticIfNeeded()].  The coordinate fields the synthetic trips
    carry are not read by [buildCaches] and are left out of [Trip.t]. *)
Definition injectSyntheticIfNeeded (st : State) : State :=
  if totalTrips st >? 0 then st
  else
    let trips :=
      flat_map (fun e =>
                  map (fun i => Trip.mk demoStart e.1.1
                                  (if (i mod 2 =? 0)%nat then "Annual" else "Casual"))
                      (seq 0 e.2))
               ends in
    let pos0 :=
      JsMap.set demoStart (LatLng.mk (Finite 43.6532) (Finite (-79.3832)))
                (stationPos st) in
    let pos :=
      foldl (fun m e => JsMap.set e.1.1 (LatLng.mk (Finite e.1.2.1) (Finite e.1.2.2)) m)
            pos0 ends in
    set_stationPos pos
      (set_allData (allData st ++ [MonthObj.mk "2023-09" "09" trips]) st).

(** [loadAllCSVs().then(() => { buildCaches(); ...; updateVis(); })] once the
    cleaned months [loaded] are in [state.allData].  A throwing
    [buildCaches] leaves the caches unset. *)
Definition initialise (loaded : list MonthObj.t) (st : State) : State :=
  let st1 := set_allData loaded st in
  match buildCaches (allData st1) with
  | Some c => updateVis (set_caches (Some (c_stationAgg c)) (Some (c_endRoutes c)) st1)
  | None => st1
  end.

(** ** 32-bit integer helpers shared by the two name hashes *)

(** [z | 0]. *)
Definition to_int32 (z : Z) : Z := (z + 2 ^ 31) mod 2 ^ 32 - 2 ^ 31.
(** [z >>> 0]. *)
Definition to_uint32 (z : Z) : Z := z mod 2 ^ 32.
Definition charCode (c : ascii) : Z := Z.of_N (N_of_ascii c).

(** ** Projection pipeline: [depthFor], [projectXY], [redraw3d] *)

Module Projection.
Local Open Scope R_scope.

(** The camera fields of [state]. *)
Record Camera := mkCamera {
  mode3d : bool;
  yaw : R;
  pitch : R;
  width : R;
  height : R
}.

Record Projected := mkProjected { x : R; y : R; scale : R; zCam : R }.

(** A simulation node: its name and planar position. *)
Record Placed := mkPlaced { p_name : string; p_x : R; p_y : R }.

(** [h = (h*31 + s.charCodeAt(i)) | 0] over the name. *)
Definition hash31 (s : string) : Z :=
  fold_left (fun h c => to_int32 (h * 31 + charCode c)%Z)
            (list_ascii_of_string s) 0%Z.

Definition depthFor (cam : Camera) (name : string) : R :=
  if negb (mode3d cam) then 0
  else
    let u := IZR (to_uint32 (hash31 name) mod 1000) / 999 in
    let zRange := Rmin (width cam) (height cam) * 0.6 in
    (u * 2 - 1) * (zRange * 0.5).

Definition projectXY (cam : Camera) (x y z : R) : Projected :=
  if negb (mode3d cam) then mkProjected x y 1 0
  else
    let cx := width cam / 2 in
    let cy := height cam / 2 in
    let dx := x - cx in
    let dy := y - cy in
    let dz := z in
    let cyaw := cos (yaw cam) in
    let syaw := sin (yaw cam) in
    let cpit := cos (pitch cam) in
    let spit := sin (pitch cam) in
    let x1 := dx * cyaw + dz * syaw in
    let z1 := - dx * syaw + dz * cyaw in
    let y2 := dy * cpit - z1 * spit in
    let z2 := dy * spit + z1 * cpit in
    let f := Rmin (width cam) (height cam) * 0.9 in
    let denom := f + z2 in
    let s := if Req_dec_T denom 0 then 1 else f / denom in
    mkProjected (cx + x1 * s) (cy + y2 * s) s z2.

(** The camera part of the 3D toggle: [mode3d] follows the checkbox, yaw
    and pitch are reset. *)
Definition mode3d_change (checked : bool) (cam : Camera) : Camera :=
  mkCamera checked 0 0 (width cam) (height cam).

(** The camera part of a rotation drag by [(dx, dy)] pixels. *)
Definition ROT_SENS : R := 0.005.
Definition rotate (dx dy : R) (cam : Camera) : Camera :=
  let maxPitch := PI / 2 * 0.88 in
  let pitch1 := pitch cam + dy * ROT_SENS in
  let pitch2 := if Rlt_dec maxPitch pitch1 then maxPitch else pitch1 in
  let pitch3 := if Rlt_dec pitch2 (- maxPitch) then - maxPitch else pitch2 in
  mkCamera (mode3d cam) (yaw cam - dx * ROT_SENS) pitch3 (width cam) (height cam).

(** The projection of a node as [redraw3d] computes it. *)
Definition project (cam : Camera) (d : Placed) : Projected :=
  projectXY cam (p_x d) (p_y d) (depthFor cam (p_name d)).

(** [redraw3d], nodes: the factor multiplying [Math.max(3, radiusScale(..))]. *)
Definition nodeScale (cam : Camera) (d : Placed) : R :=
  if mode3d cam then scale (project cam d) else 1.

Definition nodeRadius (cam : Camera) (base : R) (d : Placed) : R :=
  base * nodeScale cam d.

(** [redraw3d], links: [scaleAvg], the factor multiplying [linkWidth(..)]. *)
Definition edgeScale (cam : Camera) (src tgt : Placed) : R :=
  if mode3d cam
  then (scale (project cam src) + scale (project cam tgt)) / 2
  else 1.

Definition strokeWidth (cam : Camera) (lw : R) (src tgt : Placed) : R :=
  Rmax 0.4 (lw * edgeScale cam src tgt).
End Projection.

(** ** Geocode resolver: [normalizeName], [getStationLatLng] *)

Module Geocode.

Definition isFinite (x : JsNum) : bool :=
  match x with Finite _ => true | NonFinite => false end.

(** [a + q] for a finite [q]. *)
Definition plus (a : JsNum) (q : Q) : JsNum :=
  match a with Finite x => Finite (x + q) | NonFinite => NonFinite end.

Definition lowerChar (c : ascii) : ascii :=
  let n := N_of_ascii c in
  if ((65 <=? n) && (n <=? 90))%N then ascii_of_N (n + 32) else c.

Definition isAlnum (c : ascii) : bool :=
  let n := N_of_ascii c in
  (((97 <=? n) && (n <=? 122)) || ((48 <=? n) && (n <=? 57)))%N.

(** [.replace(/[^a-z0-9]+/g, ' ')]: [inRun] is set inside a run of other
    characters. *)
Fixpoint squeeze (inRun : bool) (l : list ascii) : list ascii :=
  match l with
  | [] => []
  | c :: l' =>
      if isAlnum c then c :: squeeze false l'
      else if inRun then squeeze true l'
      else " "%char :: squeeze true l'
  end.

Fixpoint dropSpaces (l : list ascii) : list ascii :=
  match l with
  | " "%char :: l' => dropSpaces l'
  | _ => l
  end.

(** [normalizeName(name)] on ASCII names, where [normalize('NFKD')] and the
    diacritics strip change nothing and the final whitespace collapse has
    nothing left to do. *)
Definition normalizeName (name : string) : string :=
  let lower := map lowerChar (list_ascii_of_string name) in
  let spaced := squeeze false lower in
  string_of_list_ascii (rev (dropSpaces (rev (dropSpaces spaced)))).

(** [Array.from(String(name)).reduce((h, ch) => ((h << 5) - h) + ch.charCodeAt(0) | 0, 0)] *)
Definition nameHash (name : string) : Z :=
  fold_left (fun h ch => to_int32 (to_int32 (Z.shiftl h 5) - h + charCode ch))
            (list_ascii_of_string name) 0.

(** [rec && isFinite(rec.lat) && isFinite(rec.lng)] *)
Definition usable (o : option LatLng.t) : option LatLng.t :=
  match o with
  | Some rec =>
      if isFinite (LatLng.lat rec) && isFinite (LatLng.lng rec)
      then Some rec else None
  | None => None
  end.

Definition minLat : Q := 43.58.
Definition maxLat : Q := 43.85.
Definition minLng : Q := -79.65.
Definition maxLng : Q := -79.12.
Definition defaultCentroid : JsNum * JsNum :=
  (Finite (-79.3832), Finite 43.6532).
Definition jitterR : Q := 0.01.

(** [geojson] is the module-level polygon variable: [None] while it is
    [null], otherwise what [d3.geoContains(geojson, [lng, lat])] answers
    for it. *)
Definition getStationLatLng (geojson : option (JsNum -> JsNum -> bool))
    (st : State) (name : string) : LatLng.t :=
  match usable (JsMap.get name (stationPos st)) with
  | Some rec => rec
  | None =>
  match usable (JsMap.get (normalizeName name) (stationPosNorm st)) with
  | Some rec => rec
  | None =>
      let hash := nameHash name in
      let u := (inject_Z (Z.abs hash mod 1000) / 999)%Q in
      let v := (inject_Z (Z.abs (Z.shiftr hash 10) mod 1000) / 999)%Q in
      let lat := Finite (minLat + u * (maxLat - minLat)) in
      let lng := Finite (minLng + v * (maxLng - minLng)) in
      match geojson with
      | None => LatLng.mk lat lng
      | Some contains =>
          if contains lng lat then LatLng.mk lat lng
          else
            let c := default defaultCentroid (torontoCentroid st) in
            let ju := ((inject_Z (Z.abs (Z.shiftr hash 5) mod 1000) / 999 - 0.5) * 2)%Q in
            let jv := ((inject_Z (Z.abs (Z.shiftr hash 11) mod 1000) / 999 - 0.5) * 2)%Q in
            let lng := plus c.1 (ju * jitterR) in
            let lat := plus c.2 (jv * jitterR) in
            if contains lng lat then LatLng.mk lat lng
            else LatLng.mk c.2 c.1
      end
  end
  end.
End Geocode.

(** ** Vocabulary of the statements *)

(** *** Cache *)

(** The fan-out rule: the cells [(mem, mk)] a trip of month [mm] is
    accumulated into. *)
Definition applies (trip : Trip.t) (mm mem mk : string) : bool :=
  bool_decide (mem ∈ applyMembers trip)
  && (String.eqb mk "All" || String.eqb mk mm).

(** What one trip does to a station cell and to a route cell it applies to. *)
Definition tripStations (trip : Trip.t) (m : JsMap.t Rec.t) : JsMap.t Rec.t :=
  updateStation
    (updateStation m (Trip.start_station_name trip) "start")
    (Trip.end_station_name trip) "end".

Definition tripRoute (trip : Trip.t) : gmap string (JsMap.t Z) -> gmap string (JsMap.t Z) :=
  bumpRoute (Trip.start_station_name trip) (Trip.end_station_name trip).

(** Every cell of the 3 x 13 grid exists. *)
Definition wfTable {X} (tbl : gmap string (gmap string X)) : Prop :=
  forall mem mk, mem ∈ members -> mk ∈ months -> is_Some (cell tbl mem mk).

Definition wfCaches (c : Caches) : Prop :=
  wfTable (c_stationAgg c) /\ wfTable (c_endRoutes c).

(** A month key as [loadAllCSVs] produces it: one of ['01'] .. ['12']. *)
Definition monthOk (mm : string) : Prop := mm ∈ months /\ mm <> "All".

(** A cleaned trip has non-empty station names. *)
Definition tripOk (trip : Trip.t) : Prop :=
  Trip.start_station_name trip <> "" /\ Trip.end_station_name trip <> "".

(** Validated input: month keys ['01'] .. ['12'], non-empty station names. *)
Definition cleanMonth (mo : MonthObj.t) : Prop :=
  monthOk (MonthObj.mm mo) /\ Forall tripOk (MonthObj.trips mo).
Definition cleanData (allData : list MonthObj.t) : Prop := Forall cleanMonth allData.

(** Totals over one cell. *)
Definition sumZ (l : list Z) : Z := foldr Z.add 0 l.

Definition sumStart (m : JsMap.t Rec.t) : Z := sumZ (map Rec.start (JsMap.values m)).
Definition sumEnd (m : JsMap.t Rec.t) : Z := sumZ (map Rec.end_ (JsMap.values m)).
Definition sumRoutes (o : gmap string (JsMap.t Z)) : Z :=
  map_fold (fun _ m acc => sumZ (JsMap.values m) + acc) 0 o.

(** The three totals of cell [(mem, mk)] all equal [n]. *)
Definition balancedAt (c : Caches) (mem mk : string) (n : Z) : Prop :=
  exists agg rts,
    cell (c_stationAgg c) mem mk = Some agg /\
    cell (c_endRoutes c) mem mk = Some rts /\
    sumStart agg = n /\ sumEnd agg = n /\ sumRoutes rts = n.

(** Number of trips the fan-out rule sends into cell [(mem, mk)]. *)
Definition tripContributions (mm mem mk : string) (trips : list Trip.t) : Z :=
  sumZ (map (fun t => if applies t mm mem mk then 1 else 0) trips).

Definition contributions (allData : list MonthObj.t) (mem mk : string) : Z :=
  sumZ (map (fun mo => tripContributions (MonthObj.mm mo) mem mk (MonthObj.trips mo))
            allData).

(** A station cell as [updateStation] builds it: one entry per key, each
    record carrying its key as [name]. *)
Definition cellOk (m : JsMap.t Rec.t) : Prop :=
  NoDup (JsMap.keys m) /\ Forall (fun kv => Rec.name kv.2 = kv.1) m.

Definition allCellsOk (c : Caches) : Prop :=
  forall mem mk agg, cell (c_stationAgg c) mem mk = Some agg -> cellOk agg.

(** *** Ranking *)

(** Ranking by descending weight. *)
Definition descendingBy {A} (weight : A -> Z) (l : list A) : Prop :=
  StronglySorted (fun a b => weight b <= weight a) l.

(** Ties keep the order they have in [ref]: for each weight, the entries of
    that weight in [l] are an initial segment of those in [ref]. *)
Definition tiesInOrderOf {A} (weight : A -> Z) (ref l : list A) : Prop :=
  forall w, filter (fun a => weight a = w) l `prefix_of` filter (fun a => weight a = w) ref.

(** The entries of station [s]'s route Map in the selected cell, in
    insertion order: the destinations in the order in which [buildCaches]
    first met them, each with its trip count. *)
Definition routeEntries (st : State) (s : string) : list (string * Z) :=
  match routes st !! s with
  | Some m => JsMap.entries m
  | None => []
  end.

(** All edges from [s] to kept stations, in the order of the route Map. *)
Definition edgesOf (st : State) (s : string) : list Link.t :=
  (fun tc => Link.mk s tc.1 tc.2)
    <$> filter (fun tc => tc.1 ∈ included st) (routeEntries st s).


(** Ties broken by name, ascending: among entries of equal weight, the
    lexicographically smaller name comes first. *)
Definition tiesByName {A} (weight : A -> Z) (label : A -> string) (l : list A) : Prop :=
  forall i j a b,
    l !! i = Some a -> l !! j = Some b ->
    weight a = weight b -> String.ltb (label a) (label b) = true ->
    (i < j)%nat.

(** *** Percentile threshold *)

(** The threshold as a function of the sorted candidate weights and the
    slider value. *)
Definition thresholdOf (vals : list Z) (percent : Q) : Z :=
  match vals with
  | [] => 0
  | _ => Qfloor (default 0%Q (quantileSorted vals (fl (percent / 100))))
  end.

(** The interpolation of [d3.quantileSorted] carried out over the
    rationals, without rounding. *)
Definition exactQuantile (vals : list Z) (p : Q) : Q :=
  let n := Z.of_nat (length vals) in
  let i := (inject_Z (n - 1) * p)%Q in
  let i0 := Qfloor i in
  (inject_Z (nthZ vals i0)
   + (inject_Z (nthZ vals (i0 + 1)) - inject_Z (nthZ vals i0)) * (i - inject_Z i0))%Q.

Definition ascendingZ (l : list Z) : Prop := StronglySorted Z.le l.

(** Nearest-rank reading of the threshold: it is the weight found at some
    rank of the sorted candidate weights. *)
Definition weightAtSomeRank (vals : list Z) (t : Z) : Prop :=
  exists i, 0 <= i < Z.of_nat (length vals) /\ nthZ vals i = t.

(** *** View state machine *)

Definition inDetail (st : State) (s : string) : Prop :=
  isDetail st = true /\ selectedStation st = Some s.
Definition inOverview (st : State) : Prop :=
  isDetail st = false /\ selectedStation st = None.

(** Month-filter changes, member-filter changes and the back action. *)
Definition filterChangeOrBack (ev : Event) : bool :=
  match ev with
  | ByMonthChange _ _ | MonthSliderInput _ | MemberRadioChange _ | BackButtonClick => true
  | _ => false
  end.

(** *** Synthetic fallback *)

(** [state.allData] after [loadAllCSVs] when no file yields a valid row:
    twelve months without trips. *)
Definition emptyYear : list MonthObj.t :=
  map (fun mm => MonthObj.mk ("2023-" +:+ mm) mm []) (tail months).

(** The month [injectSyntheticIfNeeded] pushes. *)
Definition syntheticMonth : MonthObj.t :=
  MonthObj.mk "2023-09" "09"
    (flat_map (fun e =>
                 map (fun i => Trip.mk demoStart e.1.1
                                 (if (i mod 2 =? 0)%nat then "Annual" else "Casual"))
                     (seq 0 e.2))
              ends).

(** *** Projection *)

(** The perspective factor at camera-space depth [zc]. *)
Definition scaleAt (cam : Projection.Camera) (zc : R) : R :=
  let f := (Rmin (Projection.width cam) (Projection.height cam) * 0.9)%R in
  if Req_dec_T (f + zc) 0 then 1%R else (f / (f + zc))%R.

(** Depth-based reading of scale consistency: a node and an edge touching
    it whose two endpoints have the node's [depthFor] value get the same
    scale factor. *)
Definition scaleConsistentByDepth (cam : Projection.Camera) : Prop :=
  forall d src tgt : Projection.Placed,
    src = d \/ tgt = d ->
    Projection.depthFor cam (Projection.p_name src)
    = Projection.depthFor cam (Projection.p_name d) ->
    Projection.depthFor cam (Projection.p_name tgt)
    = Projection.depthFor cam (Projection.p_name d) ->
    Projection.nodeScale cam d = Projection.edgeScale cam src tgt.

(** *** Geocode resolver *)





(** ** Sample data *)

(** Three trips A -> B (Annual), two trips A -> C (Casual), one trip
    B -> A (Annual), all in January. *)
Definition dataEx : list MonthObj.t :=
  [MonthObj.mk "2023-01" "01"
     [Trip.mk "A" "B" "Annual"; Trip.mk "A" "B" "Annual"; Trip.mk "A" "B" "Annual";
      Trip.mk "A" "C" "Casual"; Trip.mk "A" "C" "Casual"; Trip.mk "B" "A" "Annual"]].
Definition stateEx : State := initialise dataEx state0.


(** One trip B -> A: both stations total 1, B is met first. *)
Definition dataBA : list MonthObj.t :=
  [MonthObj.mk "2023-01" "01" [Trip.mk "B" "A" "Annual"]].
Definition stateBA : State := initialise dataBA state0.

(** Two trips A -> C, A -> B: both routes count 1, C is met first. *)
Definition dataACB : list MonthObj.t :=
  [MonthObj.mk "2023-01" "01" [Trip.mk "A" "C" "Annual"; Trip.mk "A" "B" "Annual"]].
Definition stateACB : State := set_detail true (Some "A") (initialise dataACB state0).

(** Six destinations from one hub. *)
Definition dataHub6 : list MonthObj.t :=
  [MonthObj.mk "2023-01" "01"
     [Trip.mk "H" "D1" "Annual"; Trip.mk "H" "D2" "Annual"; Trip.mk "H" "D3" "Annual";
      Trip.mk "H" "D4" "Casual"; Trip.mk "H" "D5" "Casual"; Trip.mk "H" "D6" "Other"]].
Definition stateHub6 : State := set_detail true (Some "H") (initialise dataHub6 state0).

(** One trip A -> B and three trips B -> A: candidate weights 1 and 3; the
    slider at 50. *)
Definition data13 : list MonthObj.t :=
  [MonthObj.mk "2023-01" "01"
     [Trip.mk "A" "B" "Annual"; Trip.mk "B" "A" "Annual";
      Trip.mk "B" "A" "Casual"; Trip.mk "B" "A" "Other"]].
Definition state13 : State := set_minRoutePercent 50 (initialise data13 state0).

(** Six trips A -> B, one trip B -> A and one trip C -> A: candidate
    weights 1, 1 and 6; the slider at 60. *)
Definition data116 : list MonthObj.t :=
  [MonthObj.mk "2023-01" "01"
     [Trip.mk "A" "B" "Annual"; Trip.mk "A" "B" "Annual"; Trip.mk "A" "B" "Annual";
      Trip.mk "A" "B" "Casual"; Trip.mk "A" "B" "Casual"; Trip.mk "A" "B" "Other";
      Trip.mk "B" "A" "Annual"; Trip.mk "C" "A" "Casual"]].
Definition state116 : State := set_minRoutePercent 60 (initialise data116 state0).

(** A 1000 x 1000 viewport after a quarter turn of yaw and without
    rotation, and two stations whose names hash to the same depth, 100 px
    apart. *)
Definition camQuarter : Projection.Camera :=
  Projection.mkCamera true (PI / 2) 0 1000 1000.
Definition camFlat : Projection.Camera :=
  Projection.mkCamera true 0 0 1000 1000.
Definition placedAB : Projection.Placed := Projection.mkPlaced "AB" 500 500.
Definition placedaJ : Projection.Placed := Projection.mkPlaced "aJ" 600 500.




(** ** Loading: [safeStr], the row loop of [loadAllCSVs] *)

Definition isSpace (c : ascii) : bool :=
  let n := N_of_ascii c in
  (((9 <=? n) && (n <=? 13)) || (n =? 32))%N.

Fixpoint trimStart (l : list ascii) : list ascii :=
  match l with
  | [] => []
  | c :: l' => if isSpace c then trimStart l' else l
  end.

(** [String.prototype.trim] (ASCII whitespace). *)
Definition trim (s : string) : string :=
  string_of_list_ascii
    (rev (trimStart (rev (trimStart (list_ascii_of_string s))))).

(** [safeStr(v)]: [None] is [null] / [undefined]. *)
Definition safeStr (v : option string) : string :=
  match v with
  | None => ""
  | Some s => trim s
  end.

Definition upperChar (c : ascii) : ascii :=
  let n := N_of_ascii c in
  if ((97 <=? n) && (n <=? 122))%N then ascii_of_N (n - 32) else c.

Definition toUpperCase (s : string) : string :=
  string_of_list_ascii (map upperChar (list_ascii_of_string s)).

(** [.replace(/\s*Member$/i, '')]: a final "Member", in any case, goes with
    the whitespace before it. *)
Definition stripMember (s : string) : string :=
  match rev (list_ascii_of_string s) with
  | c1 :: c2 :: c3 :: c4 :: c5 :: c6 :: rest =>
      if String.eqb
           (string_of_list_ascii (map Geocode.lowerChar [c6; c5; c4; c3; c2; c1]))
           "member"
      then string_of_list_ascii (rev (trimStart rest))
      else s
  | _ => s
  end.

(** A parsed CSV row: column name -> text. *)
Abbreviation Row := (gmap string string).

(** One iteration of [for (const row of rows)]: the trip pushed, or [None]
    when the row is skipped. *)
Definition cleanRow (row : Row) : option Trip.t :=
  let startName := safeStr (row !! "Start Station Name") in
  let endName := safeStr (row !! "End Station Name") in
  let memberRaw := safeStr (row !! "User Type") in
  let member := stripMember memberRaw in
  if String.eqb startName "" || String.eqb endName "" || String.eqb member ""
  then None
  else if String.eqb (toUpperCase startName) "NULL"
          || String.eqb (toUpperCase endName) "NULL"
  then None
  else Some (Trip.mk startName endName
               (if String.eqb member "Annual" || String.eqb member "Casual"
                then member else "Other")).

Definition files : list string :=
  [ "sample-data/Bike share ridership 2023-01.csv";
    "sample-data/Bike share ridership 2023-02.csv";
    "sample-data/Bike share ridership 2023-03.csv";
    "sample-data/Bike share ridership 2023-04.csv";
    "sample-data/Bike share ridership 2023-05.csv";
    "sample-data/Bike share ridership 2023-06.csv";
    "sample-data/Bike share ridership 2023-07.csv";
    "sample-data/Bike share ridership 2023-08.csv";
    "sample-data/Bike share ridership 2023-09.csv";
    "sample-data/Bike share ridership 2023-10.csv";
    "sample-data/Bike share ridership 2023-11.csv";
    "sample-data/Bike share ridership 2023-12.csv" ].

Definition isDigit (c : ascii) : bool :=
  let n := N_of_ascii c in ((48 <=? n) && (n <=? 57))%N.

(** [path.match(/(\d{4})-(\d{2})/)]: the two groups of the leftmost match. *)
Fixpoint matchYearMonth (l : list ascii) : option (string * string) :=
  match l with
  | [] => None
  | _ :: l' =>
      match l with
      | d1 :: d2 :: d3 :: d4 :: sep :: m1 :: m2 :: _ =>
          if isDigit d1 && isDigit d2 && isDigit d3 && isDigit d4
             && Ascii.eqb sep "-" && isDigit m1 && isDigit m2
          then Some (string_of_list_ascii [d1; d2; d3; d4],
                     string_of_list_ascii [m1; m2])
          else matchYearMonth l'
      | _ => matchYearMonth l'
      end
  end.

(** [path.replace(/^.*\//, '')]: what follows the last slash. *)
Fixpoint afterLastSlash (l : list ascii) (acc : list ascii) : list ascii :=
  match l with
  | [] => acc
  | c :: l' => if Ascii.eqb c "/" then afterLastSlash l' l' else afterLastSlash l' acc
  end.

Module DebugStat.
Record t := mk {
  file : string;
  month : string;
  rawRows : nat;
  cleanedRows : nat;
  columns : list string;
  expectedPresent : nat;
  expectedTotal : nat;
  missing : list string
}.
End DebugStat.

Definition expected : list string :=
  ["Start Station Name"; "End Station Name"; "Start Station Id";
   "End Station Id"; "User Type"].

(** Body of [for (let i = 0; i < files.length; i++)] for one file. *)
Definition loadFile (path : string) (rows : list Row) : DebugStat.t * MonthObj.t :=
  let m := matchYearMonth (list_ascii_of_string path) in
  let monthKey :=
    match m with Some (y, mo) => y +:+ "-" +:+ mo | None => "unknown" end in
  let monthMM := match m with Some (_, mo) => mo | None => "01" end in
  let cleanedTrips := omap cleanRow rows in
  let rawCount := length rows in
  let columns :=
    match rows with
    | [] => []
    | row0 :: _ => (map_to_list row0).*1
    end in
  let missing := filter (fun k => k ∉ columns) expected in
  (DebugStat.mk
     (string_of_list_ascii
        (afterLastSlash (list_ascii_of_string path) (list_ascii_of_string path)))
     monthKey rawCount (length cleanedTrips) columns
     (length expected - length missing) (length expected) missing,
   MonthObj.mk monthKey monthMM cleanedTrips).

(** [loadAllCSVs()] for the fetched [results] ([results[i] || []]): what it
    stores in [state.debugStats] and [state.allData]. *)
Definition loadAllCSVs (results : list (list Row))
  : list DebugStat.t * list MonthObj.t :=
  let loaded := imap (fun i path => loadFile path (default [] (results !! i))) files in
  (loaded.*1, loaded.*2).

(** The initialisation chain from the fetched files on. *)
Definition start (results : list (list Row)) : State :=
  initialise (loadAllCSVs results).2 state0.

(** A row with the three columns the loader reads. *)
Definition rowOf (s e u : string) : Row :=
  <["Start Station Name" := s]> (<["End Station Name" := e]> (<["User Type" := u]> ∅)).

(** No leading whitespace. *)
Definition noLead (l : list ascii) : Prop :=
  match l with
  | [] => True
  | c :: _ => isSpace c = false
  end.

(** ** Cache readers used by the further properties *)

(** Counters of one station in a station cell, and route totals of one
    station in a route cell. *)
Definition startOf (x : string) (agg : JsMap.t Rec.t) : Z :=
  from_option Rec.start 0 (JsMap.get x agg).
Definition endOf (x : string) (agg : JsMap.t Rec.t) : Z :=
  from_option Rec.end_ 0 (JsMap.get x agg).
Definition routeOf (x y : string) (rts : gmap string (JsMap.t Z)) : Z :=
  or0 (m ← rts !! x; JsMap.get y m).
(** All trips leaving [x], and all trips arriving at [x], as the route cell
    counts them. *)
Definition outSum (x : string) (rts : gmap string (JsMap.t Z)) : Z :=
  sumZ (JsMap.values (default JsMap.empty (rts !! x))).
Definition inSum (x : string) (rts : gmap string (JsMap.t Z)) : Z :=
  map_fold (fun _ m acc => or0 (JsMap.get x m) + acc) 0 rts.

(** Sum of [d] over the trips of [allData] that the fan-out rule sends into
    cell [(mem, mk)]. *)
Definition sumOver (d : Trip.t -> Z) (allData : list MonthObj.t) (mem mk : string) : Z :=
  sumZ (map (fun mo =>
               sumZ (map (fun t => if applies t (MonthObj.mm mo) mem mk then d t else 0)
                         (MonthObj.trips mo)))
            allData).

Definition ind (b : bool) : Z := if b then 1 else 0.

(** The quantity [mu] of cell [(mem, mk)] is [n]. *)
Definition measured (mu : JsMap.t Rec.t -> gmap string (JsMap.t Z) -> Z)
    (c : Caches) (mem mk : string) (n : Z) : Prop :=
  exists agg rts,
    cell (c_stationAgg c) mem mk = Some agg /\
    cell (c_endRoutes c) mem mk = Some rts /\ mu agg rts = n.



(** The caches of the sample scenario. *)
Definition cachesEx : Caches := default initCaches (buildCaches dataEx).

(** Trips leaving [x], arriving at [x], going from [x] to [y]. *)
Definition fromStation (x : string) (t : Trip.t) : Z :=
  ind (bool_decide (x = Trip.start_station_name t)).
Definition toStation (x : string) (t : Trip.t) : Z :=
  ind (bool_decide (x = Trip.end_station_name t)).
Definition onRoute (x y : string) (t : Trip.t) : Z :=
  ind (bool_decide (x = Trip.start_station_name t)
       && bool_decide (y = Trip.end_station_name t)).

(** The part of [d] carried by trips of neither Annual nor Casual type. *)
Definition otherOnly (d : Trip.t -> Z) (t : Trip.t) : Z :=
  if String.eqb (memberBucket t) "Other" then d t else 0.


(** A month the accumulation loop can take: no trip, or a key of the grid. *)
Definition monthFits (mo : MonthObj.t) : Prop :=
  MonthObj.trips mo = [] \/ MonthObj.mm mo ∈ months.

(** No cell is stored under month key [mk]. *)
Definition noColumn (c : Caches) (mk : string) : Prop :=
  forall mem, cell (c_stationAgg c) mem mk = None.


(** The sample scenario with the slider at 100 and low-activity nodes hidden. *)
Definition stateHide : State :=
  set_hideLowNodes true (set_minRoutePercent 100 stateEx).

(** A link between two drawn nodes. *)
Definition drawnEnds (st : State) (l : Link.t) : Prop :=
  Link.source l ∈ map Node.name (nodesVis st) /\
  Link.target l ∈ map Node.name (nodesVis st).

(** Node [n] is an endpoint of link [l]. *)
Definition touches (n : Node.t) (l : Link.t) : Prop :=
  Link.source l = Node.name n \/ Link.target l = Node.name n.


(** The sample scenario with the slider at 100. *)
Definition stateTop : State := set_minRoutePercent 100 stateEx.

(** A heaviest candidate link. *)
Definition heaviest (st : State) (l : Link.t) : Prop :=
  l ∈ linksRaw st /\ forall l', l' ∈ linksRaw st -> Link.value l' <= Link.value l.

(** The view mode as a function of the events alone: the station shown in
    detail, if any. *)
Definition modeStep (m : option string) (ev : Event) : option string :=
  match ev with
  | StationClick s => Some s
  | MinRouteSliderInput _ | ColorBlindChange _ => m
  | ByMonthChange _ _ | MonthSliderInput _ | MemberRadioChange _
  | BackButtonClick | HideLowNodesChange _ | Mode3dChange _ => None
  end.

Definition inputStep (m : option string) (i : Input) : option string :=
  match i with
  | Control ev => modeStep m ev
  | Pointer _ => m
  end.
Definition modeAfter (ins : list Input) : option string := foldl inputStep None ins.

(** The view is in the mode [m]. *)
Definition inMode (st : State) (m : option string) : Prop :=
  match m with
  | Some s => inDetail st s
  | None => inOverview st
  end.

(** The threshold stored in the state is the one of its own selection. *)
Definition thresholdInSync (st : State) : Prop :=
  minRouteCount st = thresholdCount st.


(** ** The top-start-stations table: [updateTopStartTable] *)

Module TopRow.
Record t := mk {
  name : string;
  start : Z;
  end_ : Z;
  total : Z
}.
End TopRow.

Definition toRow (d : Rec.t) : TopRow.t :=
  TopRow.mk (Rec.name d) (Rec.start d) (Rec.end_ d) (Rec.start d + Rec.end_ d).

Definition byStartDesc (a b : TopRow.t) : Z := TopRow.start b - TopRow.start a.

Definition TOP_ROWS : nat := 25.

(** The stations of the current cell with at least one departure. *)
Definition startCandidates (st : State) : list TopRow.t :=
  map toRow (filter (fun d => 0 < Rec.start d) (JsMap.values (aggMap st))).

(** [rows] after [filter], [map], [sort] and [slice(0, 25)]. *)
Definition topStartRows (st : State) : list TopRow.t :=
  take TOP_ROWS (js_sort byStartDesc (startCandidates st)).

(** A route cell: each route Map has one entry per destination, with a
    count of at least 1. *)
Definition routesOk (rts : gmap string (JsMap.t Z)) : Prop :=
  forall s m, rts !! s = Some m ->
    NoDup (JsMap.keys m) /\ Forall (fun kv => 1 <= kv.2) m.

(** The state shows the caches [c] built from [allData]. *)
Definition shows (st : State) (allData : list MonthObj.t) (c : Caches) : Prop :=
  cleanData allData /\ buildCaches allData = Some c /\
  stationAgg st = Some (c_stationAgg c) /\ endRoutes st = Some (c_endRoutes c) /\
  memberKey st ∈ members /\ monthKey st ∈ months.

(** Trips of [allData] under the state's member and month filters that
    leave [x], arrive at [x], go from [x] to [y]. *)
Definition departures (st : State) (allData : list MonthObj.t) (x : string) : Z :=
  sumOver (fromStation x) allData (memberKey st) (monthKey st).
Definition arrivals (st : State) (allData : list MonthObj.t) (x : string) : Z :=
  sumOver (toStation x) allData (memberKey st) (monthKey st).
Definition tripsOn (st : State) (allData : list MonthObj.t) (x y : string) : Z :=
  sumOver (onRoute x y) allData (memberKey st) (monthKey st).

(** Every station cell satisfies [PA] and every route cell [PR]. *)
Definition cellsSatisfy (PA : JsMap.t Rec.t -> Prop)
    (PR : gmap string (JsMap.t Z) -> Prop) (c : Caches) : Prop :=
  (forall mem mk agg, cell (c_stationAgg c) mem mk = Some agg -> PA agg) /\
  (forall mem mk rts, cell (c_endRoutes c) mem mk = Some rts -> PR rts).


(** A coordinate pair inside the bounding box used for the first guess. *)
Definition inBounds (r : LatLng.t) : Prop :=
  exists la lo,
    LatLng.lat r = Finite la /\ LatLng.lng r = Finite lo /\
    (Geocode.minLat <= la <= Geocode.maxLat)%Q /\
    (Geocode.minLng <= lo <= Geocode.maxLng)%Q.

(** The station is in neither feed with usable coordinates. *)
Definition unknownStation (st : State) (name : string) : Prop :=
  Geocode.usable (JsMap.get name (stationPos st)) = None /\
  Geocode.usable (JsMap.get (Geocode.normalizeName name) (stationPosNorm st)) = None.

(** The centroid the resolver falls back to. *)
Definition centroidOf (st : State) : LatLng.t :=
  let c := default Geocode.defaultCentroid (torontoCentroid st) in
  LatLng.mk c.2 c.1.

(** A normalised name: lower-case letters, digits and single spaces, with
    no space at either end. *)
Fixpoint tidy (afterSpace : bool) (l : list ascii) : Prop :=
  match l with
  | [] => True
  | c :: l' =>
      (Geocode.isAlnum c = true /\ tidy false l') \/
      (c = " "%char /\ afterSpace = false /\ tidy true l')
  end.
Definition normalised (s : string) : Prop :=
  let l := list_ascii_of_string s in
  tidy true l /\ head (rev l) <> Some " "%char.


(** The pitch limit of the rotation drag. *)
Definition maxPitch : R := (PI / 2 * 0.88)%R.


(** ** Tooltip text: [escapeHtml] *)

Definition dquote : ascii := "034"%char.

(** The replacement of one character. *)
Definition escapeChar (ch : ascii) : list ascii :=
  if Ascii.eqb ch "&"%char then list_ascii_of_string "&amp;"
  else if Ascii.eqb ch "<"%char then list_ascii_of_string "&lt;"
  else if Ascii.eqb ch ">"%char then list_ascii_of_string "&gt;"
  else if Ascii.eqb ch dquote then list_ascii_of_string "&quot;"
  else if Ascii.eqb ch "'"%char then list_ascii_of_string "&#39;"
  else [ch].

(** [escapeHtml(s)] on a string [s]: [replaceAll] over the five special
    characters, every match replaced by its entity. *)
Definition escapeHtml (s : string) : string :=
  string_of_list_ascii (flat_map escapeChar (list_ascii_of_string s)).

(** The characters that open or close markup or an attribute value. *)
Definition markup (c : ascii) : Prop :=
  c = "<"%char \/ c = ">"%char \/ c = dquote \/ c = "'"%char.

(** ** The sampling script: [make-sample-data.js] *)

Module Sampler.

(** One step of the seeded generator; [%] is the truncating remainder. *)
Definition lcg (s : Z) : Z := Z.rem (1664525 * s + 1013904223) 4294967296.

(** [rand()] with a seed: the draw and the new [rngState]. *)
Definition randLcg (s : Z) : Q * Z := ((inject_Z (lcg s) / 4294967296)%Q, lcg s).

(** [parseInt(seedArg, 10) || 123456789]; [None] is [NaN]. *)
Definition seedOf (parsed : option Z) : Z :=
  match parsed with
  | Some z => if z =? 0 then 123456789 else z
  | None => 123456789
  end.

(** The variables of the line loop of [sampleFile]: [out] is what has been
    written, [rng] the generator state. *)
Record Loop (G : Type) := mkLoop {
  isFirst : bool;
  total : nat;
  kept : nat;
  out : list string;
  rng : G
}.
Arguments mkLoop {G}.
Arguments isFirst {G}.
Arguments total {G}.
Arguments kept {G}.
Arguments out {G}.
Arguments rng {G}.

(** The loop body, for a generator [rand] (the seeded one or
    [Math.random]). *)
Definition step {G} (rand : G -> Q * G) (rate : Q) (st : Loop G) (line : string)
  : Loop G :=
  if isFirst st
  then mkLoop false (S (total st)) (S (kept st)) (out st ++ [line]) (rng st)
  else
    let (r, g) := rand (rng st) in
    if negb (Qle_bool rate r)
    then mkLoop false (S (total st)) (S (kept st)) (out st ++ [line]) g
    else mkLoop false (S (total st)) (kept st) (out st) g.

(** [sampleFile] on the lines of an existing file. *)
Definition sampleFile {G} (rand : G -> Q * G) (rate : Q) (lines : list string) (g : G)
  : Loop G :=
  foldl (step rand rate) (mkLoop true 0 0 [] g) lines.

End Sampler.

(** What the line loop maintains once the lines [pre] are read. *)
Definition loopInv {G} (pre : list string) (st : Sampler.Loop G) : Prop :=
  Sampler.total st = length pre /\
  Sampler.kept st = length (Sampler.out st) /\
  Sampler.out st `sublist_of` pre /\
  head (Sampler.out st) = head pre /\
  (Sampler.isFirst st = true <-> pre = []).

(** ** States of the running page *)

(** A state reached from the loaded files by a sequence of events. *)
Definition reachable (st : State) : Prop :=
  exists results evs, st = run evs (start results).

(** What every such state satisfies. *)
Definition pageInv (st : State) : Prop :=
  cleanData (allData st) /\
  (exists c, buildCaches (allData st) = Some c /\
             stationAgg st = Some (c_stationAgg c) /\
             endRoutes st = Some (c_endRoutes c)) /\
  thresholdInSync st /\
  (inOverview st \/ exists s, inDetail st s) /\
  stationPos st = JsMap.empty /\ stationPosNorm st = JsMap.empty.


(** ** Great-circle distance: [haversineKm] *)

Module Haversine.
Local Open Scope R_scope.

(** A position in degrees. *)
Record Pos := mkPos { lat : R; lng : R }.

Definition toRad (deg : R) : R := deg * PI / 180.

(** The quantity [h] under the square root. *)
Definition hav (a b : Pos) : R :=
  let dLat := toRad (lat b - lat a) in
  let dLng := toRad (lng b - lng a) in
  let lat1 := toRad (lat a) in
  let lat2 := toRad (lat b) in
  (sin (dLat / 2)) ^ 2 + cos lat1 * cos lat2 * (sin (dLng / 2)) ^ 2.

(** [haversineKm(a, b)]; [None] is a missing position, answered by [null]. *)
Definition haversineKm (a b : option Pos) : option R :=
  match a, b with
  | Some a, Some b => Some (2 * 6371 * asin (Rmin 1 (sqrt (hav a b))))
  | _, _ => None
  end.
End Haversine.

(** The caches of the scenario with the two routes of equal count. *)
Definition cachesACB : Caches := default initCaches (buildCaches dataACB).


(** * Proofs *)

(** Membership in a list given by its elements. *)
Ltac in_list :=
  repeat first [apply list_elem_of_here | apply list_elem_of_further].

(** Non-membership, from disequalities found among the hypotheses. *)
Ltac not_in_list :=
  rewrite ?not_elem_of_cons; repeat split;
  first [done | congruence | apply not_elem_of_nil].

(** ** JS Map *)

Lemma eqb_eq_dec (a b : string) : String.eqb a b = bool_decide (a = b).
Proof.
  destruct (String.eqb_spec a b); [ by rewrite bool_decide_eq_true_2
                                  | by rewrite bool_decide_eq_false_2 ].
Qed.

Lemma get_set_eq {V} k (v : V) m : JsMap.get k (JsMap.set k v m) = Some v.
Proof.
  induction m as [|[k' v'] m IH]; simpl.
  - by rewrite String.eqb_refl.
  - destruct (String.eqb k k') eqn:E; simpl.
    + by rewrite String.eqb_refl.
    + by rewrite E.
Qed.

Lemma get_set_ne {V} k k' (v : V) m :
  k <> k' -> JsMap.get k' (JsMap.set k v m) = JsMap.get k' m.
Proof.
  intros Hne. induction m as [|[k0 v0] m IH]; simpl.
  - destruct (String.eqb_spec k' k); congruence.
  - destruct (String.eqb_spec k k0) as [->|]; simpl.
    + destruct (String.eqb_spec k' k0); congruence.
    + by rewrite IH.
Qed.

(** ** Tables of cells *)

Lemma with_cell_spec {X} (tbl : gmap string (gmap string X)) mem mk f :
  is_Some (cell tbl mem mk) ->
  exists tbl',
    with_cell tbl mem mk f = Some tbl' /\
    forall mem' mk',
      cell tbl' mem' mk' =
      if bool_decide (mem' = mem /\ mk' = mk)
      then f <$> cell tbl mem' mk' else cell tbl mem' mk'.
Proof.
  unfold cell, with_cell. intros [c Hc].
  destruct (tbl !! mem) as [row|] eqn:Hrow; [simpl in *|done].
  rewrite Hc. simpl. eexists; split; [done|].
  intros mem' mk'.
  destruct (decide (mem' = mem)) as [->|Hm].
  - rewrite lookup_insert_eq, Hrow. simpl.
    destruct (decide (mk' = mk)) as [->|Hk].
    + rewrite lookup_insert_eq, Hc, bool_decide_eq_true_2; done.
    + rewrite lookup_insert_ne by done.
      rewrite bool_decide_eq_false_2; [done|naive_solver].
  - rewrite lookup_insert_ne by done.
    rewrite bool_decide_eq_false_2; [done|naive_solver].
Qed.

Lemma with_cell_wf {X} (tbl tbl' : gmap string (gmap string X)) mem mk f :
  wfTable tbl -> with_cell tbl mem mk f = Some tbl' -> wfTable tbl'.
Proof.
  intros Hwf Hw mem' mk' Hm Hk.
  assert (is_Some (cell tbl mem mk)) as Hc.
  { unfold with_cell, cell in *. destruct (tbl !! mem); simpl in *; [|done].
    destruct (_ !! mk); [eauto|done]. }
  destruct (with_cell_spec tbl mem mk f Hc) as (t2 & E & Hcell).
  rewrite E in Hw. injection Hw as <-. rewrite Hcell.
  destruct (Hwf mem' mk' Hm Hk) as [c ->]. by case_bool_decide; eauto.
Qed.

(** One iteration of the member loop: the two cells [(mem, "All")] and
    [(mem, mm)] take the trip; nothing else moves. *)
Lemma accumulate_spec mm trip mem c :
  wfCaches c -> mem ∈ members -> monthOk mm ->
  exists c',
    accumulate mm trip mem c = Some c' /\ wfCaches c' /\
    forall mem' mk',
      let hit := bool_decide (mem' = mem) && (String.eqb mk' "All" || String.eqb mk' mm) in
      cell (c_stationAgg c') mem' mk' =
        (if hit then tripStations trip <$> cell (c_stationAgg c) mem' mk'
         else cell (c_stationAgg c) mem' mk') /\
      cell (c_endRoutes c') mem' mk' =
        (if hit then tripRoute trip <$> cell (c_endRoutes c) mem' mk'
         else cell (c_endRoutes c) mem' mk').
Proof.
  intros [Hsa Her] Hmem [Hmm HmmAll].
  assert ("All" ∈ months) as HAll by (unfold months; in_list).
  unfold accumulate.
  destruct (with_cell_spec (c_stationAgg c) mem "All"
              (fun m => updateStation m (Trip.start_station_name trip) "start"))
    as (sa1 & E1 & H1); [by apply Hsa|].
  pose proof (with_cell_wf _ _ _ _ _ Hsa E1) as W1.
  destruct (with_cell_spec sa1 mem "All"
              (fun m => updateStation m (Trip.end_station_name trip) "end"))
    as (sa2 & E2 & H2); [by apply W1|].
  pose proof (with_cell_wf _ _ _ _ _ W1 E2) as W2.
  destruct (with_cell_spec sa2 mem mm
              (fun m => updateStation m (Trip.start_station_name trip) "start"))
    as (sa3 & E3 & H3); [by apply W2|].
  pose proof (with_cell_wf _ _ _ _ _ W2 E3) as W3.
  destruct (with_cell_spec sa3 mem mm
              (fun m => updateStation m (Trip.end_station_name trip) "end"))
    as (sa4 & E4 & H4); [by apply W3|].
  pose proof (with_cell_wf _ _ _ _ _ W3 E4) as W4.
  destruct (with_cell_spec (c_endRoutes c) mem "All" (tripRoute trip))
    as (er1 & F1 & G1); [by apply Her|].
  pose proof (with_cell_wf _ _ _ _ _ Her F1) as V1.
  destruct (with_cell_spec er1 mem mm (tripRoute trip))
    as (er2 & F2 & G2); [by apply V1|].
  pose proof (with_cell_wf _ _ _ _ _ V1 F2) as V2.
  unfold tripRoute in *.
  rewrite E1; simpl. rewrite E2; simpl. rewrite E3; simpl. rewrite E4; simpl.
  rewrite F1; simpl. rewrite F2; simpl.
  eexists; split; [done|]. split; [done|].
  intros mem' mk'. simpl.
  rewrite H4, H3, H2, H1, G2, G1. rewrite !eqb_eq_dec.
  destruct (decide (mem' = mem)) as [->|Hne].
  - rewrite (bool_decide_eq_true_2 (mem = mem)) by done. simpl.
    destruct (decide (mk' = "All")) as [->|HnAll].
    + rewrite (bool_decide_eq_false_2 (_ /\ "All" = mm)) by naive_solver.
      rewrite (bool_decide_eq_true_2 (_ /\ "All" = "All")) by done.
      rewrite (bool_decide_eq_true_2 ("All" = "All")) by done. simpl.
      unfold tripStations.
      split; [by destruct (cell (c_stationAgg c) mem "All")|done].
    + rewrite (bool_decide_eq_false_2 (_ /\ mk' = "All")) by naive_solver.
      rewrite (bool_decide_eq_false_2 (mk' = "All")) by done. simpl.
      destruct (decide (mk' = mm)) as [->|Hnmm].
      * rewrite !(bool_decide_eq_true_2 (_ /\ mm = mm)) by done.
        rewrite (bool_decide_eq_true_2 (mm = mm)) by done.
        unfold tripStations.
        split; [by destruct (cell (c_stationAgg c) mem mm)|done].
      * rewrite !(bool_decide_eq_false_2 (_ /\ mk' = mm)) by naive_solver.
        by rewrite (bool_decide_eq_false_2 (mk' = mm)) by done.
  - rewrite (bool_decide_eq_false_2 (mem' = mem)) by done. simpl.
    rewrite !(bool_decide_eq_false_2 (mem' = mem /\ _)) by naive_solver. done.
Qed.

Lemma applyMembers_cases trip :
  (Trip.member_type trip = "Annual" /\ applyMembers trip = ["All"; "Annual"]) \/
  (Trip.member_type trip = "Casual" /\ applyMembers trip = ["All"; "Casual"]) \/
  (Trip.member_type trip <> "Annual" /\ Trip.member_type trip <> "Casual" /\
   applyMembers trip = ["All"]).
Proof.
  unfold applyMembers, memberBucket.
  destruct (String.eqb_spec (Trip.member_type trip) "Annual") as [->|H1]; [by left|].
  destruct (String.eqb_spec (Trip.member_type trip) "Casual") as [->|H2]; [by right; left|].
  by right; right.
Qed.

Lemma applyMembers_members trip mem : mem ∈ applyMembers trip -> mem ∈ members.
Proof.
  destruct (applyMembers_cases trip) as [[_ ->]|[[_ ->]|(_ & _ & ->)]];
    rewrite ?elem_of_cons, elem_of_nil; unfold members;
    intros H; repeat (destruct H as [->|H]; [in_list|]); done.
Qed.

(** One trip: every cell the fan-out rule names takes the trip once; all
    other cells are left as they were. *)
Lemma processTrip_spec mm trip c :
  wfCaches c -> monthOk mm ->
  exists c',
    processTrip mm trip c = Some c' /\ wfCaches c' /\
    forall mem mk,
      cell (c_stationAgg c') mem mk =
        (if applies trip mm mem mk then tripStations trip <$> cell (c_stationAgg c) mem mk
         else cell (c_stationAgg c) mem mk) /\
      cell (c_endRoutes c') mem mk =
        (if applies trip mm mem mk then tripRoute trip <$> cell (c_endRoutes c) mem mk
         else cell (c_endRoutes c) mem mk).
Proof.
  intros Hwf Hmm. unfold processTrip, applies.
  assert (forall mem2,
            applyMembers trip = ["All"; mem2] -> mem2 <> "All" -> mem2 ∈ members ->
            exists c',
              for_each (accumulate mm trip) ["All"; mem2] c = Some c' /\ wfCaches c' /\
              forall mem mk,
                cell (c_stationAgg c') mem mk =
                  (if bool_decide (mem ∈ ["All"; mem2])
                      && (String.eqb mk "All" || String.eqb mk mm)
                   then tripStations trip <$> cell (c_stationAgg c) mem mk
                   else cell (c_stationAgg c) mem mk) /\
                cell (c_endRoutes c') mem mk =
                  (if bool_decide (mem ∈ ["All"; mem2])
                      && (String.eqb mk "All" || String.eqb mk mm)
                   then tripRoute trip <$> cell (c_endRoutes c) mem mk
                   else cell (c_endRoutes c) mem mk)) as Two.
  { intros mem2 _ Hne Hin. simpl.
    destruct (accumulate_spec mm trip "All" c Hwf) as (c1 & E1 & W1 & H1);
      [unfold members; in_list|done|].
    destruct (accumulate_spec mm trip mem2 c1 W1) as (c2 & E2 & W2 & H2); [done..|].
    rewrite E1; simpl. rewrite E2; simpl.
    eexists; split; [done|]. split; [done|].
    intros mem mk. destruct (H2 mem mk) as [-> ->]. destruct (H1 mem mk) as [-> ->].
    destruct (decide (mem = "All")) as [->|HnA].
    - rewrite (bool_decide_eq_false_2 ("All" = mem2)) by done.
      rewrite (bool_decide_eq_true_2 ("All" = "All")) by done.
      rewrite (bool_decide_eq_true_2 ("All" ∈ _)) by in_list. done.
    - rewrite (bool_decide_eq_false_2 (mem = "All")) by done. simpl.
      destruct (decide (mem = mem2)) as [->|Hn2].
      + rewrite (bool_decide_eq_true_2 (mem2 = mem2)) by done.
        rewrite (bool_decide_eq_true_2 (mem2 ∈ _)) by in_list. done.
      + rewrite (bool_decide_eq_false_2 (mem = mem2)) by done.
        rewrite (bool_decide_eq_false_2 (mem ∈ _)) by not_in_list. done. }
  destruct (applyMembers_cases trip) as [[_ E]|[[_ E]|(_ & _ & E)]]; rewrite E.
  - apply Two; [done|done|unfold members; in_list].
  - apply Two; [done|done|unfold members; in_list].
  - simpl.
    destruct (accumulate_spec mm trip "All" c Hwf) as (c1 & E1 & W1 & H1);
      [unfold members; in_list|done|].
    rewrite E1; simpl. eexists; split; [done|]. split; [done|].
    intros mem mk. destruct (H1 mem mk) as [-> ->].
    destruct (decide (mem = "All")) as [->|HnA].
    + rewrite (bool_decide_eq_true_2 ("All" = "All")) by done.
      rewrite (bool_decide_eq_true_2 ("All" ∈ _)) by in_list. done.
    + rewrite (bool_decide_eq_false_2 (mem = "All")) by done.
      rewrite (bool_decide_eq_false_2 (mem ∈ _)) by not_in_list. done.
Qed.

(** ** [updateStation] and [bumpRoute] on one cell *)

Lemma get_updateStation m n ty x :
  n <> "" -> x <> n ->
  JsMap.get x (updateStation m n ty) = JsMap.get x m.
Proof.
  intros Hn Hx. unfold updateStation.
  destruct (String.eqb_spec n ""); [done|].
  by apply get_set_ne.
Qed.

Lemma get_updateStation_start m n :
  n <> "" ->
  exists r, JsMap.get n (updateStation m n "start") = Some r /\
            Rec.start r = from_option Rec.start 0 (JsMap.get n m) + 1 /\
            Rec.end_ r = from_option Rec.end_ 0 (JsMap.get n m).
Proof.
  intros Hn. unfold updateStation.
  destruct (String.eqb_spec n ""); [done|]. simpl.
  rewrite get_set_eq. eexists; split; [done|].
  by destruct (JsMap.get n m).
Qed.

Lemma get_updateStation_end m n :
  n <> "" ->
  exists r, JsMap.get n (updateStation m n "end") = Some r /\
            Rec.start r = from_option Rec.start 0 (JsMap.get n m) /\
            Rec.end_ r = from_option Rec.end_ 0 (JsMap.get n m) + 1.
Proof.
  intros Hn. unfold updateStation.
  destruct (String.eqb_spec n ""); [done|]. simpl.
  rewrite get_set_eq. eexists; split; [done|].
  by destruct (JsMap.get n m).
Qed.

Lemma tripStations_start trip m :
  tripOk trip ->
  from_option Rec.start 0
    (JsMap.get (Trip.start_station_name trip) (tripStations trip m))
  = from_option Rec.start 0 (JsMap.get (Trip.start_station_name trip) m) + 1.
Proof.
  intros [Hs He]. unfold tripStations.
  destruct (get_updateStation_start m _ Hs) as (r & Hr & Hrs & Hre).
  destruct (decide (Trip.start_station_name trip = Trip.end_station_name trip)) as [E|E].
  - rewrite <- E.
    destruct (get_updateStation_end (updateStation m (Trip.start_station_name trip) "start") _ Hs)
      as (r2 & Hr2 & Hr2s & _).
    rewrite Hr2. simpl. rewrite Hr2s, Hr. simpl. done.
  - rewrite get_updateStation by done. rewrite Hr. done.
Qed.

Lemma tripStations_end trip m :
  tripOk trip ->
  from_option Rec.end_ 0
    (JsMap.get (Trip.end_station_name trip) (tripStations trip m))
  = from_option Rec.end_ 0 (JsMap.get (Trip.end_station_name trip) m) + 1.
Proof.
  intros [Hs He]. unfold tripStations.
  destruct (get_updateStation_end
              (updateStation m (Trip.start_station_name trip) "start") _ He)
    as (r2 & Hr2 & _ & Hr2e).
  rewrite Hr2. simpl. rewrite Hr2e. f_equal.
  destruct (decide (Trip.end_station_name trip = Trip.start_station_name trip)) as [E|E].
  - rewrite E.
    destruct (get_updateStation_start m _ Hs) as (r & Hr & _ & Hre).
    rewrite Hr. done.
  - by rewrite get_updateStation.
Qed.



Lemma init_table_wf {X} (fresh : X) : wfTable (init_table fresh).
Proof.
  intros mem mk Hm Hk. unfold members, months in *.
  repeat (apply elem_of_cons in Hm as [->|Hm]);
    try (by apply elem_of_nil in Hm);
    repeat (apply elem_of_cons in Hk as [->|Hk]);
    try (by apply elem_of_nil in Hk);
    vm_compute; eauto.
Qed.

Lemma initCaches_wf : wfCaches initCaches.
Proof. split; apply init_table_wf. Qed.


(** ** C1: fan-out of one trip *)



(** The example scenario of the specification, through [buildCaches]. *)
Example example_scenario :
  exists c,
    buildCaches dataEx = Some c /\
    start_count c "All" "All" "A" = 5 /\ end_count c "All" "All" "A" = 1 /\
    start_count c "All" "All" "B" = 1 /\ end_count c "All" "All" "B" = 3 /\
    end_count c "All" "All" "C" = 2 /\
    start_count c "Annual" "All" "A" = 3 /\ end_count c "Annual" "All" "B" = 3 /\
    start_count c "Annual" "All" "B" = 1 /\ end_count c "Annual" "All" "A" = 1 /\
    (o ← cell (c_endRoutes c) "All" "All"; o !! "A") = Some [("B", 3); ("C", 2)].
Proof. eexists. split; [vm_compute; reflexivity|]. repeat split. Qed.

(** ** C10: balance of the three totals *)

Lemma sumZ_set {V} (g : V -> Z) k v (m : JsMap.t V) :
  sumZ (map g (JsMap.values (JsMap.set k v m)))
  = sumZ (map g (JsMap.values m)) - from_option g 0 (JsMap.get k m) + g v.
Proof.
  unfold JsMap.values.
  induction m as [|[k' v'] m IH]; simpl; [lia|].
  destruct (String.eqb k k'); simpl; [lia|]. rewrite IH. lia.
Qed.

Lemma sums_updateStation_start m n :
  n <> "" ->
  sumStart (updateStation m n "start") = sumStart m + 1 /\
  sumEnd (updateStation m n "start") = sumEnd m.
Proof.
  intros Hn. unfold updateStation, sumStart, sumEnd.
  destruct (String.eqb_spec n ""); [done|]. simpl.
  rewrite !sumZ_set. destruct (JsMap.get n m); simpl; lia.
Qed.

Lemma sums_updateStation_end m n :
  n <> "" ->
  sumStart (updateStation m n "end") = sumStart m /\
  sumEnd (updateStation m n "end") = sumEnd m + 1.
Proof.
  intros Hn. unfold updateStation, sumStart, sumEnd.
  destruct (String.eqb_spec n ""); [done|]. simpl.
  rewrite !sumZ_set. destruct (JsMap.get n m); simpl; lia.
Qed.

Lemma sums_tripStations trip m :
  tripOk trip ->
  sumStart (tripStations trip m) = sumStart m + 1 /\
  sumEnd (tripStations trip m) = sumEnd m + 1.
Proof.
  intros [Hs He]. unfold tripStations.
  destruct (sums_updateStation_start m _ Hs) as [A1 A2].
  destruct (sums_updateStation_end
              (updateStation m (Trip.start_station_name trip) "start") _ He) as [B1 B2].
  lia.
Qed.

Lemma sumRoutes_insert (o : gmap string (JsMap.t Z)) s m' :
  sumRoutes (<[s := m']> o)
  = sumRoutes o - sumZ (JsMap.values (default JsMap.empty (o !! s)))
    + sumZ (JsMap.values m').
Proof.
  unfold sumRoutes.
  assert (forall (o1 : gmap string (JsMap.t Z)) x,
            o1 !! s = None ->
            map_fold (fun _ m acc => sumZ (JsMap.values m) + acc) 0 (<[s := x]> o1)
            = sumZ (JsMap.values x)
              + map_fold (fun _ m acc => sumZ (JsMap.values m) + acc) 0 o1) as Fresh.
  { intros o1 x Hnone.
    rewrite (map_fold_insert_L (fun _ m acc => sumZ (JsMap.values m) + acc));
      [done| |done].
    intros; lia. }
  destruct (o !! s) as [m0|] eqn:E; simpl.
  - rewrite <- (insert_delete_eq o).
    rewrite <- (insert_delete_id o s m0 E) at 2.
    rewrite !Fresh by apply lookup_delete_eq. lia.
  - rewrite Fresh by done. simpl. lia.
Qed.

Lemma sumRoutes_bumpRoute s e o : sumRoutes (bumpRoute s e o) = sumRoutes o + 1.
Proof.
  unfold bumpRoute. rewrite sumRoutes_insert.
  pose proof (sumZ_set (fun z : Z => z) e
                (or0 (JsMap.get e (default JsMap.empty (o !! s))) + 1)
                (default JsMap.empty (o !! s))) as H.
  rewrite !map_id in H. rewrite H. unfold or0.
  destruct (JsMap.get e _); simpl; lia.
Qed.

Lemma processTrip_balanced mm trip c c' mem mk n :
  wfCaches c -> monthOk mm -> tripOk trip ->
  processTrip mm trip c = Some c' ->
  balancedAt c mem mk n ->
  balancedAt c' mem mk (n + (if applies trip mm mem mk then 1 else 0)).
Proof.
  intros Hwf Hmm Hok E (agg & rts & Ha & Hr & S1 & S2 & S3).
  destruct (processTrip_spec mm trip c Hwf Hmm) as (c2 & E2 & _ & Hcell).
  rewrite E in E2. injection E2 as <-.
  destruct (Hcell mem mk) as [H1 H2]. rewrite Ha in H1. rewrite Hr in H2.
  destruct (applies trip mm mem mk); simpl in *.
  - exists (tripStations trip agg), (tripRoute trip rts).
    destruct (sums_tripStations trip agg Hok) as [T1 T2].
    unfold tripRoute. rewrite sumRoutes_bumpRoute.
    repeat split; [done|done|lia..].
  - exists agg, rts. repeat split; [done|done|lia..].
Qed.

Lemma processMonth_balanced mo c :
  wfCaches c -> cleanMonth mo ->
  exists c',
    processMonth mo c = Some c' /\ wfCaches c' /\
    forall mem mk n,
      balancedAt c mem mk n ->
      balancedAt c' mem mk
        (n + tripContributions (MonthObj.mm mo) mem mk (MonthObj.trips mo)).
Proof.
  intros Hwf [Hmm Hts]. unfold processMonth, tripContributions.
  revert c Hwf. induction Hts as [|t ts Ht Hts IH]; intros c Hwf; simpl.
  - exists c. split; [done|]. split; [done|].
    intros mem mk n Hb. by replace (n + 0) with n by lia.
  - destruct (processTrip_spec (MonthObj.mm mo) t c Hwf Hmm) as (c1 & E1 & W1 & _).
    rewrite E1. simpl.
    destruct (IH c1 W1) as (c2 & E2 & W2 & H2).
    exists c2. split; [done|]. split; [done|].
    intros mem mk n Hb.
    pose proof (processTrip_balanced _ _ _ _ mem mk n Hwf Hmm Ht E1 Hb) as Hb1.
    apply H2 in Hb1.
    by rewrite Z.add_assoc.
Qed.

Lemma for_each_months_balanced allData c :
  wfCaches c -> cleanData allData ->
  exists c',
    for_each processMonth allData c = Some c' /\ wfCaches c' /\
    forall mem mk n,
      balancedAt c mem mk n ->
      balancedAt c' mem mk (n + contributions allData mem mk).
Proof.
  intros Hwf Hclean. unfold contributions.
  revert c Hwf. induction Hclean as [|mo mos Hmo Hmos IH]; intros c Hwf; simpl.
  - exists c. split; [done|]. split; [done|].
    intros mem mk n Hb. by replace (n + 0) with n by lia.
  - destruct (processMonth_balanced mo c Hwf Hmo) as (c1 & E1 & W1 & H1).
    rewrite E1. simpl.
    destruct (IH c1 W1) as (c2 & E2 & W2 & H2).
    exists c2. split; [done|]. split; [done|].
    intros mem mk n Hb. apply H1, H2 in Hb. by rewrite Z.add_assoc.
Qed.

Lemma initCaches_balanced mem mk :
  mem ∈ members -> mk ∈ months -> balancedAt initCaches mem mk 0.
Proof.
  intros Hm Hk. unfold members, months in *.
  repeat (apply elem_of_cons in Hm as [->|Hm]);
    try (by apply elem_of_nil in Hm);
    repeat (apply elem_of_cons in Hk as [->|Hk]);
    try (by apply elem_of_nil in Hk);
    (exists JsMap.empty, ∅; repeat split; reflexivity).
Qed.

(** C10.  Cache balance.  For validated input (month keys ['01'] .. ['12'],
    non-empty station names) [buildCaches] completes, and in every
    (member, month) cell the sum of [start] over all stations, the sum of
    [end] over all stations and the sum of all route counts are equal, each
    being the number of trips fanned out into that cell. *)
Theorem C10_cache_balance (allData : list MonthObj.t) :
  cleanData allData ->
  exists c,
    buildCaches allData = Some c /\
    forall mem mk,
      mem ∈ members -> mk ∈ months ->
      exists agg rts,
        cell (c_stationAgg c) mem mk = Some agg /\
        cell (c_endRoutes c) mem mk = Some rts /\
        sumStart agg = contributions allData mem mk /\
        sumEnd agg = contributions allData mem mk /\
        sumRoutes rts = contributions allData mem mk.
Proof.
  intros Hclean. unfold buildCaches.
  destruct (for_each_months_balanced allData initCaches initCaches_wf Hclean)
    as (c & E & _ & H).
  exists c. split; [done|].
  intros mem mk Hm Hk.
  apply (H mem mk 0), initCaches_balanced; done.
Qed.

Lemma C10_cache_balance_witness :
  cleanData dataEx /\
  exists c,
    buildCaches dataEx = Some c /\
    exists agg rts,
      cell (c_stationAgg c) "All" "All" = Some agg /\
      cell (c_endRoutes c) "All" "All" = Some rts /\
      sumStart agg = 6 /\ sumEnd agg = 6 /\ sumRoutes rts = 6.
Proof.
  assert (cleanData dataEx) as Hclean.
  { constructor; [|constructor]. split.
    - split; [unfold months; in_list|done].
    - repeat (constructor; [by split|]). constructor. }
  split; [done|].
  destruct (C10_cache_balance dataEx Hclean) as (c & E & H).
  exists c. split; [done|].
  assert ("All" ∈ members) as Hm by (unfold members; in_list).
  assert ("All" ∈ months) as Hk by (unfold months; in_list).
  destruct (H "All" "All" Hm Hk) as (agg & rts & Ha & Hr & S1 & S2 & S3).
  assert (contributions dataEx "All" "All" = 6) as EC by (vm_compute; reflexivity).
  rewrite EC in S1, S2, S3.
  exists agg, rts.
  split; [exact Ha|].
  split; [exact Hr|].
  split; [exact S1|]. split; [exact S2|exact S3].
Defined.

(** ** Station cells have one record per name *)

Lemma get_None_keys {V} k (m : JsMap.t V) : JsMap.get k m = None -> k ∉ JsMap.keys m.
Proof.
  unfold JsMap.keys. induction m as [|[k' v] m IH]; simpl; [intros _; apply not_elem_of_nil|].
  destruct (String.eqb_spec k k'); [done|]. intros H.
  apply not_elem_of_cons. auto.
Qed.

Lemma get_Some_In {V} k (v : V) (m : JsMap.t V) : JsMap.get k m = Some v -> (k, v) ∈ m.
Proof.
  induction m as [|[k' v'] m IH]; simpl; [done|].
  destruct (String.eqb_spec k k') as [->|].
  - intros [= ->]. apply list_elem_of_here.
  - intros H. apply list_elem_of_further. auto.
Qed.

Lemma set_fresh {V} k (v : V) (m : JsMap.t V) :
  JsMap.get k m = None -> JsMap.set k v m = (m ++ [(k, v)])%list.
Proof.
  induction m as [|[k' v'] m IH]; simpl; [done|].
  destruct (String.eqb_spec k k'); [done|]. intros H. by rewrite IH.
Qed.

Lemma set_existing {V} k (v v0 : V) (m : JsMap.t V) :
  JsMap.get k m = Some v0 ->
  JsMap.keys (JsMap.set k v m) = JsMap.keys m /\
  forall P : string * V -> Prop, P (k, v) -> Forall P m -> Forall P (JsMap.set k v m).
Proof.
  unfold JsMap.keys. induction m as [|[k' v'] m IH]; simpl; [done|].
  destruct (String.eqb_spec k k') as [->|Hne].
  - intros _. split; [done|]. intros P HP HF. inversion HF; subst. by constructor.
  - intros H. destruct (IH H) as [IH1 IH2]. split; [simpl; by rewrite IH1|].
    intros P HP HF. inversion HF; subst. constructor; auto.
Qed.

Lemma cellOk_set k r m :
  Rec.name r = k -> cellOk m -> cellOk (JsMap.set k r m).
Proof.
  intros Hr [Hnd Hall]. destruct (JsMap.get k m) as [r0|] eqn:E.
  - destruct (set_existing k r r0 m E) as [Hk HP]. split; [by rewrite Hk|].
    by apply HP.
  - rewrite (set_fresh k r m E). split.
    + unfold JsMap.keys in *. rewrite map_app. simpl.
      apply NoDup_app. split; [done|]. split.
      * intros x Hx Hx'. apply list_elem_of_singleton in Hx' as ->.
        by apply (get_None_keys k m E).
      * apply NoDup_singleton.
    + apply Forall_app. split; [done|]. by constructor.
Qed.

Lemma cellOk_updateStation m n ty : cellOk m -> cellOk (updateStation m n ty).
Proof.
  intros Hok. unfold updateStation.
  destruct (String.eqb n ""); [done|].
  apply cellOk_set; [|done].
  assert (Rec.name (match JsMap.get n m with
                    | Some r => r
                    | None => Rec.mk n 0 0
                    end) = n) as Hn.
  { destruct (JsMap.get n m) as [r|] eqn:E; [|done].
    destruct Hok as [_ Hall]. rewrite Forall_forall in Hall.
    apply (Hall (n, r)). by apply get_Some_In. }
  destruct (String.eqb ty "start"); [done|].
  by destruct (String.eqb ty "end").
Qed.

Lemma cellOk_tripStations trip m : cellOk m -> cellOk (tripStations trip m).
Proof. intros H. unfold tripStations. by do 2 apply cellOk_updateStation. Qed.

Lemma processTrip_cellOk mm trip c c' :
  wfCaches c -> monthOk mm -> processTrip mm trip c = Some c' ->
  allCellsOk c -> allCellsOk c'.
Proof.
  intros Hwf Hmm E Hok mem mk agg Hagg.
  destruct (processTrip_spec mm trip c Hwf Hmm) as (c2 & E2 & _ & Hcell).
  rewrite E in E2. injection E2 as <-.
  destruct (Hcell mem mk) as [H1 _]. rewrite Hagg in H1.
  destruct (applies trip mm mem mk).
  - destruct (cell (c_stationAgg c) mem mk) as [a0|] eqn:E0; [|done].
    simpl in H1. injection H1 as ->. apply cellOk_tripStations. by eapply Hok.
  - symmetry in H1. by eapply Hok.
Qed.

Lemma processMonth_cellOk mo c c' :
  wfCaches c -> monthOk (MonthObj.mm mo) -> processMonth mo c = Some c' ->
  allCellsOk c -> wfCaches c' /\ allCellsOk c'.
Proof.
  intros Hwf Hmm. unfold processMonth. revert c Hwf.
  induction (MonthObj.trips mo) as [|t ts IH]; intros c Hwf E Hok; simpl in E.
  - by injection E as <-.
  - destruct (processTrip_spec (MonthObj.mm mo) t c Hwf Hmm) as (c1 & E1 & W1 & _).
    rewrite E1 in E. simpl in E.
    apply (IH c1 W1 E). exact (processTrip_cellOk _ _ _ _ Hwf Hmm E1 Hok).
Qed.

Lemma buildCaches_cellOk allData c :
  cleanData allData -> buildCaches allData = Some c -> allCellsOk c.
Proof.
  unfold buildCaches. intros Hclean.
  assert (allCellsOk initCaches) as Hinit.
  { intros mem mk agg H.
    assert (agg = JsMap.empty) as ->; [|split; [constructor|constructor]].
    unfold initCaches, cell in H. simpl in H.
    destruct (init_table (X:=JsMap.t Rec.t) JsMap.empty !! mem) as [row|] eqn:Er;
      [simpl in H|done].
    unfold init_table in Er. simpl in Er.
    repeat (apply lookup_insert_Some in Er as [[_ <-]|[_ Er]];
            [simpl in H;
             repeat (apply lookup_insert_Some in H as [[_ H]|[_ H]]; [done|]);
             by rewrite lookup_empty in H|]).
    by rewrite lookup_empty in Er. }
  pose proof initCaches_wf as Hwf. revert Hinit Hwf. generalize initCaches.
  induction Hclean as [|mo mos [Hmm _] Hmos IH]; intros c0 Hok Hwf E; simpl in E.
  - by injection E as <-.
  - destruct (processMonth mo c0) as [c1|] eqn:E1; [simpl in E|done].
    destruct (processMonth_cellOk mo c0 c1 Hwf Hmm E1 Hok) as [W1 O1].
    by apply (IH c1 O1 W1).
Qed.

(** ** The stable sort *)

Section SortFacts.
Context {A : Type} (cmp : A -> A -> Z) (rank : A -> Z).
Hypothesis cmp_rank : forall a b, cmp a b <= 0 <-> rank a <= rank b.

Lemma sort_insert_perm x l : sort_insert cmp x l ≡ₚ x :: l.
Proof.
  induction l as [|y l IH]; simpl; [done|].
  destruct (cmp x y <=? 0); [done|].
  rewrite IH. apply Permutation_swap.
Qed.

Lemma js_sort_perm l : js_sort cmp l ≡ₚ l.
Proof.
  induction l as [|x l IH]; simpl; [done|].
  by rewrite sort_insert_perm, IH.
Qed.

Lemma js_sort_length l : length (js_sort cmp l) = length l.
Proof. apply Permutation_length, js_sort_perm. Qed.

Lemma sort_insert_sorted x l :
  StronglySorted (fun a b => rank a <= rank b) l ->
  StronglySorted (fun a b => rank a <= rank b) (sort_insert cmp x l).
Proof.
  induction 1 as [|y l Hs IH Hy]; simpl.
  - repeat constructor.
  - destruct (Z.leb_spec (cmp x y) 0) as [Hle|Hgt].
    + apply cmp_rank in Hle.
      constructor; [by constructor|].
      constructor; [done|].
      eapply Forall_impl; [exact Hy|]. simpl. intros; lia.
    + assert (rank y <= rank x) as Hyx.
      { destruct (Z.le_gt_cases (rank x) (rank y)) as [H|H]; [|lia].
        apply cmp_rank in H. lia. }
      constructor; [done|].
      rewrite sort_insert_perm. by constructor.
Qed.

Lemma js_sort_sorted l :
  StronglySorted (fun a b => rank a <= rank b) (js_sort cmp l).
Proof.
  induction l as [|x l IH]; simpl; [constructor|].
  by apply sort_insert_sorted.
Qed.

(** Stability: entries of one rank keep their relative order. *)
Lemma sort_insert_stable x l w :
  filter (fun a => rank a = w) (sort_insert cmp x l)
  = filter (fun a => rank a = w) (x :: l).
Proof.
  induction l as [|y l IH]; simpl; [done|].
  destruct (Z.leb_spec (cmp x y) 0) as [Hle|Hgt]; [done|].
  assert (rank x <> rank y) as Hne.
  { intros E. assert (cmp x y <= 0) by (apply cmp_rank; lia). lia. }
  rewrite filter_cons, IH, !filter_cons.
  destruct (decide (rank y = w)), (decide (rank x = w)); congruence.
Qed.

Lemma js_sort_stable l w :
  filter (fun a => rank a = w) (js_sort cmp l) = filter (fun a => rank a = w) l.
Proof.
  induction l as [|x l IH]; simpl; [done|].
  by rewrite sort_insert_stable, !filter_cons, IH.
Qed.

(** Sorting a sorted array changes nothing. *)
Lemma js_sort_sorted_id l :
  StronglySorted (fun a b => rank a <= rank b) l -> js_sort cmp l = l.
Proof.
  induction 1 as [|x l Hs IH Hx]; simpl; [done|].
  rewrite IH. destruct Hx as [|y l Hxy _]; simpl; [done|].
  destruct (Z.leb_spec (cmp x y) 0) as [|Hgt]; [done|].
  apply cmp_rank in Hxy. lia.
Qed.
End SortFacts.

Lemma filter_take_prefix {A} (P : A -> Prop) `{forall x, Decision (P x)} n (l : list A) :
  filter P (take n l) `prefix_of` filter P l.
Proof.
  exists (filter P (drop n l)).
  by rewrite <- filter_app, take_drop.
Qed.

Lemma byTotalDesc_rank a b :
  byTotalDesc a b <= 0 <-> - Node.total a <= - Node.total b.
Proof. unfold byTotalDesc. lia. Qed.

Lemma StronglySorted_take {A} (R : A -> A -> Prop) n l :
  StronglySorted R l -> StronglySorted R (take n l).
Proof.
  intros Hs. rewrite <- (take_drop n l) in Hs.
  by apply StronglySorted_app_1_l in Hs.
Qed.

Lemma StronglySorted_weaken {A} (R1 R2 : A -> A -> Prop) l :
  (forall a b, R1 a b -> R2 a b) -> StronglySorted R1 l -> StronglySorted R2 l.
Proof.
  intros HR. induction 1 as [|x l Hs IH Hx]; constructor; [done|].
  eapply Forall_impl; [exact Hx|]. simpl. auto.
Qed.

(** A stable descending sort, cut to its first [n] entries. *)
Lemma take_sort_desc {A} (weight : A -> Z) (cmp : A -> A -> Z) n (l : list A) :
  (forall a b, cmp a b <= 0 <-> - weight a <= - weight b) ->
  let kept := take n (js_sort cmp l) in
  length kept = Nat.min n (length l) /\
  (exists rest,
     kept ++ rest ≡ₚ l /\
     forall a r, a ∈ kept -> r ∈ rest -> weight r <= weight a) /\
  descendingBy weight kept /\
  tiesInOrderOf weight l kept.
Proof.
  intros Hcmp kept. subst kept.
  pose proof (js_sort_sorted cmp (fun a => - weight a) Hcmp l) as Hsorted.
  split; [by rewrite length_take, (js_sort_length cmp)|].
  split; [|split].
  - exists (drop n (js_sort cmp l)). split.
    + by rewrite take_drop, js_sort_perm.
    + intros a r Ha Hr.
      rewrite <- (take_drop n (js_sort cmp l)) in Hsorted.
      pose proof (StronglySorted_app_1_elem_of _ _ _ _ _ Hsorted Ha Hr) as H.
      simpl in H. lia.
  - unfold descendingBy. apply StronglySorted_take.
    eapply StronglySorted_weaken; [|exact Hsorted]. simpl. intros; lia.
  - intros w.
    rewrite (list_filter_iff (fun a => weight a = w) (fun a => - weight a = - w) l)
      by (intros; lia).
    rewrite (list_filter_iff (fun a => weight a = w) (fun a => - weight a = - w)
               (take n (js_sort cmp l))) by (intros; lia).
    rewrite <- (js_sort_stable cmp (fun a => - weight a) Hcmp l (- w)).
    apply filter_take_prefix.
Qed.

(** ** C5: node selection *)

(** C5 (as amended).  Node selection reads the station records of the
    current (member, month) cell, sorts them by descending
    [total = start + end] with the stable [Array.prototype.sort], and keeps
    the first 60 (all of them when there are fewer): the kept nodes are in
    descending order of total, every dropped station has a total no larger
    than any kept one, and stations of equal total stay in the order the
    cell's Map holds them (insertion order), not in name order. *)
Theorem C5_node_selection (st : State) :
  let all := map toNode (JsMap.values (aggMap st)) in
  length (nodes st) = Nat.min MAX_NODES (length all) /\
  (exists rest,
     nodes st ++ rest ≡ₚ all /\
     forall n r, n ∈ nodes st -> r ∈ rest -> Node.total r <= Node.total n) /\
  descendingBy Node.total (nodes st) /\
  tiesInOrderOf Node.total all (nodes st).
Proof.
  intros all. unfold nodes.
  apply (take_sort_desc Node.total byTotalDesc MAX_NODES all).
  intros a b. unfold byTotalDesc. lia.
Qed.

(** The name tie-break of C5 as written fails: after the single trip
    B -> A both stations have total 1 and B, met first, precedes A. *)
Lemma C5_counterexample :
  ~ tiesByName Node.total Node.name (nodes stateBA).
Proof.
  intros H.
  specialize (H 1%nat 0%nat
                (Node.mk "A" "A" 0 1 1) (Node.mk "B" "B" 1 0 1)
                eq_refl eq_refl eq_refl eq_refl).
  lia.
Qed.

(** ** C3: detail mode *)

Lemma js_sort_Forall {A} (cmp : A -> A -> Z) (P : A -> Prop) l :
  Forall P l -> Forall P (js_sort cmp l).
Proof. intros H. by rewrite js_sort_perm. Qed.

Lemma filter_Forall_id {A} (P : A -> Prop) `{forall x, Decision (P x)} (l : list A) :
  Forall P l -> filter P l = l.
Proof.
  induction 1 as [|x l Hx Hl IH]; [done|].
  by rewrite filter_cons_True, IH.
Qed.

Lemma Forall_filter_self {A} (P : A -> Prop) `{forall x, Decision (P x)} (l : list A) :
  Forall P (filter P l).
Proof. apply Forall_forall. intros x Hx. by apply list_elem_of_filter in Hx as [? _]. Qed.

Lemma filter_Forall_not {A} (P : A -> Prop) `{forall x, Decision (P x)} (l : list A) :
  Forall (fun x => ~ P x) l -> filter P l = [].
Proof.
  induction 1 as [|x l Hx Hl IH]; [done|].
  by rewrite filter_cons_False, IH.
Qed.

(** In detail mode the link list is the selected station's links, whatever
    the threshold, and hiding low-activity nodes is off. *)
Lemma detail_links st :
  detailMode st = true ->
  links st = filter (fromSelected st) (linksRaw st) /\
  linksView st = links st /\
  nodesVis st = nodes st.
Proof.
  intros Hd. unfold linksView, nodesVis.
  assert (isDetail st = true) as ->
    by (unfold detailMode in Hd; by apply andb_true_iff in Hd as [? _]).
  simpl. unfold links. by rewrite Hd.
Qed.

Lemma top_detail st :
  detailMode st = true ->
  top st = take 5 (js_sort byValueDesc (filter (fromSelected st) (linksRaw st))).
Proof.
  intros Hd. unfold top, selectedLinks. rewrite Hd.
  destruct (detail_links st Hd) as (-> & _ & _).
  rewrite (filter_Forall_id _ (filter _ _)) by apply Forall_filter_self.
  rewrite (filter_Forall_id _ (js_sort _ _)); [done|].
  apply js_sort_Forall, Forall_filter_self.
Qed.


(** Detail mode draws every candidate link of the selected station; only
    the highlighted selection is capped at five. *)
Example detail_draws_all_links :
  length (linksView stateHub6) = 6%nat /\ length (top stateHub6) = 5%nat.
Proof. split; vm_compute; reflexivity. Qed.

(** ** The detail selection in terms of the route Map *)

Lemma StronglySorted_filter {A} (R : A -> A -> Prop) (P : A -> Prop)
    `{forall x, Decision (P x)} (l : list A) :
  StronglySorted R l -> StronglySorted R (filter P l).
Proof.
  induction 1 as [|x l Hs IH Hx]; [constructor|].
  rewrite filter_cons. destruct (decide (P x)); [|done].
  constructor; [done|].
  apply Forall_forall. intros y Hy. apply list_elem_of_filter in Hy as [_ Hy].
  rewrite Forall_forall in Hx. auto.
Qed.

Lemma names_of_cell m :
  cellOk m -> map Node.name (map toNode (JsMap.values m)) = JsMap.keys m.
Proof.
  intros [_ Hall]. unfold JsMap.values, JsMap.keys.
  induction Hall as [|[k r] m Hr Hall IH]; simpl; [done|].
  simpl in Hr. by rewrite Hr, IH.
Qed.

Lemma nodes_names_NoDup st :
  cellOk (aggMap st) -> NoDup (map Node.name (nodes st)).
Proof.
  intros Hok. unfold nodes.
  pose proof (js_sort_perm byTotalDesc (map toNode (JsMap.values (aggMap st)))) as Hp.
  apply (Permutation_map Node.name) in Hp.
  rewrite names_of_cell in Hp by done.
  assert (NoDup (map Node.name
                   (js_sort byTotalDesc (map toNode (JsMap.values (aggMap st))))))
    as Hnd by (rewrite Hp; apply Hok).
  rewrite <- (take_drop MAX_NODES (js_sort _ _)), map_app in Hnd.
  by apply NoDup_app in Hnd as [? _].
Qed.

Lemma linksOf_source st src :
  Forall (fun l => Link.source l = Node.name src) (linksOf st src).
Proof.
  unfold linksOf. destruct (routes st !! Node.name src); [|constructor].
  apply Forall_fmap, Forall_forall. done.
Qed.

Lemma filter_links_of_selected st s (ns : list Node.t) :
  selectedStation st = Some s -> NoDup (map Node.name ns) ->
  (s ∉ map Node.name ns -> filter (fromSelected st) (flat_map (linksOf st) ns) = []) /\
  (forall n, n ∈ ns -> Node.name n = s ->
             filter (fromSelected st) (flat_map (linksOf st) ns) = linksOf st n).
Proof.
  intros Hsel. induction ns as [|n0 ns IH]; intros Hnd.
  - split; [done|]. intros n Hn. by apply elem_of_nil in Hn.
  - simpl in Hnd. apply NoDup_cons in Hnd as [Hn0 Hnd].
    destruct (IH Hnd) as [IH1 IH2]. simpl. rewrite filter_app.
    assert (Node.name n0 <> s ->
            filter (fromSelected st) (linksOf st n0) = []) as Hother.
    { intros Hne. apply filter_Forall_not.
      eapply Forall_impl; [apply linksOf_source|].
      intros l Hl. unfold fromSelected. rewrite Hsel, Hl. congruence. }
    assert (Node.name n0 = s ->
            filter (fromSelected st) (linksOf st n0) = linksOf st n0) as Hsame.
    { intros He. apply filter_Forall_id.
      eapply Forall_impl; [apply linksOf_source|].
      intros l Hl. unfold fromSelected. by rewrite Hsel, Hl, He. }
    split.
    + intros Hnin. simpl in Hnin. apply not_elem_of_cons in Hnin as [Hne Hnin].
      rewrite Hother by done. by rewrite IH1.
    + intros n Hn Hname. apply elem_of_cons in Hn as [->|Hn].
      * rewrite Hsame by done. rewrite IH1; [by rewrite app_nil_r|].
        by rewrite <- Hname.
      * rewrite Hother; [by apply IH2|].
        intros He. apply Hn0. rewrite He, <- Hname.
        apply list_elem_of_fmap. eauto.
Qed.

(** For caches built by [buildCaches]: in detail mode, when the selected
    station [s] is among the kept nodes, [top] is the first five entries of
    [s]'s route Map, ranked by the stable descending sort on the count and
    restricted to kept destinations.  Destinations of equal count are thus
    ranked in the Map's insertion order. *)
Lemma top_from_route_map allData c st s n m :
  cleanData allData -> buildCaches allData = Some c ->
  stationAgg st = Some (c_stationAgg c) ->
  isDetail st = true -> selectedStation st = Some s -> s <> "" ->
  n ∈ nodes st -> Node.name n = s -> routes st !! s = Some m ->
  top st
  = take 5 ((fun tc => Link.mk s tc.1 tc.2)
              <$> filter (fun tc => tc.1 ∈ included st)
                         (js_sort byCountDesc (JsMap.entries m))).
Proof.
  intros Hclean Hbuild Hsa Hd Hsel Hs Hn Hname Hm.
  assert (detailMode st = true) as Hmode.
  { unfold detailMode. rewrite Hd, Hsel. simpl. by destruct (String.eqb_spec s ""). }
  assert (cellOk (aggMap st)) as Hok.
  { unfold aggMap. rewrite Hsa. simpl.
    destruct (cell (c_stationAgg c) (memberKey st) (monthKey st)) as [agg|] eqn:E.
    - simpl. by eapply (buildCaches_cellOk allData c).
    - split; constructor. }
  rewrite top_detail by done. unfold linksRaw.
  destruct (filter_links_of_selected st s (nodes st) Hsel (nodes_names_NoDup st Hok))
    as [_ ->%(fun H => H n Hn Hname)].
  assert (linksOf st n
          = (fun tc => Link.mk s tc.1 tc.2)
              <$> filter (fun tc => tc.1 ∈ included st)
                         (js_sort byCountDesc (JsMap.entries m))) as ->.
  { unfold linksOf. rewrite Hname, Hm, Hd, Hsel.
    by rewrite bool_decide_eq_true_2. }
  f_equal.
  apply (js_sort_sorted_id byValueDesc (fun l => - Link.value l)).
  { intros a b. unfold byValueDesc. lia. }
  apply (StronglySorted_fmap _ (fun a b : string * Z => - a.2 <= - b.2)); [done|].
  apply StronglySorted_filter.
  apply (js_sort_sorted byCountDesc (fun tc => - tc.2)).
  intros a b. unfold byCountDesc. lia.
Qed.





(** ** Rounding to the nearest double *)

Section Rounding.
Local Open Scope Q_scope.

Lemma pow2_pos (k : Z) : 0 < 2 ^ k.
Proof. apply Qpower_0_lt. reflexivity. Qed.

Lemma pow2_Z (k : Z) : (0 <= k)%Z -> inject_Z (2 ^ k) == 2 ^ k.
Proof. intros H. apply (Zpower_Qpower 2 k H). Qed.

Lemma pow2_le (a b : Z) : (a <= b)%Z -> 2 ^ a <= 2 ^ b.
Proof. intros H. apply Qpower_le_compat_l; [exact H|]. discriminate. Qed.

Lemma pow2_lt_inv (a b : Z) : 2 ^ a < 2 ^ b -> (a < b)%Z.
Proof. intros H. apply (Qpower_lt_compat_l_inv 2); [exact H|reflexivity]. Qed.

Lemma pow2_split (a b : Z) : 2 ^ (a + b) == 2 ^ a * 2 ^ b.
Proof. apply Qpower_plus. discriminate. Qed.

Lemma pow2_succ (a : Z) : 2 ^ (a + 1) == 2 * 2 ^ a.
Proof. rewrite pow2_split. change (2 ^ 1) with 2. ring. Qed.

(** [ilog2] is the binary exponent. *)
Lemma ilog2_spec (x : Q) : 0 < x -> 2 ^ ilog2 x <= x /\ x < 2 ^ (ilog2 x + 1).
Proof.
  intros Hx. unfold ilog2.
  destruct x as [a b]. simpl Qnum. simpl Qden.
  assert (0 < a)%Z as Ha by (unfold Qlt in Hx; simpl in Hx; lia).
  destruct (Z.log2_spec a Ha) as [A1 A2].
  destruct (Z.log2_spec (Z.pos b) ltac:(lia)) as [B1 B2].
  pose proof (Z.log2_nonneg a) as La. pose proof (Z.log2_nonneg (Z.pos b)) as Lb.
  set (la := Z.log2 a) in *. set (lb := Z.log2 (Z.pos b)) in *.
  assert (a # b == inject_Z a / inject_Z (Z.pos b)) as Ex by apply Qmake_Qdiv.
  set (A := inject_Z a) in *. set (B := inject_Z (Z.pos b)) in *.
  assert (2 ^ la <= A /\ A < 2 * 2 ^ la) as [QA1 QA2].
  { rewrite <- pow2_succ, <- !pow2_Z by lia. unfold A.
    rewrite <- Zle_Qle, <- Zlt_Qlt. replace (la + 1)%Z with (Z.succ la) by lia. done. }
  assert (2 ^ lb <= B /\ B < 2 * 2 ^ lb) as [QB1 QB2].
  { rewrite <- pow2_succ, <- !pow2_Z by lia. unfold B.
    rewrite <- Zle_Qle, <- Zlt_Qlt. replace (lb + 1)%Z with (Z.succ lb) by lia. done. }
  pose proof (pow2_pos la) as PA. pose proof (pow2_pos lb) as PB.
  assert (0 < B) as HB by Lqa.lra.
  assert ((a # b) * B == A) as Hx'.
  { rewrite Ex. field. Lqa.lra. }
  set (x := a # b) in *.
  assert (2 ^ (la - lb) * 2 ^ lb == 2 ^ la) as Ed.
  { rewrite <- pow2_split. by replace (la - lb + lb)%Z with la by lia. }
  set (D := 2 ^ (la - lb)) in *.
  pose proof (pow2_pos (la - lb)) as PD. fold D in PD.
  destruct (Qle_bool D x) eqn:E.
  - apply Qle_bool_iff in E. split; [exact E|].
    rewrite pow2_succ. fold D.
    apply (Qmult_lt_r _ _ B HB). rewrite Hx'.
    assert (D * 2 ^ lb <= D * B) by (apply Qmult_le_l; Lqa.lra).
    Lqa.lra.
  - assert (x < D) as Hlt.
    { apply Qnot_le_lt. intros H. apply Qle_bool_iff in H. congruence. }
    replace (la - lb - 1 + 1)%Z with (la - lb)%Z by lia. split; [|exact Hlt].
    assert (2 * 2 ^ (la - lb - 1) == D) as E1.
    { rewrite <- pow2_succ. unfold D. by replace (la - lb - 1 + 1)%Z with (la - lb)%Z by lia. }
    set (H' := 2 ^ (la - lb - 1)) in *.
    apply (Qmult_le_r _ _ B HB). rewrite Hx'.
    assert (H' * B <= H' * (2 * 2 ^ lb)).
    { apply Qmult_le_l; [|Lqa.lra]. Lqa.lra. }
    Lqa.nra.
Qed.

Lemma ilog2_mono (x y : Q) : 0 < x -> x <= y -> (ilog2 x <= ilog2 y)%Z.
Proof.
  intros Hx Hxy.
  destruct (ilog2_spec x Hx) as [X1 _].
  destruct (ilog2_spec y ltac:(Lqa.lra)) as [_ Y2].
  assert (2 ^ ilog2 x < 2 ^ (ilog2 y + 1)) as H by Lqa.lra.
  apply pow2_lt_inv in H. lia.
Qed.

Lemma rne_floor (y : Q) : (Qfloor y <= rne y <= Qfloor y + 1)%Z.
Proof.
  unfold rne. destruct (Qcompare _ _); [destruct (Z.even _)|..]; lia.
Qed.

Lemma rne_ge_int (y : Q) (n : Z) : inject_Z n <= y -> (n <= rne y)%Z.
Proof.
  intros H. apply Qfloor_resp_le in H. rewrite Qfloor_Z in H.
  pose proof (rne_floor y). lia.
Qed.

Lemma rne_le_int (y : Q) (n : Z) : y <= inject_Z n -> (rne y <= n)%Z.
Proof.
  intros H. pose proof (Qfloor_resp_le _ _ H) as Hf. rewrite Qfloor_Z in Hf.
  destruct (Z.eq_dec (Qfloor y) n) as [E|E].
  - unfold rne. rewrite E.
    assert (y - inject_Z n < 1 # 2) as Hlt.
    { pose proof (Qfloor_le y) as H1. rewrite E in H1. Lqa.lra. }
    destruct (Qcompare (y - inject_Z n) (1 # 2)) eqn:C; [| done |];
      exfalso; first [apply Qeq_alt in C|apply Qgt_alt in C]; Lqa.lra.
  - pose proof (rne_floor y). lia.
Qed.

Lemma rne_mono (y y' : Q) : y <= y' -> (rne y <= rne y')%Z.
Proof.
  intros H. pose proof (Qfloor_resp_le _ _ H) as Hf.
  destruct (Z.eq_dec (Qfloor y) (Qfloor y')) as [E|E].
  - unfold rne. rewrite <- E.
    destruct (Qcompare (y - inject_Z (Qfloor y)) (1 # 2)) eqn:C1;
      destruct (Qcompare (y' - inject_Z (Qfloor y)) (1 # 2)) eqn:C2;
      try (destruct (Z.even (Qfloor y))); try lia; exfalso;
      first [apply Qeq_alt in C1|apply Qlt_alt in C1|apply Qgt_alt in C1];
      first [apply Qeq_alt in C2|apply Qlt_alt in C2|apply Qgt_alt in C2];
      Lqa.lra.
  - pose proof (rne_floor y). pose proof (rne_floor y'). lia.
Qed.

Lemma ulpExp_small (x : Q) : 0 < x -> x < 2 ^ 53 -> (ulpExp x <= 0)%Z.
Proof.
  intros Hx Hlt. destruct (ilog2_spec x Hx) as [X1 _].
  assert (2 ^ ilog2 x < 2 ^ 53) as H by Lqa.lra.
  apply pow2_lt_inv in H. unfold ulpExp. lia.
Qed.

Lemma scaled_le_pow (x : Q) (k j : Z) :
  (k <= j)%Z -> x <= 2 ^ j -> x / 2 ^ k <= inject_Z (2 ^ (j - k)).
Proof.
  intros Hk Hx. rewrite pow2_Z by lia. pose proof (pow2_pos k) as Pk.
  apply Qle_shift_div_r; [exact Pk|].
  rewrite <- pow2_split. by replace (j - k + k)%Z with j by lia.
Qed.

Lemma pow_le_scaled (x : Q) (k j : Z) :
  (k <= j)%Z -> 2 ^ j <= x -> inject_Z (2 ^ (j - k)) <= x / 2 ^ k.
Proof.
  intros Hk Hx. rewrite pow2_Z by lia. pose proof (pow2_pos k) as Pk.
  apply Qle_shift_div_l; [exact Pk|].
  rewrite <- pow2_split. by replace (j - k + k)%Z with j by lia.
Qed.

Lemma flpos_exact (x : Q) : 2 ^ 53 <= x -> flpos x = x.
Proof. intros H. unfold flpos. apply Qle_bool_iff in H. by rewrite H. Qed.

Lemma flpos_round (x : Q) :
  x < 2 ^ 53 -> flpos x = inject_Z (rne (x / 2 ^ ulpExp x)) * 2 ^ ulpExp x.
Proof.
  intros H. unfold flpos. destruct (Qle_bool (2 ^ 53) x) eqn:E; [|done].
  apply Qle_bool_iff in E. Lqa.lra.
Qed.

Lemma flpos_up (x : Q) (j : Z) :
  0 < x -> x <= 2 ^ j -> (ulpExp x <= j)%Z -> flpos x <= 2 ^ j.
Proof.
  intros Hx Hj Hk. destruct (Qlt_le_dec x (2 ^ 53)) as [Hs|Hb].
  - rewrite flpos_round by done. set (k := ulpExp x) in *.
    pose proof (rne_le_int _ _ (scaled_le_pow x k j Hk Hj)) as H.
    rewrite Zle_Qle, pow2_Z in H by lia.
    pose proof (pow2_pos k) as Pk.
    assert (2 ^ j == 2 ^ (j - k) * 2 ^ k) as ->.
    { rewrite <- pow2_split. by replace (j - k + k)%Z with j by lia. }
    apply Qmult_le_compat_r; [exact H|Lqa.lra].
  - by rewrite flpos_exact.
Qed.

Lemma flpos_lo (x : Q) (j : Z) :
  2 ^ j <= x -> (ulpExp x <= j)%Z -> 2 ^ j <= flpos x.
Proof.
  intros Hj Hk. destruct (Qlt_le_dec x (2 ^ 53)) as [Hs|Hb].
  - rewrite flpos_round by done. set (k := ulpExp x) in *.
    pose proof (rne_ge_int _ _ (pow_le_scaled x k j Hk Hj)) as H.
    rewrite Zle_Qle, pow2_Z in H by lia.
    pose proof (pow2_pos k) as Pk.
    assert (2 ^ j == 2 ^ (j - k) * 2 ^ k) as ->.
    { rewrite <- pow2_split. by replace (j - k + k)%Z with j by lia. }
    apply Qmult_le_compat_r; [exact H|Lqa.lra].
  - by rewrite flpos_exact.
Qed.

(** Rounding is monotone on the positive numbers: within one binade by
    [rne_mono], across binades through the power of two between them. *)
Lemma flpos_mono (x y : Q) : 0 < x -> x <= y -> flpos x <= flpos y.
Proof.
  intros Hx Hxy. assert (0 < y) as Hy by Lqa.lra.
  destruct (Qlt_le_dec y (2 ^ 53)) as [Hys|Hyb].
  2:{ rewrite (flpos_exact y Hyb).
      destruct (Qlt_le_dec x (2 ^ 53)) as [Hxs|Hxb]; [|by rewrite flpos_exact].
      eapply Qle_trans; [|exact Hyb]. apply flpos_up; [done|Lqa.lra|].
      pose proof (ulpExp_small x Hx Hxs). lia. }
  assert (x < 2 ^ 53) as Hxs by Lqa.lra.
  pose proof (ilog2_mono x y Hx Hxy) as He.
  destruct (ilog2_spec x Hx) as [X1 X2]. destruct (ilog2_spec y Hy) as [Y1 Y2].
  destruct (Z.eq_dec (ulpExp x) (ulpExp y)) as [Ek|Ek].
  - rewrite !flpos_round by done. rewrite <- Ek. set (k := ulpExp x).
    pose proof (pow2_pos k) as Pk.
    apply Qmult_le_compat_r; [|Lqa.lra].
    rewrite <- Zle_Qle. apply rne_mono.
    apply Qmult_le_compat_r; [exact Hxy|].
    apply Qlt_le_weak, Qinv_lt_0_compat, Pk.
  - assert (ulpExp x < ulpExp y /\ ulpExp y = ilog2 y - 52 /\ ilog2 x + 1 <= ilog2 y)%Z
      as (Hlt & Eky & Hex) by (unfold ulpExp in *; lia).
    eapply Qle_trans; [apply (flpos_up x (ilog2 y))|apply (flpos_lo y (ilog2 y))];
      try done; try lia.
    eapply Qle_trans; [apply Qlt_le_weak, X2|]. by apply pow2_le.
Qed.

Lemma flpos_nonneg (x : Q) : 0 < x -> 0 <= flpos x.
Proof.
  intros Hx. destruct (Qlt_le_dec x (2 ^ 53)) as [Hs|Hb].
  - rewrite flpos_round by done.
    pose proof (pow2_pos (ulpExp x)) as Pk.
    apply Qmult_le_0_compat; [|Lqa.lra].
    change 0 with (inject_Z 0). rewrite <- Zle_Qle.
    apply rne_ge_int. change (inject_Z 0) with 0.
    apply Qle_shift_div_l; [exact Pk|]. Lqa.lra.
  - rewrite flpos_exact by done. Lqa.lra.
Qed.

Lemma flpos_int (x : Q) (z : Z) :
  (0 < z)%Z -> x == inject_Z z -> flpos x == inject_Z z.
Proof.
  intros Hz Ex.
  assert (0 < x) as Hq.
  { rewrite Ex. change 0 with (inject_Z 0). by rewrite <- Zlt_Qlt. }
  destruct (Qlt_le_dec x (2 ^ 53)) as [Hs|Hb]; [|by rewrite flpos_exact].
  rewrite flpos_round by done.
  pose proof (ulpExp_small _ Hq Hs) as Hk. set (k := ulpExp x) in *.
  pose proof (pow2_pos k) as Pk.
  assert (x / 2 ^ k == inject_Z (z * 2 ^ (- k))) as Ey.
  { rewrite Ex, inject_Z_mult, pow2_Z by lia. rewrite Qpower_opp. field.
    intros H. rewrite H in Pk. Lqa.lra. }
  assert (rne (x / 2 ^ k) = (z * 2 ^ (- k))%Z) as ->.
  { apply Z.le_antisymm; [apply rne_le_int|apply rne_ge_int]; rewrite Ey; Lqa.lra. }
  rewrite inject_Z_mult, pow2_Z by lia. rewrite Qpower_opp. field.
  intros H. rewrite H in Pk. Lqa.lra.
Qed.

Lemma Qnum_sign (x : Q) :
  match Z.compare (Qnum x) 0 with
  | Eq => x == 0
  | Gt => 0 < x
  | Lt => x < 0
  end.
Proof.
  destruct x as [a b]. simpl. destruct (Z.compare_spec a 0) as [->|H|H].
  - reflexivity.
  - unfold Qlt. simpl. lia.
  - unfold Qlt. simpl. lia.
Qed.

(** [fl] respects the equality of rationals, and its results are equal as
    terms. *)
Lemma fl_comp (x y : Q) : x == y -> fl x = fl y.
Proof.
  intros H. unfold fl.
  pose proof (Qnum_sign x) as Sx. pose proof (Qnum_sign y) as Sy.
  assert (Qred x = Qred y) as E1 by (by apply Qred_complete).
  assert (Qred (- x) = Qred (- y)) as E2 by (apply Qred_complete; by rewrite H).
  destruct (Z.compare (Qnum x) 0), (Z.compare (Qnum y) 0);
    try done; try (by rewrite E1); try (by rewrite E2); exfalso; Lqa.lra.
Qed.

Lemma fl_0 : fl 0 = 0.
Proof. reflexivity. Qed.

Lemma fl_pos (x : Q) : 0 < x -> fl x == flpos (Qred x).
Proof.
  intros Hx. unfold fl. pose proof (Qnum_sign x) as S.
  destruct (Z.compare (Qnum x) 0); [Lqa.lra| |apply Qred_correct].
  Lqa.lra.
Qed.

Lemma fl_neg (x : Q) : x < 0 -> fl x == - flpos (Qred (- x)).
Proof.
  intros Hx. unfold fl. pose proof (Qnum_sign x) as S.
  destruct (Z.compare (Qnum x) 0); [Lqa.lra|apply Qred_correct|].
  Lqa.lra.
Qed.

Lemma fl_nonneg (x : Q) : 0 <= x -> 0 <= fl x.
Proof.
  intros Hx. destruct (Qlt_le_dec 0 x) as [H|H].
  - rewrite (fl_pos x H). apply flpos_nonneg. by rewrite Qred_correct.
  - rewrite (fl_comp x 0) by Lqa.lra. rewrite fl_0. Lqa.lra.
Qed.

Lemma fl_nonpos (x : Q) : x <= 0 -> fl x <= 0.
Proof.
  intros Hx. destruct (Qlt_le_dec x 0) as [H|H].
  - rewrite (fl_neg x H).
    assert (0 <= flpos (Qred (- x))); [|Lqa.lra].
    apply flpos_nonneg. rewrite Qred_correct. Lqa.lra.
  - rewrite (fl_comp x 0) by Lqa.lra. rewrite fl_0. Lqa.lra.
Qed.

(** Rounding is monotone. *)
Lemma fl_mono (x y : Q) : x <= y -> fl x <= fl y.
Proof.
  intros Hxy.
  destruct (Qlt_le_dec 0 x) as [Hx|Hx].
  - rewrite (fl_pos x Hx), (fl_pos y) by Lqa.lra.
    apply flpos_mono; rewrite !Qred_correct; [exact Hx|exact Hxy].
  - destruct (Qlt_le_dec y 0) as [Hy|Hy].
    + rewrite (fl_neg x), (fl_neg y) by Lqa.lra.
      assert (flpos (Qred (- y)) <= flpos (Qred (- x))); [|Lqa.lra].
      apply flpos_mono; rewrite !Qred_correct; Lqa.lra.
    + pose proof (fl_nonpos x Hx). pose proof (fl_nonneg y Hy). Lqa.lra.
Qed.

(** Integers are doubles. *)
Lemma fl_int (z : Z) : fl (inject_Z z) == inject_Z z.
Proof.
  destruct (Z.lt_trichotomy z 0) as [H|[->|H]].
  - rewrite fl_neg by (change 0 with (inject_Z 0); by rewrite <- Zlt_Qlt).
    rewrite (flpos_int _ (- z)); [rewrite inject_Z_opp; ring|lia|].
    by rewrite Qred_correct, inject_Z_opp.
  - reflexivity.
  - rewrite fl_pos by (change 0 with (inject_Z 0); by rewrite <- Zlt_Qlt).
    apply flpos_int; [lia|apply Qred_correct].
Qed.

Lemma fl_1 : fl 1 == 1.
Proof. apply (fl_int 1). Qed.

Lemma rne_up (t : Q) : inject_Z (rne t) <= t + (1 # 2).
Proof.
  unfold rne. pose proof (Qfloor_le t) as Hf.
  destruct (Qcompare (t - inject_Z (Qfloor t)) (1 # 2)) eqn:C.
  - apply Qeq_alt in C.
    destruct (Z.even (Qfloor t)); [Lqa.lra|].
    rewrite inject_Z_plus. change (inject_Z 1) with 1. Lqa.lra.
  - Lqa.lra.
  - apply Qgt_alt in C. rewrite inject_Z_plus. change (inject_Z 1) with 1. Lqa.lra.
Qed.

(** Rounding moves a number up by at most half the spacing. *)
Lemma flpos_err_up (x : Q) :
  0 < x -> x < 2 ^ 53 -> flpos x <= x + 2 ^ ulpExp x * (1 # 2).
Proof.
  intros Hx Hs. rewrite flpos_round by done.
  set (k := ulpExp x). pose proof (pow2_pos k) as Pk.
  pose proof (rne_up (x / 2 ^ k)) as H.
  assert (inject_Z (rne (x / 2 ^ k)) * 2 ^ k <= (x / 2 ^ k + (1 # 2)) * 2 ^ k) as H'.
  { apply Qmult_le_compat_r; [exact H|Lqa.lra]. }
  eapply Qle_trans; [exact H'|].
  assert ((x / 2 ^ k + (1 # 2)) * 2 ^ k == x + 2 ^ k * (1 # 2)) as ->; [|Lqa.lra].
  field. intros E. rewrite E in Pk. Lqa.lra.
Qed.

Lemma rne_down (t : Q) : t - (1 # 2) <= inject_Z (rne t).
Proof.
  unfold rne. pose proof (Qlt_floor t) as Hf.
  rewrite inject_Z_plus in Hf. change (inject_Z 1) with 1 in Hf.
  destruct (Qcompare (t - inject_Z (Qfloor t)) (1 # 2)) eqn:C.
  - apply Qeq_alt in C.
    destruct (Z.even (Qfloor t)); [Lqa.lra|].
    rewrite inject_Z_plus. change (inject_Z 1) with 1. Lqa.lra.
  - apply Qlt_alt in C. Lqa.lra.
  - rewrite inject_Z_plus. change (inject_Z 1) with 1. Lqa.lra.
Qed.

(** Rounding moves a number down by at most half the spacing. *)
Lemma flpos_err_down (x : Q) :
  0 < x -> x < 2 ^ 53 -> x - 2 ^ ulpExp x * (1 # 2) <= flpos x.
Proof.
  intros Hx Hs. rewrite flpos_round by done.
  set (k := ulpExp x). pose proof (pow2_pos k) as Pk.
  pose proof (rne_down (x / 2 ^ k)) as H.
  assert ((x / 2 ^ k - (1 # 2)) * 2 ^ k <= inject_Z (rne (x / 2 ^ k)) * 2 ^ k) as H'.
  { apply Qmult_le_compat_r; [exact H|Lqa.lra]. }
  eapply Qle_trans; [|exact H'].
  assert ((x / 2 ^ k - (1 # 2)) * 2 ^ k == x - 2 ^ k * (1 # 2)) as ->; [|Lqa.lra].
  field. intros E. rewrite E in Pk. Lqa.lra.
Qed.

(** The largest double below 1 is [1 - 2 ^ -53]. *)
Lemma double_below_one (x : Q) : 0 < fl x -> fl x < 1 -> fl x <= 1 - 2 ^ (-53).
Proof.
  intros Hpos Hlt.
  assert (0 < x) as Hx.
  { apply Qnot_le_lt. intros H. pose proof (fl_nonpos x H). Lqa.lra. }
  assert (x < 1) as Hx1.
  { apply Qnot_le_lt. intros H. pose proof (fl_mono 1 x H) as H'.
    rewrite fl_1 in H'. Lqa.lra. }
  destruct (Qlt_le_dec x (1 # 2)) as [Hh|Hh].
  { pose proof (fl_mono x (1 # 2) (Qlt_le_weak _ _ Hh)) as H.
    eapply Qle_trans; [exact H|]. by vm_compute. }
  rewrite (fl_pos x Hx) in *.
  set (x' := Qred x) in *.
  assert (x' == x) as Ex by apply Qred_correct.
  assert (0 < x') as Hx' by (rewrite Ex; done).
  assert (x' < 2 ^ 53) as Hs.
  { rewrite Ex. eapply Qlt_le_trans; [exact Hx1|]. by vm_compute. }
  rewrite flpos_round in * by done.
  destruct (ilog2_spec x' Hx') as [L1 L2].
  assert (ilog2 x' < 0)%Z as He.
  { apply pow2_lt_inv. change (2 ^ 0) with 1. rewrite Ex in L1 at 2. Lqa.lra. }
  assert (-1 < ilog2 x' + 1)%Z as He'.
  { apply pow2_lt_inv. change (2 ^ (-1)) with (1 # 2). rewrite Ex in L2 at 1. Lqa.lra. }
  assert (ulpExp x' = -53)%Z as Ek by (unfold ulpExp; lia).
  rewrite Ek in *.
  set (N := rne (x' / 2 ^ (-53))) in *.
  assert (inject_Z N < inject_Z (2 ^ 53)) as HN.
  { apply (Qmult_lt_r _ _ (2 ^ (-53)) (pow2_pos _)).
    eapply Qlt_le_trans; [exact Hlt|]. by vm_compute. }
  rewrite <- Zlt_Qlt in HN.
  assert (N <= 2 ^ 53 - 1)%Z as HZ by lia.
  rewrite Zle_Qle in HZ.
  eapply Qle_trans; [apply Qmult_le_compat_r; [exact HZ|by vm_compute]|].
  by vm_compute.
Qed.

(** With [p] a double below 1 the rounded product [m * p] stays below the
    integer [m]. *)
Lemma index_below (m : Z) (p : Q) :
  (1 <= m)%Z -> 0 < p -> p <= 1 - 2 ^ (-53) -> fl (inject_Z m * p) < inject_Z m.
Proof.
  intros Hm Hp0 Hp1.
  assert (1 <= inject_Z m) as Hm'.
  { change 1 with (inject_Z 1). by rewrite <- Zle_Qle. }
  assert (0 < 2 ^ (-53)) as He by apply pow2_pos.
  set (e := 2 ^ (-53)) in *.
  set (y := inject_Z m * p).
  assert (0 < y) as Hy by (unfold y; Lqa.nra).
  assert (y <= inject_Z m - inject_Z m * e) as Hle by (unfold y; Lqa.nra).
  rewrite (fl_pos y Hy).
  set (y' := Qred y).
  assert (y' == y) as Ey by apply Qred_correct.
  assert (0 < y') as Hy' by (rewrite Ey; done).
  destruct (Qlt_le_dec y' (2 ^ 53)) as [Hs|Hb].
  2:{ rewrite flpos_exact by done. rewrite Ey. Lqa.nra. }
  eapply Qle_lt_trans; [apply flpos_err_up; done|].
  destruct (ilog2_spec y' Hy') as [L1 _].
  assert (2 ^ ulpExp y' * (1 # 2) < inject_Z m * e) as Herr.
  { unfold ulpExp.
    destruct (Z.max_spec (ilog2 y' - 52) (-1074)) as [[_ ->]|[_ ->]].
    - assert (2 ^ (-1074) * (1 # 2) < e) as H by (by vm_compute).
      set (t := 2 ^ (-1074)) in *. Lqa.nra.
    - replace (ilog2 y' - 52)%Z with (ilog2 y' + (-52))%Z by lia.
      rewrite pow2_split.
      assert (2 ^ (-52) * (1 # 2) == e) as H by (by vm_compute).
      set (t := 2 ^ (-52)) in *. set (u := 2 ^ ilog2 y') in *.
      assert (u * t * (1 # 2) == u * e) as -> by (rewrite <- H; ring).
      assert (u < inject_Z m) by (rewrite Ey in L1; Lqa.nra).
      Lqa.nra. }
  Lqa.lra.
Qed.

(** 3/5 is not a double (the nearest one lies below it), and 0.1 + 0.2
    exceeds the double nearest to 0.3. *)
Example fl_samples :
  fl (6 # 10) = 5404319552844595 # 9007199254740992 /\
  fl (6 # 10) < 6 # 10 /\
  fl (3 # 10) < fl (fl (1 # 10) + fl (2 # 10)) /\
  fl (fl (fl (2 * fl (60 # 100)) - 1) * 5) < 1.
Proof. by vm_compute. Qed.

(** Ties go to the even significand, also in the subnormal range. *)
Example fl_ties :
  fl (1 + 2 ^ (-53)) = 1 /\
  fl (1 + 3 * 2 ^ (-53)) == 1 + 2 ^ (-51) /\
  fl (2 ^ (-1075)) = 0 /\
  fl (3 * 2 ^ (-1076)) == 2 ^ (-1074) /\
  fl (- (1 # 3)) == - (6004799503160661 # 18014398509481984).
Proof. by vm_compute. Qed.

End Rounding.

(** ** The quantile and the threshold *)

Lemma nthZ_mono (vals : list Z) i j :
  ascendingZ vals -> 0 <= i <= j -> j < Z.of_nat (length vals) ->
  nthZ vals i <= nthZ vals j.
Proof.
  intros Hs Hij Hj. unfold nthZ.
  assert (Z.to_nat i <= Z.to_nat j)%nat as Hn by lia.
  assert (Z.to_nat j < length vals)%nat as Hlen by lia.
  clear Hij Hj. revert Hn Hlen. generalize (Z.to_nat i) (Z.to_nat j). clear i j.
  induction Hs as [|x l Hs IH Hx]; intros i j Hij Hj; simpl in *; [lia|].
  destruct i as [|i], j as [|j]; try lia.
  - rewrite Forall_forall in Hx. apply Hx.
    apply list_elem_of_In, nth_In. lia.
  - apply IH; lia.
Qed.

Lemma nthZ_In (vals : list Z) i :
  0 <= i < Z.of_nat (length vals) -> nthZ vals i ∈ vals.
Proof. intros H. apply list_elem_of_In, nth_In. lia. Qed.

Lemma Qfloor_frac (x : Q) :
  (0 <= x - inject_Z (Qfloor x))%Q /\ (x - inject_Z (Qfloor x) <= 1)%Q.
Proof.
  pose proof (Qfloor_le x) as H1. pose proof (Qlt_floor x) as H2.
  rewrite inject_Z_plus in H2. change (inject_Z 1) with 1%Q in H2.
  split; Lqa.lra.
Qed.

(** The rounded fraction [i - i0] lies in the unit interval. *)
Lemma frac_fl (i : Q) :
  (0 <= fl (i - inject_Z (Qfloor i)))%Q /\ (fl (i - inject_Z (Qfloor i)) <= 1)%Q.
Proof.
  destruct (Qfloor_frac i) as [H0 H1]. split.
  - by apply fl_nonneg.
  - rewrite <- fl_1. by apply fl_mono.
Qed.

Lemma fl_diff (v0 v1 : Z) :
  (fl (inject_Z v1 - inject_Z v0) == inject_Z (v1 - v0))%Q.
Proof.
  rewrite (fl_comp _ (inject_Z (v1 - v0))); [apply fl_int|].
  unfold Z.sub. rewrite inject_Z_plus, inject_Z_opp. reflexivity.
Qed.

(** The rounded interpolation stays between the two values. *)
Lemma interp_bounds (v0 v1 : Z) (f : Q) :
  v0 <= v1 -> (0 <= f)%Q -> (f <= 1)%Q ->
  let q := fl (inject_Z v0 + fl (fl (inject_Z v1 - inject_Z v0) * f)) in
  (inject_Z v0 <= q)%Q /\ (q <= inject_Z v1)%Q.
Proof.
  intros Hv Hf0 Hf1 q. subst q.
  pose proof (fl_diff v0 v1) as Ed.
  set (d := fl (inject_Z v1 - inject_Z v0)) in *.
  assert (0 <= inject_Z (v1 - v0))%Q as Hd.
  { change 0%Q with (inject_Z 0). rewrite <- Zle_Qle. lia. }
  assert (inject_Z (v1 - v0) == inject_Z v1 - inject_Z v0)%Q as Es.
  { unfold Z.sub. rewrite inject_Z_plus, inject_Z_opp. reflexivity. }
  assert (0 <= fl (d * f))%Q as G0 by (apply fl_nonneg; Lqa.nra).
  assert (fl (d * f) <= inject_Z (v1 - v0))%Q as G1.
  { rewrite <- (fl_int (v1 - v0)). apply fl_mono. Lqa.nra. }
  split.
  - rewrite <- (fl_int v0) at 1. apply fl_mono. Lqa.lra.
  - rewrite <- (fl_int v1). apply fl_mono. Lqa.lra.
Qed.

(** The rounded interpolation does not decrease with the fraction. *)
Lemma interp_mono (v0 v1 : Z) (f g : Q) :
  v0 <= v1 -> (f <= g)%Q ->
  (fl (inject_Z v0 + fl (fl (inject_Z v1 - inject_Z v0) * f))
   <= fl (inject_Z v0 + fl (fl (inject_Z v1 - inject_Z v0) * g)))%Q.
Proof.
  intros Hv Hfg.
  pose proof (fl_diff v0 v1) as Ed.
  set (d := fl (inject_Z v1 - inject_Z v0)) in *.
  assert (0 <= inject_Z (v1 - v0))%Q as Hd.
  { change 0%Q with (inject_Z 0). rewrite <- Zle_Qle. lia. }
  apply fl_mono.
  assert (fl (d * f) <= fl (d * g))%Q; [|Lqa.lra].
  apply fl_mono. Lqa.nra.
Qed.

(** The interpolating branch of [quantileSorted], at a double [p = fl x]
    strictly between 0 and 1: the rank [i0 + 1] is inside the array, and the
    result lies between the weights at the two adjacent ranks. *)
Lemma quantile_interior (vals : list Z) (x : Q) :
  ascendingZ vals -> 2 <= Z.of_nat (length vals) ->
  (0 < fl x)%Q -> (fl x < 1)%Q ->
  let n := Z.of_nat (length vals) in
  let i := fl (inject_Z (n - 1) * fl x) in
  let i0 := Qfloor i in
  let q := fl (inject_Z (nthZ vals i0)
               + fl (fl (inject_Z (nthZ vals (i0 + 1)) - inject_Z (nthZ vals i0))
                     * fl (i - inject_Z i0))) in
  0 <= i0 /\ i0 + 1 <= n - 1 /\
  quantileSorted vals (fl x) = Some q /\
  (inject_Z (nthZ vals i0) <= q)%Q /\ (q <= inject_Z (nthZ vals (i0 + 1)))%Q.
Proof.
  intros Hs Hn Hp0 Hp1 n i i0 q.
  assert (0 < inject_Z (n - 1))%Q as Hn1.
  { change 0%Q with (inject_Z 0). rewrite <- Zlt_Qlt. lia. }
  assert (0 <= i)%Q as Hi0 by (apply fl_nonneg; Lqa.nra).
  assert (i < inject_Z (n - 1))%Q as Hi1.
  { apply index_below; [lia|done|by apply double_below_one]. }
  assert (0 <= i0) as Hlo.
  { change 0 with (Qfloor 0). by apply Qfloor_resp_le. }
  assert (i0 + 1 <= n - 1) as Hhi.
  { pose proof (Qfloor_le i) as H. fold i0 in H.
    assert (inject_Z i0 < inject_Z (n - 1))%Q as H' by Lqa.lra.
    rewrite <- Zlt_Qlt in H'. lia. }
  split; [done|]. split; [done|].
  assert (nthZ vals i0 <= nthZ vals (i0 + 1)) as Hv
    by (apply nthZ_mono; [done|lia|lia]).
  destruct (frac_fl i) as [Hf0 Hf1]. fold i0 in Hf0, Hf1.
  destruct (interp_bounds _ _ _ Hv Hf0 Hf1) as [B1 B2].
  split; [|done].
  unfold quantileSorted. fold n.
  destruct (Z.eqb_spec n 0); [lia|].
  destruct (Qle_bool (fl x) 0) eqn:E0.
  { apply Qle_bool_iff in E0. Lqa.lra. }
  destruct (Z.ltb_spec n 2); [lia|]. simpl.
  destruct (Qle_bool 1 (fl x)) eqn:E1.
  { apply Qle_bool_iff in E1. Lqa.lra. }
  fold i. fold i0.
  destruct (Z.leb_spec n (i0 + 1)); [lia|]. done.
Qed.

Lemma quantile_low (vals : list Z) (p : Q) :
  vals <> [] -> (p <= 0)%Q \/ Z.of_nat (length vals) < 2 ->
  quantileSorted vals p = Some (inject_Z (nthZ vals 0)).
Proof.
  intros Hne Hp. unfold quantileSorted.
  destruct (Z.eqb_spec (Z.of_nat (length vals)) 0) as [E|_].
  { destruct vals; [done|simpl in E; lia]. }
  destruct Hp as [Hp|Hn].
  - apply Qle_bool_iff in Hp. by rewrite Hp.
  - destruct (Z.ltb_spec (Z.of_nat (length vals)) 2); [|lia].
    by rewrite orb_true_r.
Qed.

Lemma quantile_high (vals : list Z) (p : Q) :
  2 <= Z.of_nat (length vals) -> (1 <= p)%Q ->
  quantileSorted vals p
  = Some (inject_Z (nthZ vals (Z.of_nat (length vals) - 1))).
Proof.
  intros Hn Hp. unfold quantileSorted.
  destruct (Z.eqb_spec (Z.of_nat (length vals)) 0); [lia|].
  destruct (Qle_bool p 0) eqn:E0.
  { apply Qle_bool_iff in E0. Lqa.lra. }
  destruct (Z.ltb_spec (Z.of_nat (length vals)) 2); [lia|]. simpl.
  apply Qle_bool_iff in Hp. by rewrite Hp.
Qed.

Lemma length_pos_Z {A} (l : list A) : l <> [] -> 1 <= Z.of_nat (length l).
Proof. destruct l; [done|simpl; lia]. Qed.

(** Every quantile at a double lies between the smallest and the largest
    weight; in particular it is a number. *)
Lemma quantile_range (vals : list Z) (x : Q) :
  ascendingZ vals -> vals <> [] ->
  exists q,
    quantileSorted vals (fl x) = Some q /\
    (inject_Z (nthZ vals 0) <= q)%Q /\
    (q <= inject_Z (nthZ vals (Z.of_nat (length vals) - 1)))%Q.
Proof.
  intros Hs Hne. pose proof (length_pos_Z vals Hne) as Hlen.
  assert (nthZ vals 0 <= nthZ vals (Z.of_nat (length vals) - 1)) as H0n
    by (apply nthZ_mono; [done|lia|lia]).
  destruct (Z.lt_ge_cases (Z.of_nat (length vals)) 2) as [Hn|Hn].
  { eexists. split; [apply quantile_low; [done|by right]|].
    rewrite <- !Zle_Qle. lia. }
  destruct (Qlt_le_dec 0 (fl x)) as [Hp0|Hp0].
  2:{ eexists. split; [apply quantile_low; [done|by left]|].
      rewrite <- !Zle_Qle. lia. }
  destruct (Qlt_le_dec (fl x) 1) as [Hp1|Hp1].
  2:{ eexists. split; [by apply quantile_high|].
      rewrite <- !Zle_Qle. lia. }
  destruct (quantile_interior vals x Hs Hn Hp0 Hp1) as (Hlo & Hhi & E & B1 & B2).
  eexists. split; [exact E|].
  set (i0 := Qfloor (fl (inject_Z (Z.of_nat (length vals) - 1) * fl x))) in *.
  assert (nthZ vals 0 <= nthZ vals i0)
    as A1 by (apply nthZ_mono; [done|lia|lia]).
  assert (nthZ vals (i0 + 1) <= nthZ vals (Z.of_nat (length vals) - 1))
    as A2 by (apply nthZ_mono; [done|lia|lia]).
  rewrite Zle_Qle in A1, A2. split; Lqa.lra.
Qed.

(** The quantile does not decrease when [p] grows. *)
Lemma quantile_mono (vals : list Z) (x x' : Q) :
  ascendingZ vals -> vals <> [] -> (x <= x')%Q ->
  exists q q',
    quantileSorted vals (fl x) = Some q /\ quantileSorted vals (fl x') = Some q' /\
    (q <= q')%Q.
Proof.
  intros Hs Hne Hxx. pose proof (length_pos_Z vals Hne) as Hlen.
  pose proof (fl_mono x x' Hxx) as Hpp.
  destruct (Z.lt_ge_cases (Z.of_nat (length vals)) 2) as [Hn|Hn].
  { exists (inject_Z (nthZ vals 0)), (inject_Z (nthZ vals 0)).
    rewrite !quantile_low by (done || by right). split; [done|]. split; [done|].
    Lqa.lra. }
  destruct (Qlt_le_dec 0 (fl x)) as [Hp0|Hp0].
  2:{ destruct (quantile_range vals x' Hs Hne) as (q' & Eq' & Q1' & _).
      exists (inject_Z (nthZ vals 0)), q'.
      rewrite quantile_low by (done || by left).
      split; [done|]. split; [done|]. exact Q1'. }
  destruct (Qlt_le_dec (fl x') 1) as [Hp1|Hp1].
  2:{ destruct (quantile_range vals x Hs Hne) as (q & Eq & _ & Q2).
      exists q, (inject_Z (nthZ vals (Z.of_nat (length vals) - 1))).
      rewrite (quantile_high vals (fl x') Hn Hp1).
      split; [done|]. split; [done|]. exact Q2. }
  assert (0 < fl x')%Q as Hp0' by Lqa.lra.
  assert (fl x < 1)%Q as Hp1' by Lqa.lra.
  destruct (quantile_interior vals x Hs Hn Hp0 Hp1') as (Hlo & Hhi & E & B1 & B2).
  destruct (quantile_interior vals x' Hs Hn Hp0' Hp1) as (Hlo' & Hhi' & E' & B1' & B2').
  eexists _, _. split; [exact E|]. split; [exact E'|].
  set (n1 := inject_Z (Z.of_nat (length vals) - 1)) in *.
  assert (0 < n1)%Q as Hn1.
  { subst n1. change 0%Q with (inject_Z 0). rewrite <- Zlt_Qlt. lia. }
  assert (fl (n1 * fl x) <= fl (n1 * fl x'))%Q as Hii by (apply fl_mono; Lqa.nra).
  pose proof (Qfloor_resp_le _ _ Hii) as Hfl.
  set (i := fl (n1 * fl x)) in *. set (i' := fl (n1 * fl x')) in *.
  set (i0 := Qfloor i) in *. set (i0' := Qfloor i') in *.
  destruct (Z.eq_dec i0 i0') as [Heq|Hneq].
  - rewrite <- Heq.
    apply interp_mono; [apply nthZ_mono; [done|lia|lia]|].
    apply fl_mono. Lqa.lra.
  - assert (nthZ vals (i0 + 1) <= nthZ vals i0') as Hmid
      by (apply nthZ_mono; [done|lia|lia]).
    rewrite Zle_Qle in Hmid. Lqa.lra.
Qed.

Lemma thresholdOf_mono (vals : list Z) (p p' : Q) :
  ascendingZ vals -> (p <= p')%Q -> thresholdOf vals p <= thresholdOf vals p'.
Proof.
  intros Hs Hpp. unfold thresholdOf.
  destruct vals as [|v vals]; [done|].
  assert (p / 100 <= p' / 100)%Q as Hdiv.
  { unfold Qdiv. apply Qmult_le_compat_r; [done|]. done. }
  destruct (quantile_mono (v :: vals) _ _ Hs ltac:(done) Hdiv)
    as (q & q' & -> & -> & Hq).
  simpl. by apply Qfloor_resp_le.
Qed.

(** ** C4 and C6: the percentile threshold *)

Lemma values_ascending st : ascendingZ (values st).
Proof.
  unfold values, ascendingZ.
  apply (js_sort_sorted ascending (fun z => z)).
  intros a b. unfold ascending. lia.
Qed.

Lemma thresholdCount_thresholdOf st :
  thresholdCount st = thresholdOf (values st) (minRoutePercent st).
Proof. reflexivity. Qed.

Lemma length_filter_mono {A} (P Q : A -> Prop)
    `{forall x, Decision (P x)} `{forall x, Decision (Q x)} (l : list A) :
  (forall x, x ∈ l -> P x -> Q x) ->
  (length (filter P l) <= length (filter Q l))%nat.
Proof.
  induction l as [|x l IH]; intros Himp; [done|].
  rewrite !filter_cons.
  assert (length (filter P l) <= length (filter Q l))%nat as IH'.
  { apply IH. intros y Hy. apply Himp. by apply list_elem_of_further. }
  destruct (decide (P x)) as [HP|HP].
  - rewrite decide_True by (apply Himp; [apply list_elem_of_here|done]).
    simpl. lia.
  - destruct (decide (Q x)); simpl; lia.
Qed.

Lemma elem_of_keep st a :
  a ∈ keep st <->
  a <> "" /\ exists l, l ∈ links st /\ (Link.source l = a \/ Link.target l = a).
Proof.
  unfold keep. rewrite elem_of_list_to_set, list_elem_of_In, in_flat_map.
  split.
  - intros (l & Hl & Ha). apply list_elem_of_In in Hl.
    apply in_app_iff in Ha as [Ha|Ha].
    + destruct (String.eqb_spec (Link.source l) ""); [done|].
      destruct Ha as [<-|[]]. split; [done|]. eauto.
    + destruct (String.eqb_spec (Link.target l) ""); [done|].
      destruct Ha as [<-|[]]. split; [done|]. eauto.
  - intros (Hne & l & Hl & Ha). exists l. split; [by apply list_elem_of_In|].
    apply in_app_iff. destruct Ha as [<-|<-].
    + left. destruct (String.eqb_spec (Link.source l) ""); [done|]. by left.
    + right. destruct (String.eqb_spec (Link.target l) ""); [done|]. by left.
Qed.

(** A state whose links are among another's (same nodes, same mode) shows
    no more links. *)
Lemma linksView_mono st1 st2 :
  nodes st2 = nodes st1 ->
  isDetail st2 = isDetail st1 -> hideLowNodes st2 = hideLowNodes st1 ->
  linksRaw st2 = linksRaw st1 ->
  forall (T1 T2 : Link.t -> Prop)
         `{forall x, Decision (T1 x)} `{forall x, Decision (T2 x)},
  links st1 = filter T1 (linksRaw st1) ->
  links st2 = filter T2 (linksRaw st1) ->
  (forall l, T2 l -> T1 l) ->
  (length (linksView st2) <= length (linksView st1))%nat.
Proof.
  intros Hn Hd Hh Hraw T1 T2 ? ? E1 E2 Himp.
  assert (forall l, l ∈ links st2 -> l ∈ links st1) as Hsub.
  { intros l. rewrite E1, E2, !list_elem_of_filter. naive_solver. }
  unfold linksView. rewrite Hd, Hh.
  destruct (negb (isDetail st1) && hideLowNodes st1) eqn:Hhide.
  - assert (forall a, a ∈ keepNames st2 -> a ∈ keepNames st1) as Hnames.
    { intros a. unfold keepNames, nodesVis. rewrite Hd, Hh, Hhide, Hn.
      rewrite !elem_of_list_to_set, !list_elem_of_fmap.
      intros (n & -> & Hn2). exists n. split; [done|].
      apply list_elem_of_filter in Hn2 as [Hk Hin].
      apply list_elem_of_filter. split; [|done].
      apply elem_of_keep in Hk as (Hne & l & Hl & Hl2).
      apply elem_of_keep. split; [done|]. exists l. auto. }
    rewrite E1, E2, !list_filter_filter.
    apply length_filter_mono. intros l _ [[H1 H2] HT]. auto.
  - rewrite E1, E2. apply length_filter_mono. auto.
Qed.

(** C4.  Percentile monotonicity.  With the trip data, the member and month
    filters and the other controls fixed, raising the slider from [p1] to
    [p2] never increases the number of links shown (in overview mode the
    surviving links; in detail mode, where the threshold is not applied,
    the number does not change). *)
Theorem C4_percentile_monotone (st : State) (p1 p2 : Q) :
  (p1 <= p2)%Q ->
  (length (linksView (set_minRoutePercent p2 st))
   <= length (linksView (set_minRoutePercent p1 st)))%nat.
Proof.
  intros Hp.
  set (st1 := set_minRoutePercent p1 st). set (st2 := set_minRoutePercent p2 st).
  destruct (detailMode st) eqn:Hmode.
  - apply (linksView_mono st1 st2 eq_refl eq_refl eq_refl eq_refl
             (fromSelected st) (fromSelected st)).
    + unfold links. change (detailMode st1) with (detailMode st). by rewrite Hmode.
    + unfold links. change (detailMode st2) with (detailMode st). by rewrite Hmode.
    + auto.
  - apply (linksView_mono st1 st2 eq_refl eq_refl eq_refl eq_refl
             (fun l => minRouteCount (updateVis st1) <= Link.value l)
             (fun l => minRouteCount (updateVis st2) <= Link.value l)).
    + unfold links. change (detailMode st1) with (detailMode st). by rewrite Hmode.
    + unfold links. change (detailMode st2) with (detailMode st). by rewrite Hmode.
    + intros l. unfold updateVis.
      change (stationAgg st2) with (stationAgg st).
      change (stationAgg st1) with (stationAgg st).
      destruct (stationAgg st); simpl; [|done].
      rewrite !thresholdCount_thresholdOf.
      change (values st2) with (values st). change (values st1) with (values st).
      simpl.
      pose proof (thresholdOf_mono (values st) p1 p2 (values_ascending st) Hp).
      lia.
Qed.

Lemma C4_percentile_monotone_witness :
  (0 <= 100)%Q /\
  (length (linksView (set_minRoutePercent 100 stateEx))
   <= length (linksView (set_minRoutePercent 0 stateEx)))%nat.
Proof.
  assert (0 <= 100)%Q as Hp by (vm_compute; discriminate).
  split; [exact Hp|].
  exact (C4_percentile_monotone stateEx 0 100 Hp).
Defined.

Lemma Qfloor_between (a b : Z) (q : Q) :
  (inject_Z a <= q)%Q -> (q <= inject_Z b)%Q -> a <= Qfloor q <= b.
Proof.
  intros Ha Hb.
  apply Qfloor_resp_le in Ha, Hb. rewrite Qfloor_Z in Ha, Hb. lia.
Qed.

(** The slider at 0 or below gives [p <= 0], the slider at 100 or above
    gives [p >= 1]. *)
Lemma percent_low (percent : Q) : (percent <= 0)%Q -> (fl (percent / 100) <= 0)%Q.
Proof.
  intros H. apply fl_nonpos. apply Qle_shift_div_r; [reflexivity|]. Lqa.lra.
Qed.

Lemma percent_high (percent : Q) : (100 <= percent)%Q -> (1 <= fl (percent / 100))%Q.
Proof.
  intros H. rewrite <- fl_1. apply fl_mono.
  apply Qle_shift_div_l; [reflexivity|]. Lqa.lra.
Qed.

(** C6 (as amended).  In overview mode the threshold is computed from the
    candidate link weights sorted ascending: it is the floor of
    [d3.quantileSorted] at the double [p = percent / 100], evaluated in
    double arithmetic.  That is the smallest weight for [p <= 0] (slider at
    0 or below), the largest weight for [p >= 1] (slider at 100 or above),
    and in between the floor of the rounded linear interpolation
    [value0 + (value1 - value0) * (i - i0)] between the weights at the two
    ranks [i0] and [i0 + 1] adjacent to [i = (n - 1) * p], both inside the
    array (so the threshold lies between those two weights but need not be
    the weight of any link).  Every candidate link whose weight is below
    the threshold is dropped and every other one is kept, and the threshold
    is stored in [state.minRouteCount]. *)
Theorem C6_threshold (st : State) (sa : StationAgg) :
  stationAgg st = Some sa -> detailMode st = false ->
  let thr := minRouteCount (updateVis st) in
  let vals := values st in
  let n := Z.of_nat (length vals) in
  let p := fl (minRoutePercent st / 100) in
  vals ≡ₚ map Link.value (linksRaw st) /\ ascendingZ vals /\
  thr = thresholdOf vals (minRoutePercent st) /\
  links st = filter (fun l => thr <= Link.value l) (linksRaw st) /\
  (vals = [] -> thr = 0) /\
  (vals <> [] -> nthZ vals 0 <= thr <= nthZ vals (n - 1)) /\
  ((minRoutePercent st <= 0)%Q -> (p <= 0)%Q) /\
  ((100 <= minRoutePercent st)%Q -> (1 <= p)%Q) /\
  (vals <> [] -> (p <= 0)%Q -> thr = nthZ vals 0) /\
  (vals <> [] -> (1 <= p)%Q -> thr = nthZ vals (n - 1)) /\
  (2 <= n -> (0 < p)%Q -> (p < 1)%Q ->
   let i := fl (inject_Z (n - 1) * p) in
   let i0 := Qfloor i in
   let value0 := inject_Z (nthZ vals i0) in
   let value1 := inject_Z (nthZ vals (i0 + 1)) in
   0 <= i0 /\ i0 + 1 <= n - 1 /\
   thr = Qfloor (fl (value0 + fl (fl (value1 - value0) * fl (i - inject_Z i0)))) /\
   nthZ vals i0 <= thr <= nthZ vals (i0 + 1)).
Proof.
  intros Hsa Hmode thr vals n p.
  assert (thr = thresholdOf vals (minRoutePercent st)) as Hthr.
  { subst thr. unfold updateVis. rewrite Hsa. simpl.
    apply thresholdCount_thresholdOf. }
  pose proof (values_ascending st) as Hasc. fold vals in Hasc.
  split; [apply js_sort_perm|]. split; [done|]. split; [done|].
  split; [unfold links; by rewrite Hmode|].
  split; [intros E; rewrite Hthr, E; done|].
  assert (forall q, vals <> [] -> quantileSorted vals p = Some q ->
                    thr = Qfloor q) as Hq.
  { intros q Hne E. rewrite Hthr. unfold thresholdOf.
    destruct vals; [done|]. fold p. by rewrite E. }
  split; [|split; [apply percent_low|split; [apply percent_high|split; [|split]]]].
  - intros Hne.
    destruct (quantile_range vals (minRoutePercent st / 100) Hasc Hne)
      as (q & E & Q1 & Q2).
    rewrite (Hq q Hne E). by apply Qfloor_between.
  - intros Hne Hp.
    rewrite (Hq _ Hne (quantile_low vals p Hne (or_introl Hp))).
    apply Qfloor_Z.
  - intros Hne Hp.
    destruct (Z.lt_ge_cases n 2) as [Hn|Hn].
    + rewrite (Hq _ Hne (quantile_low vals p Hne (or_intror Hn))).
      rewrite Qfloor_Z. f_equal. pose proof (length_pos_Z vals Hne). lia.
    + rewrite (Hq _ Hne (quantile_high vals p Hn Hp)). apply Qfloor_Z.
  - intros Hn Hp0 Hp1 i i0 value0 value1.
    assert (vals <> []) as Hne.
    { intros E. unfold n in Hn. rewrite E in Hn. simpl in Hn. lia. }
    destruct (quantile_interior vals (minRoutePercent st / 100) Hasc Hn Hp0 Hp1)
      as (Hlo & Hhi & E & B1 & B2).
    split; [exact Hlo|]. split; [exact Hhi|].
    rewrite (Hq _ Hne E). split; [done|]. by apply Qfloor_between.
Qed.

Lemma C6_threshold_witness :
  stationAgg state13 = Some (c_stationAgg (default initCaches (buildCaches data13))) /\
  detailMode state13 = false /\
  minRouteCount (updateVis state13) = thresholdOf (values state13) 50 /\
  links state13
  = filter (fun l => minRouteCount (updateVis state13) <= Link.value l)
           (linksRaw state13).
Proof.
  assert (stationAgg state13
          = Some (c_stationAgg (default initCaches (buildCaches data13)))) as Hsa
    by (vm_compute; reflexivity).
  split; [exact Hsa|]. split; [reflexivity|].
  destruct (C6_threshold state13 _ Hsa eq_refl) as (_ & _ & Hthr & Hlinks & _).
  split; [exact Hthr|exact Hlinks].
Defined.

(** Rounding shows in the threshold.  With candidate weights 1, 1 and 6 and
    the slider at 60, the exact interpolation is 2, while the doubles give
    [p] just below 3/5, an interpolation just below 2, the threshold 1, and
    all three links are kept. *)
Example threshold_rounds_down :
  values state116 = [1; 1; 6] /\
  Qfloor (exactQuantile [1; 1; 6] (60 / 100)) = 2 /\
  thresholdOf [1; 1; 6] 60 = 1 /\
  minRouteCount (updateVis state116) = 1 /\
  length (links state116) = 3%nat.
Proof. by vm_compute. Qed.

(** The nearest-rank reading of C6 as written fails: with candidate weights
    1 and 3 and the slider at 50 the threshold is 2, the weight of no link. *)
Lemma C6_counterexample :
  values state13 = [1; 3] /\
  minRouteCount (updateVis state13) = 2 /\
  ~ weightAtSomeRank (values state13) (minRouteCount (updateVis state13)).
Proof.
  assert (values state13 = [1; 3]) as Ev by (vm_compute; reflexivity).
  assert (minRouteCount (updateVis state13) = 2) as Et by (vm_compute; reflexivity).
  split; [done|]. split; [done|].
  rewrite Ev, Et. intros (i & Hi & Hnth). simpl in Hi.
  assert (i = 0 \/ i = 1) as [->| ->] by lia; vm_compute in Hnth; lia.
Qed.

(** ** C7: the view state machine *)

Lemma updateVis_isDetail st : isDetail (updateVis st) = isDetail st.
Proof. unfold updateVis. by destruct (stationAgg st). Qed.

Lemma updateVis_selectedStation st :
  selectedStation (updateVis st) = selectedStation st.
Proof. unfold updateVis. by destruct (stationAgg st). Qed.

Lemma exitDetailView_overview st : inOverview (exitDetailView st).
Proof.
  unfold exitDetailView, inOverview.
  by rewrite updateVis_isDetail, updateVis_selectedStation.
Qed.

Lemma leaveDetail_overview st s :
  inDetail st s -> inOverview (updateVis (leaveDetail st)).
Proof.
  intros [Hd _]. unfold leaveDetail. rewrite Hd.
  destruct (exitDetailView_overview st) as [H1 H2].
  split; [by rewrite updateVis_isDetail|by rewrite updateVis_selectedStation].
Qed.

(** After a filter change or the back action the view is never in detail
    mode, whatever the state before. *)
Lemma filterChangeOrBack_not_detail st ev :
  filterChangeOrBack ev = true -> isDetail (handle ev st) = false.
Proof.
  destruct ev; simpl; try done; intros _; rewrite updateVis_isDetail;
    unfold leaveDetail;
    repeat match goal with
           | |- context [if isDetail ?x then _ else _] => destruct (isDetail x) eqn:?
           end;
    try done; by apply exitDetailView_overview.
Qed.

(** Reachable states keep [selectedStation] null outside detail mode. *)
Lemma handle_invariant st ev :
  (isDetail st = false -> selectedStation st = None) ->
  (isDetail (handle ev st) = false -> selectedStation (handle ev st) = None).
Proof.
  intros Hinv.
  destruct ev; simpl; rewrite updateVis_isDetail, updateVis_selectedStation;
    unfold leaveDetail, goToDetail, updateMonthFromSlider;
    repeat match goal with
           | |- context [if ?b then _ else _] => destruct b eqn:?
           end;
    simpl in *;
    rewrite ?updateVis_isDetail, ?updateVis_selectedStation; simpl; try done;
    try (intros _; by apply exitDetailView_overview);
    try (intros; apply Hinv; congruence).
Qed.

(** C7.  From Detail(s), every month-filter change (the By-Month toggle and
    the month slider), every member-filter change and the back action lead
    to Overview: [isDetail = false] and [selectedStation = null]. *)
Theorem C7_filter_change_returns_to_overview (st : State) (s : string) (ev : Event) :
  inDetail st s -> filterChangeOrBack ev = true -> inOverview (handle ev st).
Proof.
  intros Hd Hev.
  destruct ev; simpl in *; try done.
  - apply (leaveDetail_overview _ s).
    destruct Hd as [H1 H2]. by destruct checked.
  - by apply (leaveDetail_overview _ s).
  - by apply (leaveDetail_overview _ s).
  - destruct (exitDetailView_overview st) as [H1 H2].
    split; [by rewrite updateVis_isDetail|by rewrite updateVis_selectedStation].
Qed.

Lemma C7_filter_change_returns_to_overview_witness :
  inDetail (handle (StationClick "A") stateEx) "A" /\
  filterChangeOrBack (MonthSliderInput 3) = true /\
  inOverview (handle (MonthSliderInput 3) (handle (StationClick "A") stateEx)).
Proof.
  assert (inDetail (handle (StationClick "A") stateEx) "A") as Hd
    by (split; vm_compute; reflexivity).
  split; [exact Hd|]. split; [reflexivity|].
  exact (C7_filter_change_returns_to_overview _ "A" (MonthSliderInput 3) Hd eq_refl).
Defined.

(** ** C2: the synthetic fallback *)

(** What [injectSyntheticIfNeeded] does when it runs: nothing if a trip was
    loaded, one synthetic month otherwise. *)
Lemma injectSyntheticIfNeeded_spec st :
  (0 < totalTrips st -> injectSyntheticIfNeeded st = st) /\
  (totalTrips st <= 0 ->
   allData (injectSyntheticIfNeeded st) = (allData st ++ [syntheticMonth])%list).
Proof.
  unfold injectSyntheticIfNeeded.
  destruct (Z.gtb_spec (totalTrips st) 0); split; intros; try lia; done.
Qed.

(** Had the synthetic month been injected, the hub would show its five
    destinations with 40, 30, 20, 15 and 10 trips, in that order. *)
Example synthetic_hub_routes :
  let st := initialise (allData (injectSyntheticIfNeeded (set_allData emptyYear state0)))
                       state0 in
  map Node.name (nodes st)
  = [demoStart; "Union Station (Synthetic)"; "Harbourfront (Synthetic)";
     "Chinatown (Synthetic)"; "Distillery District (Synthetic)";
     "Kensington Market (Synthetic)"] /\
  map (fun l => (Link.source l, Link.value l)) (linksRaw st)
  = [(demoStart, 40); (demoStart, 30); (demoStart, 20); (demoStart, 15); (demoStart, 10)].
Proof. split; vm_compute; reflexivity. Qed.

(** C2.  The initialisation chain at the failing input (twelve months, no
    valid record): [buildCaches] runs directly on the loaded months,
    [injectSyntheticIfNeeded] is never called, so [state.allData] is still
    the twelve empty months and the view has no station and no link. *)
Theorem C2_init_chain_skips_synthetic :
  totalTrips (set_allData emptyYear state0) = 0 /\
  let st := initialise emptyYear state0 in
  allData st = emptyYear /\
  (exists sa, stationAgg st = Some sa) /\
  nodes st = [] /\ linksRaw st = [].
Proof.
  split; [reflexivity|].
  split; [vm_compute; reflexivity|].
  split; [eexists; vm_compute; reflexivity|].
  split; vm_compute; reflexivity.
Qed.

(** ** C8: scale factors in 3D mode *)

Section ProjectionFacts.
Import Projection.
Local Open Scope R_scope.

(** The perspective factor is a function of the camera-space depth alone. *)
Lemma scale_zCam cam x y z :
  mode3d cam = true ->
  scale (projectXY cam x y z) = scaleAt cam (zCam (projectXY cam x y z)).
Proof. intros H. unfold projectXY, scaleAt. rewrite H. reflexivity. Qed.

Lemma zCam_no_rotation cam x y z :
  mode3d cam = true -> yaw cam = 0 -> pitch cam = 0 ->
  zCam (projectXY cam x y z) = z.
Proof.
  intros H Hy Hp. unfold projectXY. rewrite H, Hy, Hp. simpl.
  rewrite sin_0, cos_0. ring.
Qed.

Lemma edgeScale_same_zCam cam d src tgt :
  mode3d cam = true ->
  zCam (project cam src) = zCam (project cam d) ->
  zCam (project cam tgt) = zCam (project cam d) ->
  edgeScale cam src tgt = nodeScale cam d.
Proof.
  intros H Hs Ht. unfold edgeScale, nodeScale, project in *. rewrite H.
  rewrite !scale_zCam by done. rewrite Hs, Ht. field.
Qed.
End ProjectionFacts.

Section ScaleConsistency.
Import Projection.
Local Open Scope R_scope.

(** C8 (as amended).  In 3D mode, for all yaw and pitch values, a node and
    an edge whose two endpoints are at the node's camera-space depth
    ([zCam], the depth after the yaw and pitch rotations) get the same
    perspective factor: the factor on the node's radius equals [scaleAvg]
    on the edge's stroke width.  With no rotation (yaw = pitch = 0) the
    camera-space depth is the name-derived [depthFor] value, so equal
    [depthFor] values suffice there. *)
Theorem C8_scale_consistency (cam : Camera) (d src tgt : Placed) :
  mode3d cam = true ->
  (zCam (project cam src) = zCam (project cam d) ->
   zCam (project cam tgt) = zCam (project cam d) ->
   edgeScale cam src tgt = nodeScale cam d) /\
  (yaw cam = 0 -> pitch cam = 0 ->
   depthFor cam (p_name src) = depthFor cam (p_name d) ->
   depthFor cam (p_name tgt) = depthFor cam (p_name d) ->
   edgeScale cam src tgt = nodeScale cam d).
Proof.
  intros H. split.
  - by apply edgeScale_same_zCam.
  - intros Hy Hp Hs Ht. apply edgeScale_same_zCam; [done|..];
      unfold project; rewrite !zCam_no_rotation by done; done.
Qed.

Lemma depth_AB_aJ cam : depthFor cam "AB" = depthFor cam "aJ".
Proof.
  unfold depthFor. destruct (mode3d cam); simpl; [|reflexivity].
  replace (to_uint32 (hash31 "aJ") mod 1000)%Z
    with (to_uint32 (hash31 "AB") mod 1000)%Z by (vm_compute; reflexivity).
  reflexivity.
Qed.

Lemma Rmin_1000 : Rmin 1000 1000 = 1000.
Proof. apply Rmin_left. Lra.lra. Qed.

Lemma camQuarter_scale_AB : scale (project camQuarter placedAB) = 1.
Proof.
  unfold project, projectXY, placedAB, camQuarter. simpl.
  rewrite cos_PI2, sin_PI2, cos_0, sin_0, Rmin_1000.
  set (dz := depthFor _ _).
  match goal with |- (if ?c then _ else _) = _ => destruct c as [E|E] end.
  - exfalso. Lra.lra.
  - match goal with |- _ / ?den = _ => replace den with 900 by Lra.lra end.
    Lra.lra.
Qed.

Lemma camQuarter_scale_aJ : scale (project camQuarter placedaJ) = 9 / 8.
Proof.
  unfold project, projectXY, placedaJ, camQuarter. simpl.
  rewrite cos_PI2, sin_PI2, cos_0, sin_0, Rmin_1000.
  set (dz := depthFor _ _).
  match goal with |- (if ?c then _ else _) = _ => destruct c as [E|E] end.
  - exfalso. Lra.lra.
  - match goal with |- _ / ?den = _ => replace den with 800 by Lra.lra end.
    Lra.lra.
Qed.

(** The depth-based reading of C8 fails under rotation: after a quarter
    turn of yaw, "AB" and "aJ" have the same [depthFor] value, yet the node
    "AB" is drawn at factor 1 and the edge AB -> aJ at factor 17/16. *)
Lemma C8_counterexample : ~ scaleConsistentByDepth camQuarter.
Proof.
  intros H.
  specialize (H placedAB placedAB placedaJ (or_introl eq_refl) eq_refl
                (eq_sym (depth_AB_aJ camQuarter))).
  change (nodeScale camQuarter placedAB)
    with (scale (project camQuarter placedAB)) in H.
  change (edgeScale camQuarter placedAB placedaJ)
    with ((scale (project camQuarter placedAB)
           + scale (project camQuarter placedaJ)) / 2) in H.
  rewrite camQuarter_scale_AB, camQuarter_scale_aJ in H. Lra.lra.
Qed.

Lemma C8_scale_consistency_witness :
  mode3d camFlat = true /\ yaw camFlat = 0 /\ pitch camFlat = 0 /\
  depthFor camFlat (p_name placedaJ) = depthFor camFlat (p_name placedAB) /\
  edgeScale camFlat placedAB placedaJ = nodeScale camFlat placedAB.
Proof.
  split; [reflexivity|]. split; [reflexivity|]. split; [reflexivity|].
  split; [exact (eq_sym (depth_AB_aJ camFlat))|].
  exact (proj2 (C8_scale_consistency camFlat placedAB placedAB placedaJ eq_refl)
               eq_refl eq_refl eq_refl (eq_sym (depth_AB_aJ camFlat))).
Defined.
End ScaleConsistency.

(** ** The geocode resolver: finite records *)


Lemma plus_finite a q :
  Geocode.isFinite a = true -> Geocode.isFinite (Geocode.plus a q) = true.
Proof. by destruct a. Qed.

(** * Further properties of the script *)

(** ** Loading and cleaning *)

Lemma trimStart_noLead l : noLead (trimStart l).
Proof.
  induction l as [|c l IH]; simpl; [done|].
  destruct (isSpace c) eqn:E; [done|]. simpl. done.
Qed.

Lemma trimStart_id l : noLead l -> trimStart l = l.
Proof. destruct l as [|c l]; simpl; [done|]. by intros ->. Qed.

Lemma trimStart_split l : exists sp, l = (sp ++ trimStart l)%list.
Proof.
  induction l as [|c l [sp IH]]; simpl; [by exists []|].
  destruct (isSpace c); [|by exists []].
  exists (c :: sp). simpl. by rewrite <- IH.
Qed.

Lemma noLead_app_l l k : noLead (l ++ k) -> noLead l.
Proof. by destruct l. Qed.

Lemma trimL_fixed l :
  let t := rev (trimStart (rev (trimStart l))) in
  rev (trimStart (rev (trimStart t))) = t.
Proof.
  intros t. subst t.
  set (t1 := trimStart l). set (t2 := trimStart (rev t1)).
  assert (noLead (rev t2)) as H1.
  { destruct (trimStart_split (rev t1)) as [sp Hsp]. fold t2 in Hsp.
    assert (t1 = (rev t2 ++ rev sp)%list) as E.
    { rewrite <- (rev_involutive t1), Hsp, rev_app_distr. done. }
    pose proof (trimStart_noLead l) as Hn. fold t1 in Hn.
    rewrite E in Hn. by apply noLead_app_l in Hn. }
  rewrite (trimStart_id (rev t2) H1), rev_involutive.
  by rewrite (trimStart_id t2 (trimStart_noLead _)).
Qed.

(** Trimming twice is trimming once. *)
Lemma trim_idempotent s : trim (trim s) = trim s.
Proof.
  unfold trim. rewrite list_ascii_of_string_of_list_ascii.
  by rewrite trimL_fixed.
Qed.

Lemma safeStr_trimmed v : trim (safeStr v) = safeStr v.
Proof. destruct v; simpl; [apply trim_idempotent|reflexivity]. Qed.

Lemma cleanRow_facts (row : Row) (t : Trip.t) :
  cleanRow row = Some t ->
  tripOk t /\
  trim (Trip.start_station_name t) = Trip.start_station_name t /\
  trim (Trip.end_station_name t) = Trip.end_station_name t /\
  toUpperCase (Trip.start_station_name t) <> "NULL" /\
  toUpperCase (Trip.end_station_name t) <> "NULL" /\
  Trip.member_type t ∈ ["Annual"; "Casual"; "Other"].
Proof.
  unfold cleanRow, tripOk.
  destruct (String.eqb_spec (safeStr (row !! "Start Station Name")) "") as [|Hs];
    [done|].
  destruct (String.eqb_spec (safeStr (row !! "End Station Name")) "") as [|He];
    [done|].
  destruct (String.eqb_spec (stripMember (safeStr (row !! "User Type"))) "") as [|Hm];
    [done|]. simpl.
  destruct (String.eqb_spec (toUpperCase (safeStr (row !! "Start Station Name"))) "NULL")
    as [|Hns]; [done|].
  destruct (String.eqb_spec (toUpperCase (safeStr (row !! "End Station Name"))) "NULL")
    as [|Hne]; [done|]. simpl.
  intros [= <-]. simpl.
  repeat split; try done; try apply safeStr_trimmed.
  destruct (String.eqb_spec (stripMember (safeStr (row !! "User Type"))) "Annual")
    as [->|]; simpl; [in_list|].
  destruct (String.eqb_spec (stripMember (safeStr (row !! "User Type"))) "Casual")
    as [->|]; simpl; in_list.
Qed.

(** X1.  A row that survives the cleaning loop of [loadAllCSVs] gives a
    trip whose station names are non-empty, trimmed and not "NULL" in any
    letter case, and whose member type is one of Annual, Casual, Other. *)
Theorem X1_cleanRow_valid (row : Row) (t : Trip.t) :
  cleanRow row = Some t ->
  tripOk t /\
  trim (Trip.start_station_name t) = Trip.start_station_name t /\
  trim (Trip.end_station_name t) = Trip.end_station_name t /\
  toUpperCase (Trip.start_station_name t) <> "NULL" /\
  toUpperCase (Trip.end_station_name t) <> "NULL" /\
  Trip.member_type t ∈ ["Annual"; "Casual"; "Other"].
Proof. apply cleanRow_facts. Qed.

Lemma X1_cleanRow_valid_witness :
  cleanRow (rowOf "  King St  " "Bay St" "Annual Member")
  = Some (Trip.mk "King St" "Bay St" "Annual") /\
  tripOk (Trip.mk "King St" "Bay St" "Annual").
Proof.
  assert (cleanRow (rowOf "  King St  " "Bay St" "Annual Member")
          = Some (Trip.mk "King St" "Bay St" "Annual")) as E
    by (vm_compute; reflexivity).
  split; [exact E|].
  exact (proj1 (X1_cleanRow_valid _ _ E)).
Defined.

Lemma omap_cleanRow_ok rows : Forall tripOk (omap cleanRow rows).
Proof.
  induction rows as [|row rows IH]; simpl; [constructor|].
  destruct (cleanRow row) as [t|] eqn:E; simpl; [|done].
  constructor; [|done]. by apply (cleanRow_facts row t).
Qed.

Lemma loadFile_month path rows :
  MonthObj.trips (loadFile path rows).2 = omap cleanRow rows.
Proof. reflexivity. Qed.

Lemma loadAllCSVs_months results :
  map MonthObj.mm (loadAllCSVs results).2 = tail months.
Proof. reflexivity. Qed.

Lemma loadAllCSVs_clean results : cleanData (loadAllCSVs results).2.
Proof.
  unfold cleanData, loadAllCSVs, files. simpl.
  repeat (constructor;
          [split; [split; [unfold months; in_list|done]|apply omap_cleanRow_ok]|]).
  constructor.
Qed.

(** X2.  Whatever the twelve CSV files contain (missing files, missing
    columns, junk rows), what [loadAllCSVs] stores is validated input for
    [buildCaches]: twelve months keyed '01' .. '12' in file order, every
    trip with non-empty station names; so [buildCaches] does not throw and
    the initialisation chain ends with the caches built. *)
Theorem X2_load_then_build (results : list (list Row)) :
  map MonthObj.mm (loadAllCSVs results).2 = tail months /\
  cleanData (loadAllCSVs results).2 /\
  (exists c, buildCaches (loadAllCSVs results).2 = Some c) /\
  (exists sa er, stationAgg (start results) = Some sa /\
                 endRoutes (start results) = Some er).
Proof.
  split; [apply loadAllCSVs_months|]. split; [apply loadAllCSVs_clean|].
  destruct (for_each_months_balanced _ initCaches initCaches_wf
              (loadAllCSVs_clean results)) as (c & E & _).
  split; [by exists c|].
  unfold start, initialise.
  change (allData (set_allData (loadAllCSVs results).2 state0))
    with (loadAllCSVs results).2.
  unfold buildCaches. rewrite E.
  unfold updateVis. simpl. eauto.
Qed.

Lemma length_omap_le {A B} (f : A -> option B) (l : list A) :
  (length (omap f l) <= length l)%nat.
Proof.
  induction l as [|a l IH]; csimpl; [done|]. destruct (f a); csimpl; lia.
Qed.

Lemma length_omap_lt {A B} (f : A -> option B) (l : list A) a :
  a ∈ l -> f a = None -> (length (omap f l) < length l)%nat.
Proof.
  induction l as [|b l IH]; intros Hin Hf; [by apply elem_of_nil in Hin|].
  csimpl. apply elem_of_cons in Hin as [<-|Hin].
  - rewrite Hf. csimpl. pose proof (length_omap_le f l). lia.
  - specialize (IH Hin Hf). destruct (f b); csimpl; lia.
Qed.

(** X3.  The per-file debug record is consistent.  The number of cleaned
    rows it reports is the number of trips stored for the month and never
    exceeds the number of raw rows, and is strictly smaller as soon as one
    row is rejected; the five expected columns split into those found in
    the first row and those reported missing; an empty or missing file
    reports no rows and all five columns missing. *)
Theorem X3_debugStats (path : string) (rows : list Row) :
  let stat := (loadFile path rows).1 in
  let month := (loadFile path rows).2 in
  DebugStat.cleanedRows stat = length (MonthObj.trips month) /\
  (DebugStat.cleanedRows stat <= DebugStat.rawRows stat)%nat /\
  (forall row, row ∈ rows -> cleanRow row = None ->
               (DebugStat.cleanedRows stat < DebugStat.rawRows stat)%nat) /\
  (DebugStat.expectedPresent stat + length (DebugStat.missing stat) = 5)%nat /\
  (forall k, k ∈ DebugStat.missing stat <->
             k ∈ expected /\ k ∉ DebugStat.columns stat) /\
  (rows = [] ->
   DebugStat.rawRows stat = 0%nat /\ DebugStat.cleanedRows stat = 0%nat /\
   DebugStat.missing stat = expected /\ DebugStat.expectedPresent stat = 0%nat).
Proof.
  simpl. split; [done|].
  split; [apply length_omap_le|].
  split; [intros row Hin Hf; by apply (length_omap_lt cleanRow rows row)|].
  split.
  { match goal with |- (_ - length ?m + _)%nat = _ =>
      pose proof (length_filter (fun k => k ∉ match rows with
                                                | [] => []
                                                | row0 :: _ => (map_to_list row0).*1
                                                end) expected) as H
    end.
    change (length expected) with 5%nat in *. lia. }
  split; [intros k; rewrite list_elem_of_filter; tauto|].
  intros ->. simpl. repeat split.
Qed.

(** ** Cache contents *)

Lemma init_table_cell {X} (fresh v : X) mem mk :
  cell (init_table fresh) mem mk = Some v -> v = fresh.
Proof.
  unfold cell. intros H.
  destruct (init_table fresh !! mem) as [row|] eqn:Er; [simpl in H|done].
  unfold init_table in Er. simpl in Er.
  repeat (apply lookup_insert_Some in Er as [[_ <-]|[_ Er]];
          [simpl in H;
           repeat (apply lookup_insert_Some in H as [[_ H]|[_ H]]; [done|]);
           by rewrite lookup_empty in H|]).
  by rewrite lookup_empty in Er.
Qed.

(** A quantity of a cell that every trip moves by [d trip] ends as the sum
    of [d] over the trips sent into the cell. *)
Section Measure.
Variable mu : JsMap.t Rec.t -> gmap string (JsMap.t Z) -> Z.
Variable d : Trip.t -> Z.
Hypothesis mu_step : forall t agg rts,
  tripOk t -> mu (tripStations t agg) (tripRoute t rts) = mu agg rts + d t.
Hypothesis mu_init : mu JsMap.empty ∅ = 0.

Lemma processTrip_measured mm trip c c' mem mk n :
  wfCaches c -> monthOk mm -> tripOk trip ->
  processTrip mm trip c = Some c' ->
  measured mu c mem mk n ->
  measured mu c' mem mk (n + (if applies trip mm mem mk then d trip else 0)).
Proof.
  intros Hwf Hmm Hok E (agg & rts & Ha & Hr & Hmu).
  destruct (processTrip_spec mm trip c Hwf Hmm) as (c2 & E2 & _ & Hcell).
  rewrite E in E2. injection E2 as <-.
  destruct (Hcell mem mk) as [H1 H2]. rewrite Ha in H1. rewrite Hr in H2.
  destruct (applies trip mm mem mk); simpl in *.
  - exists (tripStations trip agg), (tripRoute trip rts).
    split; [done|]. split; [done|]. rewrite mu_step by done. lia.
  - exists agg, rts. split; [done|]. split; [done|]. lia.
Qed.

Lemma processMonth_measured mo c :
  wfCaches c -> cleanMonth mo ->
  exists c',
    processMonth mo c = Some c' /\ wfCaches c' /\
    forall mem mk n,
      measured mu c mem mk n ->
      measured mu c' mem mk
        (n + sumZ (map (fun t => if applies t (MonthObj.mm mo) mem mk then d t else 0)
                       (MonthObj.trips mo))).
Proof.
  intros Hwf [Hmm Hts]. unfold processMonth.
  revert c Hwf. induction Hts as [|t ts Ht Hts IH]; intros c Hwf; simpl.
  - exists c. split; [done|]. split; [done|].
    intros mem mk n Hb. by replace (n + 0) with n by lia.
  - destruct (processTrip_spec (MonthObj.mm mo) t c Hwf Hmm) as (c1 & E1 & W1 & _).
    rewrite E1. simpl.
    destruct (IH c1 W1) as (c2 & E2 & W2 & H2).
    exists c2. split; [done|]. split; [done|].
    intros mem mk n Hb.
    pose proof (processTrip_measured _ _ _ _ mem mk n Hwf Hmm Ht E1 Hb) as Hb1.
    apply H2 in Hb1. by rewrite Z.add_assoc.
Qed.

Lemma for_each_months_measured allData c :
  wfCaches c -> cleanData allData ->
  exists c',
    for_each processMonth allData c = Some c' /\ wfCaches c' /\
    forall mem mk n,
      measured mu c mem mk n -> measured mu c' mem mk (n + sumOver d allData mem mk).
Proof.
  intros Hwf Hclean. unfold sumOver.
  revert c Hwf. induction Hclean as [|mo mos Hmo Hmos IH]; intros c Hwf; simpl.
  - exists c. split; [done|]. split; [done|].
    intros mem mk n Hb. by replace (n + 0) with n by lia.
  - destruct (processMonth_measured mo c Hwf Hmo) as (c1 & E1 & W1 & H1).
    rewrite E1. simpl.
    destruct (IH c1 W1) as (c2 & E2 & W2 & H2).
    exists c2. split; [done|]. split; [done|].
    intros mem mk n Hb. apply H1, H2 in Hb. by rewrite Z.add_assoc.
Qed.

Lemma buildCaches_measured allData c mem mk :
  cleanData allData -> buildCaches allData = Some c ->
  mem ∈ members -> mk ∈ months ->
  measured mu c mem mk (sumOver d allData mem mk).
Proof.
  intros Hclean E Hm Hk. unfold buildCaches in E.
  destruct (for_each_months_measured allData initCaches initCaches_wf Hclean)
    as (c' & E' & _ & H).
  rewrite E in E'. injection E' as <-.
  apply (H mem mk 0).
  destruct (initCaches_wf) as [W1 W2].
  destruct (W1 mem mk Hm Hk) as [agg Ha]. destruct (W2 mem mk Hm Hk) as [rts Hr].
  exists agg, rts. split; [done|]. split; [done|].
  apply init_table_cell in Ha as ->. apply init_table_cell in Hr as ->. done.
Qed.
End Measure.

Lemma startOf_tripStations x trip agg :
  tripOk trip ->
  startOf x (tripStations trip agg)
  = startOf x agg + ind (bool_decide (x = Trip.start_station_name trip)).
Proof.
  intros Hok. unfold startOf. case_bool_decide as Hx; simpl.
  - subst x. by apply tripStations_start.
  - destruct Hok as [Hs He]. unfold tripStations.
    destruct (decide (x = Trip.end_station_name trip)) as [->|Hxe].
    + destruct (get_updateStation_end
                  (updateStation agg (Trip.start_station_name trip) "start") _ He)
        as (r & -> & Hr & _).
      simpl. rewrite Hr, get_updateStation by done. lia.
    + rewrite !get_updateStation by done. lia.
Qed.

Lemma endOf_tripStations x trip agg :
  tripOk trip ->
  endOf x (tripStations trip agg)
  = endOf x agg + ind (bool_decide (x = Trip.end_station_name trip)).
Proof.
  intros Hok. unfold endOf. case_bool_decide as Hx; simpl.
  - subst x. by apply tripStations_end.
  - destruct Hok as [Hs He]. unfold tripStations.
    rewrite get_updateStation by done.
    destruct (decide (x = Trip.start_station_name trip)) as [->|Hxs].
    + destruct (get_updateStation_start agg _ Hs) as (r & -> & _ & Hr).
      simpl. rewrite Hr. lia.
    + rewrite get_updateStation by done. lia.
Qed.

Lemma sumZ_values_set k v (m : JsMap.t Z) :
  sumZ (JsMap.values (JsMap.set k v m))
  = sumZ (JsMap.values m) - or0 (JsMap.get k m) + v.
Proof.
  pose proof (sumZ_set (fun z : Z => z) k v m) as H.
  rewrite !map_id in H. rewrite H. unfold or0. by destruct (JsMap.get k m).
Qed.

Lemma outSum_tripRoute x trip rts :
  outSum x (tripRoute trip rts)
  = outSum x rts + ind (bool_decide (x = Trip.start_station_name trip)).
Proof.
  unfold outSum, tripRoute, bumpRoute. case_bool_decide as Hx; simpl.
  - subst x. rewrite lookup_insert_eq. simpl. rewrite sumZ_values_set. lia.
  - rewrite lookup_insert_ne by done. lia.
Qed.

Lemma routeOf_tripRoute x y trip rts :
  routeOf x y (tripRoute trip rts)
  = routeOf x y rts
    + ind (bool_decide (x = Trip.start_station_name trip)
           && bool_decide (y = Trip.end_station_name trip)).
Proof.
  unfold routeOf, tripRoute, bumpRoute. case_bool_decide as Hx; simpl.
  - subst x. rewrite lookup_insert_eq. simpl.
    case_bool_decide as Hy; simpl.
    + subst y. rewrite get_set_eq. simpl. destruct (rts !! _); simpl; lia.
    + rewrite get_set_ne by done. destruct (rts !! _); simpl; lia.
  - rewrite lookup_insert_ne by done. lia.
Qed.

Lemma mapsum_insert (g : JsMap.t Z -> Z) (o : gmap string (JsMap.t Z)) s m' :
  map_fold (fun _ m acc => g m + acc) 0 (<[s := m']> o)
  = map_fold (fun _ m acc => g m + acc) 0 o - from_option g 0 (o !! s) + g m'.
Proof.
  assert (forall (o1 : gmap string (JsMap.t Z)) x,
            o1 !! s = None ->
            map_fold (fun _ m acc => g m + acc) 0 (<[s := x]> o1)
            = g x + map_fold (fun _ m acc => g m + acc) 0 o1) as Fresh.
  { intros o1 x Hnone.
    rewrite (map_fold_insert_L (fun _ m acc => g m + acc)); [done| |done].
    intros; lia. }
  destruct (o !! s) as [m0|] eqn:E; simpl.
  - rewrite <- (insert_delete_eq o).
    rewrite <- (insert_delete_id o s m0 E) at 2.
    rewrite !Fresh by apply lookup_delete_eq. lia.
  - rewrite Fresh by done. lia.
Qed.

Lemma inSum_tripRoute x trip rts :
  inSum x (tripRoute trip rts)
  = inSum x rts + ind (bool_decide (x = Trip.end_station_name trip)).
Proof.
  unfold inSum, tripRoute, bumpRoute.
  rewrite (mapsum_insert (fun m => or0 (JsMap.get x m))).
  case_bool_decide as Hx; simpl.
  - subst x. rewrite get_set_eq. destruct (rts !! _); simpl; lia.
  - rewrite get_set_ne by done. destruct (rts !! _); simpl; lia.
Qed.

Lemma sumOver_zero allData mem mk : sumOver (fun _ => 0) allData mem mk = 0.
Proof.
  unfold sumOver. induction allData as [|mo mos IH]; simpl; [done|].
  rewrite IH. induction (MonthObj.trips mo) as [|t ts IHt]; simpl; [done|].
  destruct (applies _ _ _ _); lia.
Qed.

Lemma buildCaches_cells allData c mem mk :
  cleanData allData -> buildCaches allData = Some c ->
  mem ∈ members -> mk ∈ months ->
  exists agg rts,
    cell (c_stationAgg c) mem mk = Some agg /\
    cell (c_endRoutes c) mem mk = Some rts.
Proof.
  intros Hclean E Hm Hk.
  destruct (buildCaches_measured (fun _ _ => 0) (fun _ => 0)
              ltac:(intros; simpl; lia) eq_refl allData c mem mk Hclean E Hm Hk)
    as (agg & rts & Ha & Hr & _).
  by exists agg, rts.
Qed.

(** X4.  The two caches agree station by station.  For validated input, in
    every cell of the built caches, a station's [start] counter equals the
    sum of the route counts leaving it, and its [end] counter equals the
    sum of the route counts arriving at it. *)
Theorem X4_station_and_route_counts_agree (allData : list MonthObj.t) (c : Caches)
    (mem mk : string) :
  cleanData allData -> buildCaches allData = Some c ->
  mem ∈ members -> mk ∈ months ->
  exists agg rts,
    cell (c_stationAgg c) mem mk = Some agg /\
    cell (c_endRoutes c) mem mk = Some rts /\
    forall x, startOf x agg = outSum x rts /\ endOf x agg = inSum x rts.
Proof.
  intros Hclean E Hm Hk.
  destruct (buildCaches_cells allData c mem mk Hclean E Hm Hk) as (agg & rts & Ha & Hr).
  exists agg, rts. split; [done|]. split; [done|].
  intros x. split.
  - destruct (buildCaches_measured (fun a r => startOf x a - outSum x r) (fun _ => 0)
                ltac:(intros; simpl; rewrite startOf_tripStations, outSum_tripRoute by done; lia)
                eq_refl allData c mem mk Hclean E Hm Hk)
      as (agg' & rts' & Ha' & Hr' & Hmu).
    rewrite Ha in Ha'. rewrite Hr in Hr'. injection Ha' as <-. injection Hr' as <-.
    rewrite sumOver_zero in Hmu. lia.
  - destruct (buildCaches_measured (fun a r => endOf x a - inSum x r) (fun _ => 0)
                ltac:(intros; simpl; rewrite endOf_tripStations, inSum_tripRoute by done; lia)
                eq_refl allData c mem mk Hclean E Hm Hk)
      as (agg' & rts' & Ha' & Hr' & Hmu).
    rewrite Ha in Ha'. rewrite Hr in Hr'. injection Ha' as <-. injection Hr' as <-.
    rewrite sumOver_zero in Hmu. lia.
Qed.

Lemma dataEx_clean : cleanData dataEx.
Proof.
  constructor; [|constructor]. split.
  - split; [unfold months; in_list|done].
  - repeat (constructor; [by split|]). constructor.
Qed.

Lemma cachesEx_built : buildCaches dataEx = Some cachesEx.
Proof. vm_compute. reflexivity. Qed.

Lemma X4_station_and_route_counts_agree_witness :
  cleanData dataEx /\ buildCaches dataEx = Some cachesEx /\
  "All" ∈ members /\ "All" ∈ months /\
  exists agg rts,
    cell (c_stationAgg cachesEx) "All" "All" = Some agg /\
    cell (c_endRoutes cachesEx) "All" "All" = Some rts /\
    startOf "A" agg = outSum "A" rts /\ endOf "A" agg = inSum "A" rts.
Proof.
  assert ("All" ∈ members) as Hm by (unfold members; in_list).
  assert ("All" ∈ months) as Hk by (unfold months; in_list).
  split; [exact dataEx_clean|]. split; [exact cachesEx_built|].
  split; [exact Hm|]. split; [exact Hk|].
  destruct (X4_station_and_route_counts_agree dataEx cachesEx "All" "All"
              dataEx_clean cachesEx_built Hm Hk) as (agg & rts & Ha & Hr & H).
  exists agg, rts. split; [exact Ha|]. split; [exact Hr|]. exact (H "A").
Defined.

Lemma counts_are_sums allData c mem mk x y :
  cleanData allData -> buildCaches allData = Some c ->
  mem ∈ members -> mk ∈ months ->
  start_count c mem mk x = sumOver (fromStation x) allData mem mk /\
  end_count c mem mk x = sumOver (toStation x) allData mem mk /\
  route_count c mem mk x y = sumOver (onRoute x y) allData mem mk.
Proof.
  intros Hclean E Hm Hk.
  destruct (buildCaches_cells allData c mem mk Hclean E Hm Hk) as (agg & rts & Ha & Hr).
  unfold start_count, end_count, route_count, stationRec. rewrite Ha, Hr. simpl.
  split; [|split].
  - destruct (buildCaches_measured (fun a _ => startOf x a) (fromStation x)
                ltac:(intros; simpl; by apply startOf_tripStations)
                eq_refl allData c mem mk Hclean E Hm Hk)
      as (agg' & rts' & Ha' & Hr' & Hmu).
    rewrite Ha in Ha'. injection Ha' as <-. exact Hmu.
  - destruct (buildCaches_measured (fun a _ => endOf x a) (toStation x)
                ltac:(intros; simpl; by apply endOf_tripStations)
                eq_refl allData c mem mk Hclean E Hm Hk)
      as (agg' & rts' & Ha' & Hr' & Hmu).
    rewrite Ha in Ha'. injection Ha' as <-. exact Hmu.
  - destruct (buildCaches_measured (fun _ r => routeOf x y r) (onRoute x y)
                ltac:(intros; simpl; by apply routeOf_tripRoute)
                eq_refl allData c mem mk Hclean E Hm Hk)
      as (agg' & rts' & Ha' & Hr' & Hmu).
    rewrite Hr in Hr'. injection Hr' as <-. exact Hmu.
Qed.

(** X5.  What the built caches hold.  For validated input and every cell,
    a station's [start] counter is the number of trips sent into the cell
    that leave the station, its [end] counter the number that arrive at it,
    and a route count the number of trips on that route; stations and
    routes without such a trip read 0. *)
Theorem X5_counts_are_trip_counts (allData : list MonthObj.t) (c : Caches)
    (mem mk x y : string) :
  cleanData allData -> buildCaches allData = Some c ->
  mem ∈ members -> mk ∈ months ->
  start_count c mem mk x = sumOver (fromStation x) allData mem mk /\
  end_count c mem mk x = sumOver (toStation x) allData mem mk /\
  route_count c mem mk x y = sumOver (onRoute x y) allData mem mk.
Proof. apply counts_are_sums. Qed.

Lemma X5_counts_are_trip_counts_witness :
  cleanData dataEx /\ buildCaches dataEx = Some cachesEx /\
  "Annual" ∈ members /\ "01" ∈ months /\
  start_count cachesEx "Annual" "01" "A" = 3 /\
  end_count cachesEx "Annual" "01" "A" = 1 /\
  route_count cachesEx "Annual" "01" "A" "B" = 3.
Proof.
  assert ("Annual" ∈ members) as Hm by (unfold members; in_list).
  assert ("01" ∈ months) as Hk by (unfold months; in_list).
  split; [exact dataEx_clean|]. split; [exact cachesEx_built|].
  split; [exact Hm|]. split; [exact Hk|].
  exact (X5_counts_are_trip_counts dataEx cachesEx "Annual" "01" "A" "B"
           dataEx_clean cachesEx_built Hm Hk).
Defined.

Lemma sumZ_map_add {A} (f g : A -> Z) (l : list A) :
  sumZ (map (fun a => f a + g a) l) = sumZ (map f l) + sumZ (map g l).
Proof. induction l as [|a l IH]; simpl; lia. Qed.

Lemma sumZ_map_ext {A} (f g : A -> Z) (l : list A) :
  (forall a, a ∈ l -> f a = g a) -> sumZ (map f l) = sumZ (map g l).
Proof.
  induction l as [|a l IH]; intros H; simpl; [done|].
  rewrite (H a) by apply list_elem_of_here.
  rewrite IH; [done|]. intros b Hb. apply H. by apply list_elem_of_further.
Qed.

Lemma sumZ_map_swap {A B} (f : A -> B -> Z) (la : list A) (lb : list B) :
  sumZ (map (fun a => sumZ (map (fun b => f a b) lb)) la)
  = sumZ (map (fun b => sumZ (map (fun a => f a b) la)) lb).
Proof.
  induction la as [|a la IH]; simpl.
  - induction lb as [|b lb IHb]; simpl; lia.
  - rewrite IH. by rewrite <- sumZ_map_add.
Qed.

Lemma applies_month_split t mm mem v :
  monthOk mm ->
  (if applies t mm mem "All" then v else 0)
  = sumZ (map (fun mk => if applies t mm mem mk then v else 0) (tail months)).
Proof.
  intros [Hin Hne]. unfold applies.
  destruct (bool_decide (mem ∈ applyMembers t)).
  2:{ simpl. lia. }
  unfold months in Hin.
  repeat (apply elem_of_cons in Hin as [->|Hin]; [try done; simpl; lia|]).
  by apply elem_of_nil in Hin.
Qed.

Lemma sumOver_months d allData mem :
  cleanData allData ->
  sumOver d allData mem "All"
  = sumZ (map (fun mk => sumOver d allData mem mk) (tail months)).
Proof.
  intros Hclean. unfold sumOver.
  rewrite <- (sumZ_map_swap
    (fun mo mk => sumZ (map (fun t => if applies t (MonthObj.mm mo) mem mk then d t else 0)
                            (MonthObj.trips mo)))).
  apply sumZ_map_ext. intros mo Hmo.
  rewrite <- (sumZ_map_swap
    (fun t mk => if applies t (MonthObj.mm mo) mem mk then d t else 0)).
  apply sumZ_map_ext. intros t _.
  apply applies_month_split.
  unfold cleanData in Hclean. rewrite Forall_forall in Hclean.
  by destruct (Hclean mo Hmo).
Qed.

Lemma applies_member_split t mm mk v :
  (if applies t mm "All" mk then v else 0)
  = (if applies t mm "Annual" mk then v else 0)
    + (if applies t mm "Casual" mk then v else 0)
    + (if applies t mm "All" mk
       then (if String.eqb (memberBucket t) "Other" then v else 0) else 0).
Proof.
  unfold applies, applyMembers, memberBucket.
  destruct (String.eqb mk "All" || String.eqb mk mm);
    destruct (String.eqb (Trip.member_type t) "Annual");
    destruct (String.eqb (Trip.member_type t) "Casual"); simpl; lia.
Qed.

Lemma sumOver_members d allData mk :
  sumOver d allData "All" mk
  = sumOver d allData "Annual" mk + sumOver d allData "Casual" mk
    + sumOver (otherOnly d) allData "All" mk.
Proof.
  unfold sumOver. rewrite <- !sumZ_map_add.
  apply sumZ_map_ext. intros mo _.
  rewrite <- !sumZ_map_add.
  apply sumZ_map_ext. intros t _.
  apply applies_member_split.
Qed.

Lemma sumOver_nonneg d allData mem mk :
  (forall t, 0 <= d t) -> 0 <= sumOver d allData mem mk.
Proof.
  intros Hd. unfold sumOver.
  induction allData as [|mo rest IH]; simpl; [lia|].
  assert (0 <= sumZ (map (fun t => if applies t (MonthObj.mm mo) mem mk then d t else 0)
                         (MonthObj.trips mo))) as H.
  { induction (MonthObj.trips mo) as [|t ts IHt]; simpl; [lia|].
    specialize (Hd t). destruct (applies t _ _ _); lia. }
  lia.
Qed.

(** X6.  The year cell is the sum of its month cells.  For validated input
    and every member filter, each station's [start] and [end] counters and
    each route count in month ['All'] equal the sums of the same counters
    over the twelve month cells ['01'] .. ['12']. *)
Theorem X6_year_is_sum_of_months (allData : list MonthObj.t) (c : Caches)
    (mem x y : string) :
  cleanData allData -> buildCaches allData = Some c -> mem ∈ members ->
  start_count c mem "All" x
    = sumZ (map (fun mk => start_count c mem mk x) (tail months)) /\
  end_count c mem "All" x
    = sumZ (map (fun mk => end_count c mem mk x) (tail months)) /\
  route_count c mem "All" x y
    = sumZ (map (fun mk => route_count c mem mk x y) (tail months)).
Proof.
  intros Hclean E Hm.
  assert ("All" ∈ months) as Hall by (unfold months; in_list).
  destruct (counts_are_sums allData c mem "All" x y Hclean E Hm Hall) as (Hs & He & Hr).
  rewrite Hs, He, Hr, !sumOver_months by done.
  split; [|split]; apply sumZ_map_ext; intros mk Hmk; symmetry;
    (assert (mk ∈ months) as Hk by (unfold months; by apply list_elem_of_further));
    by destruct (counts_are_sums allData c mem mk x y Hclean E Hm Hk) as (? & ? & ?).
Qed.

Lemma X6_year_is_sum_of_months_witness :
  cleanData dataEx /\ buildCaches dataEx = Some cachesEx /\ "All" ∈ members /\
  start_count cachesEx "All" "All" "A"
    = sumZ (map (fun mk => start_count cachesEx "All" mk "A") (tail months)).
Proof.
  assert ("All" ∈ members) as Hm by (unfold members; in_list).
  split; [exact dataEx_clean|]. split; [exact cachesEx_built|]. split; [exact Hm|].
  exact (proj1 (X6_year_is_sum_of_months dataEx cachesEx "All" "A" "B"
                  dataEx_clean cachesEx_built Hm)).
Defined.

(** X7.  The 'All' member cell splits by member type.  For validated input
    and every month key, a counter under member filter ['All'] is the sum
    of the same counter under ['Annual'] and under ['Casual'] plus the
    trips of any other member type; so it is never below the sum of the
    two, and equals it when every trip is Annual or Casual. *)
Theorem X7_all_is_sum_of_member_types (allData : list MonthObj.t) (c : Caches)
    (mk x y : string) :
  cleanData allData -> buildCaches allData = Some c -> mk ∈ months ->
  start_count c "All" mk x
    = start_count c "Annual" mk x + start_count c "Casual" mk x
      + sumOver (otherOnly (fromStation x)) allData "All" mk /\
  end_count c "All" mk x
    = end_count c "Annual" mk x + end_count c "Casual" mk x
      + sumOver (otherOnly (toStation x)) allData "All" mk /\
  route_count c "All" mk x y
    = route_count c "Annual" mk x y + route_count c "Casual" mk x y
      + sumOver (otherOnly (onRoute x y)) allData "All" mk /\
  start_count c "Annual" mk x + start_count c "Casual" mk x
    <= start_count c "All" mk x.
Proof.
  intros Hclean E Hk.
  assert ("All" ∈ members) as H1 by (unfold members; in_list).
  assert ("Annual" ∈ members) as H2 by (unfold members; in_list).
  assert ("Casual" ∈ members) as H3 by (unfold members; in_list).
  destruct (counts_are_sums allData c "All" mk x y Hclean E H1 Hk) as (Hs1 & He1 & Hr1).
  destruct (counts_are_sums allData c "Annual" mk x y Hclean E H2 Hk) as (Hs2 & He2 & Hr2).
  destruct (counts_are_sums allData c "Casual" mk x y Hclean E H3 Hk) as (Hs3 & He3 & Hr3).
  rewrite Hs1, He1, Hr1, Hs2, He2, Hr2, Hs3, He3, Hr3.
  split; [apply sumOver_members|]. split; [apply sumOver_members|].
  split; [apply sumOver_members|].
  rewrite (sumOver_members (fromStation x)).
  assert (0 <= sumOver (otherOnly (fromStation x)) allData "All" mk); [|lia].
  apply sumOver_nonneg. intros t. unfold otherOnly, fromStation, ind.
  destruct (String.eqb _ _); [|lia]. destruct (bool_decide _); lia.
Qed.

Lemma X7_all_is_sum_of_member_types_witness :
  cleanData dataEx /\ buildCaches dataEx = Some cachesEx /\ "01" ∈ months /\
  start_count cachesEx "Annual" "01" "A" + start_count cachesEx "Casual" "01" "A"
    <= start_count cachesEx "All" "01" "A".
Proof.
  assert ("01" ∈ months) as Hk by (unfold months; in_list).
  split; [exact dataEx_clean|]. split; [exact cachesEx_built|]. split; [exact Hk|].
  exact (proj2 (proj2 (proj2 (X7_all_is_sum_of_member_types dataEx cachesEx "01" "A" "B"
                  dataEx_clean cachesEx_built Hk)))).
Defined.

(** ** When [buildCaches] throws *)

Lemma with_cell_Some_cell {X} (tbl tbl' : gmap string (gmap string X)) mem mk f :
  with_cell tbl mem mk f = Some tbl' -> is_Some (cell tbl mem mk).
Proof.
  unfold with_cell, cell. destruct (tbl !! mem); simpl; [|done].
  destruct (_ !! mk); [eauto|done].
Qed.

Lemma with_cell_dom {X} (tbl tbl' : gmap string (gmap string X)) mem mk f mem' mk' :
  with_cell tbl mem mk f = Some tbl' ->
  cell tbl mem' mk' = None -> cell tbl' mem' mk' = None.
Proof.
  intros E Hn.
  destruct (with_cell_spec tbl mem mk f (with_cell_Some_cell _ _ _ _ _ E))
    as (t2 & E2 & Hcell).
  rewrite E in E2. injection E2 as <-. rewrite Hcell, Hn.
  by destruct (bool_decide _).
Qed.

Lemma with_cell_None {X} (tbl : gmap string (gmap string X)) mem mk f :
  cell tbl mem mk = None -> with_cell tbl mem mk f = None.
Proof.
  unfold with_cell, cell. destruct (tbl !! mem); simpl; [|done].
  by intros ->.
Qed.

Lemma accumulate_noColumn mm trip mem c c' mk :
  accumulate mm trip mem c = Some c' -> noColumn c mk -> noColumn c' mk.
Proof.
  unfold accumulate. intros E Hn mem'.
  destruct (with_cell (c_stationAgg c) mem "All" _) as [sa1|] eqn:E1; [simpl in E|done].
  destruct (with_cell sa1 mem "All" _) as [sa2|] eqn:E2; [simpl in E|done].
  destruct (with_cell sa2 mem mm _) as [sa3|] eqn:E3; [simpl in E|done].
  destruct (with_cell sa3 mem mm _) as [sa4|] eqn:E4; [simpl in E|done].
  destruct (with_cell (c_endRoutes c) mem "All" _) as [er1|] eqn:E5; [simpl in E|done].
  destruct (with_cell er1 mem mm _) as [er2|] eqn:E6; [simpl in E|done].
  injection E as <-. simpl.
  eapply with_cell_dom; [exact E4|]. eapply with_cell_dom; [exact E3|].
  eapply with_cell_dom; [exact E2|]. eapply with_cell_dom; [exact E1|].
  apply Hn.
Qed.

Lemma accumulate_throws mm trip mem c :
  noColumn c mm -> accumulate mm trip mem c = None.
Proof.
  unfold accumulate. intros Hn.
  destruct (with_cell (c_stationAgg c) mem "All" _) as [sa1|] eqn:E1; [simpl|done].
  destruct (with_cell sa1 mem "All" _) as [sa2|] eqn:E2; [simpl|done].
  rewrite (with_cell_None sa2 mem mm); [reflexivity|].
  eapply with_cell_dom; [exact E2|]. eapply with_cell_dom; [exact E1|]. apply Hn.
Qed.

Lemma with_cell_total {X} (tbl : gmap string (gmap string X)) mem mk f :
  wfTable tbl -> mem ∈ members -> mk ∈ months ->
  exists tbl', with_cell tbl mem mk f = Some tbl' /\ wfTable tbl'.
Proof.
  intros W Hm Hk.
  destruct (with_cell_spec tbl mem mk f (W _ _ Hm Hk)) as (t & E & _).
  exists t. split; [exact E|]. exact (with_cell_wf _ _ _ _ _ W E).
Qed.

Lemma accumulate_total mm trip mem c :
  wfCaches c -> mem ∈ members -> mm ∈ months ->
  exists c', accumulate mm trip mem c = Some c' /\ wfCaches c'.
Proof.
  intros [W1 W2] Hm Hk. unfold accumulate.
  assert ("All" ∈ months) as Hall by (unfold months; in_list).
  destruct (with_cell_total (c_stationAgg c) mem "All"
              (fun m => updateStation m (Trip.start_station_name trip) "start")
              W1 Hm Hall) as (sa1 & -> & Wa1). simpl.
  destruct (with_cell_total sa1 mem "All"
              (fun m => updateStation m (Trip.end_station_name trip) "end")
              Wa1 Hm Hall) as (sa2 & -> & Wa2). simpl.
  destruct (with_cell_total sa2 mem mm
              (fun m => updateStation m (Trip.start_station_name trip) "start")
              Wa2 Hm Hk) as (sa3 & -> & Wa3). simpl.
  destruct (with_cell_total sa3 mem mm
              (fun m => updateStation m (Trip.end_station_name trip) "end")
              Wa3 Hm Hk) as (sa4 & -> & Wa4). simpl.
  destruct (with_cell_total (c_endRoutes c) mem "All"
              (bumpRoute (Trip.start_station_name trip) (Trip.end_station_name trip))
              W2 Hm Hall) as (er1 & -> & Wr1). simpl.
  destruct (with_cell_total er1 mem mm
              (bumpRoute (Trip.start_station_name trip) (Trip.end_station_name trip))
              Wr1 Hm Hk) as (er2 & -> & Wr2). simpl.
  eexists. split; [reflexivity|]. by split.
Qed.

Lemma for_each_total {A S} (body : A -> S -> option S) (P : S -> Prop) (Q : A -> Prop)
    (l : list A) (s : S) :
  (forall x s, Q x -> P s -> exists s', body x s = Some s' /\ P s') ->
  Forall Q l -> P s -> exists s', for_each body l s = Some s' /\ P s'.
Proof.
  intros Hb Hl. revert s. induction Hl as [|x l Hx Hl IH]; intros s Hs; simpl.
  - by exists s.
  - destruct (Hb x s Hx Hs) as (s1 & -> & H1). simpl. by apply IH.
Qed.

Lemma for_each_preserves {A S} (body : A -> S -> option S) (P : S -> Prop)
    (l : list A) (s s' : S) :
  (forall x s s', body x s = Some s' -> P s -> P s') ->
  for_each body l s = Some s' -> P s -> P s'.
Proof.
  intros Hb. revert s. induction l as [|x l IH]; intros s E Hs; simpl in E.
  - by injection E as <-.
  - destruct (body x s) as [s1|] eqn:E1; [simpl in E|done].
    apply (IH s1 E). by apply (Hb x s s1).
Qed.

Lemma processTrip_total mm trip c :
  wfCaches c -> mm ∈ months ->
  exists c', processTrip mm trip c = Some c' /\ wfCaches c'.
Proof.
  intros W Hk. unfold processTrip.
  apply (for_each_total _ wfCaches (fun mem => mem ∈ members)); [|
    apply Forall_forall; intros mem; apply applyMembers_members|exact W].
  intros mem s Hm Ws. by apply accumulate_total.
Qed.

Lemma processTrip_noColumn mm trip c c' mk :
  processTrip mm trip c = Some c' -> noColumn c mk -> noColumn c' mk.
Proof.
  unfold processTrip. apply (for_each_preserves _ (fun c => noColumn c mk)).
  intros mem s s'. apply accumulate_noColumn.
Qed.

Lemma processTrip_throws mm trip c : noColumn c mm -> processTrip mm trip c = None.
Proof.
  intros Hn. unfold processTrip.
  destruct (applyMembers_cases trip) as [[_ ->]|[[_ ->]|(_ & _ & ->)]]; simpl;
    by rewrite accumulate_throws.
Qed.

Lemma processMonth_noColumn mo c c' mk :
  processMonth mo c = Some c' -> noColumn c mk -> noColumn c' mk.
Proof.
  unfold processMonth. apply (for_each_preserves _ (fun c => noColumn c mk)).
  intros t s s'. apply processTrip_noColumn.
Qed.

Lemma processMonth_total mo c :
  wfCaches c -> monthFits mo ->
  exists c', processMonth mo c = Some c' /\ wfCaches c'.
Proof.
  intros W [Hnil|Hk]; unfold processMonth.
  - rewrite Hnil. by exists c.
  - apply (for_each_total _ wfCaches (fun _ => True)); [|by apply Forall_true|exact W].
    intros t s _ Ws. by apply processTrip_total.
Qed.

Lemma processMonth_throws mo c :
  noColumn c (MonthObj.mm mo) -> MonthObj.trips mo <> [] -> processMonth mo c = None.
Proof.
  intros Hn Hne. unfold processMonth.
  destruct (MonthObj.trips mo) as [|t ts]; [done|]. simpl.
  by rewrite processTrip_throws.
Qed.

Lemma initCaches_noColumn mk : mk ∉ months -> noColumn initCaches mk.
Proof.
  intros Hk mem. destruct (cell _ mem mk) as [v|] eqn:E; [|done].
  exfalso. apply Hk. revert E. unfold cell, initCaches. simpl.
  destruct (init_table JsMap.empty !! mem) as [row|] eqn:Er; [simpl|done].
  intros H. unfold init_table in Er. simpl in Er.
  repeat (apply lookup_insert_Some in Er as [[_ <-]|[_ Er]];
          [repeat (apply lookup_insert_Some in H as [[<- _]|[_ H]];
                   [unfold months; in_list|]);
           by rewrite lookup_empty in H|]).
  by rewrite lookup_empty in Er.
Qed.

Lemma for_each_months_fits allData c c' :
  (forall mk, mk ∉ months -> noColumn c mk) ->
  for_each processMonth allData c = Some c' -> Forall monthFits allData.
Proof.
  revert c. induction allData as [|mo mos IH]; intros c Hn E; [constructor|].
  simpl in E. destruct (processMonth mo c) as [c1|] eqn:E1; [simpl in E|done].
  constructor.
  - destruct (decide (MonthObj.mm mo ∈ months)) as [Hk|Hk]; [by right|left].
    destruct (MonthObj.trips mo) as [|t ts] eqn:Et; [done|].
    rewrite processMonth_throws in E1; [done|by apply Hn|by rewrite Et].
  - apply (IH c1); [|exact E]. intros mk Hk.
    apply (processMonth_noColumn mo c c1 mk E1). by apply Hn.
Qed.

(** X8.  When the accumulation loop throws.  [buildCaches] completes
    exactly when every month object that holds at least one trip carries a
    month key of the grid (['All'], ['01'] .. ['12']); a single trip under
    any other key makes the dereference of the missing cell throw.  When it
    completes, all 3 x 13 cells of both caches exist. *)
Theorem X8_buildCaches_throws_on_unknown_month (allData : list MonthObj.t) :
  (is_Some (buildCaches allData) <-> Forall monthFits allData) /\
  (forall c, buildCaches allData = Some c -> wfCaches c).
Proof.
  assert (Forall monthFits allData ->
          exists c, buildCaches allData = Some c /\ wfCaches c) as Htot.
  { intros Hf. unfold buildCaches.
    apply (for_each_total _ wfCaches monthFits); [|exact Hf|exact initCaches_wf].
    intros mo s Hmo Ws. by apply processMonth_total. }
  assert (forall c, buildCaches allData = Some c -> Forall monthFits allData) as Hfit.
  { intros c E. apply (for_each_months_fits allData initCaches c); [|exact E].
    apply initCaches_noColumn. }
  split; [split|].
  - intros [c E]. by apply (Hfit c).
  - intros Hf. destruct (Htot Hf) as (c & E & _). by exists c.
  - intros c E. destruct (Htot (Hfit c E)) as (c2 & E2 & W).
    rewrite E in E2. by injection E2 as <-.
Qed.

(** ** The drawn graph *)

Lemma elem_of_included st a : a ∈ included st <-> a ∈ map Node.name (nodes st).
Proof. unfold included. apply elem_of_list_to_set. Qed.

Lemma elem_of_linksOf st src l :
  l ∈ linksOf st src ->
  Link.source l = Node.name src /\ Link.target l ∈ included st.
Proof.
  unfold linksOf. destruct (routes st !! Node.name src) as [m|]; [|by intros ?%elem_of_nil].
  intros Hl. apply list_elem_of_fmap in Hl as (tc & -> & Htc).
  apply list_elem_of_filter in Htc as [Hin _]. by split.
Qed.

Lemma linksRaw_endpoints st l :
  l ∈ linksRaw st ->
  Link.source l ∈ map Node.name (nodes st) /\
  Link.target l ∈ map Node.name (nodes st).
Proof.
  unfold linksRaw. rewrite list_elem_of_In, in_flat_map.
  intros (src & Hsrc & Hl). apply list_elem_of_In in Hsrc, Hl.
  apply elem_of_linksOf in Hl as [-> Ht].
  split; [|by apply elem_of_included].
  apply list_elem_of_fmap. by exists src.
Qed.

Lemma links_raw st l : l ∈ links st -> l ∈ linksRaw st.
Proof.
  unfold links. destruct (detailMode st); by intros [_ ?]%list_elem_of_filter.
Qed.

Lemma linksView_links st l : l ∈ linksView st -> l ∈ links st.
Proof.
  unfold linksView. destruct (negb (isDetail st) && hideLowNodes st); [|done].
  by intros [_ ?]%list_elem_of_filter.
Qed.

Lemma linksView_drawnEnds st l : l ∈ linksView st -> drawnEnds st l.
Proof.
  intros Hl. pose proof (linksView_links st l Hl) as Hl2.
  apply links_raw, linksRaw_endpoints in Hl2.
  revert Hl. unfold linksView, drawnEnds, nodesVis.
  destruct (negb (isDetail st) && hideLowNodes st) eqn:Hh; [|done].
  intros [[Hs Ht] _]%list_elem_of_filter.
  unfold keepNames, nodesVis in Hs, Ht. rewrite Hh in Hs, Ht.
  by rewrite elem_of_list_to_set in Hs, Ht.
Qed.

(** X9.  No dangling link.  In every state and every mode, both endpoints
    of every link handed to the renderer are names of nodes handed to it;
    the drawn links are candidate links, and the drawn nodes are among the
    (at most 60) selected ones. *)
Theorem X9_drawn_links_join_drawn_nodes (st : State) :
  Forall (drawnEnds st) (linksView st) /\
  linksView st ⊆ linksRaw st /\
  nodesVis st ⊆ nodes st /\
  (length (nodesVis st) <= MAX_NODES)%nat.
Proof.
  assert (nodesVis st ⊆ nodes st) as Hsub.
  { unfold nodesVis. destruct (negb (isDetail st) && hideLowNodes st); [|done].
    intros n. by intros [_ ?]%list_elem_of_filter. }
  assert (length (nodes st) <= MAX_NODES)%nat as Hlen.
  { unfold nodes. rewrite length_take. lia. }
  split; [|split; [|split]].
  - apply Forall_forall. apply linksView_drawnEnds.
  - intros l Hl. by apply links_raw, linksView_links.
  - exact Hsub.
  - unfold nodesVis. destruct (negb (isDetail st) && hideLowNodes st); [|done].
    pose proof (length_filter (fun n => Node.name n ∈ keep st) (nodes st)). lia.
Qed.

Lemma length_linksOf st src :
  ~ (isDetail st = true /\ selectedStation st = Some (Node.name src)) ->
  (length (linksOf st src) <= TOP_LINKS_PER_SOURCE)%nat.
Proof.
  intros Hno. unfold linksOf.
  destruct (routes st !! Node.name src) as [m|]; [|simpl; lia].
  rewrite length_fmap.
  assert (isDetail st && bool_decide (selectedStation st = Some (Node.name src)) = false)
    as ->.
  { destruct (isDetail st); [|done]. simpl.
    apply bool_decide_eq_false_2. naive_solver. }
  simpl.
  etrans; [apply length_filter|]. rewrite length_take. lia.
Qed.

Lemma length_flat_map_le {A B} (f : A -> list B) (l : list A) k :
  Forall (fun a => (length (f a) <= k)%nat) l ->
  (length (flat_map f l) <= k * length l)%nat.
Proof.
  induction 1 as [|a l Ha Hl IH]; simpl; [lia|].
  rewrite length_app. lia.
Qed.

(** X10.  Size of the overview graph.  Outside detail mode every selected
    node contributes at most 5 candidate links, so at most 300 candidate
    links exist and at most 300 links are drawn. *)
Theorem X10_overview_link_budget (st : State) :
  isDetail st = false ->
  Forall (fun n => (length (linksOf st n) <= TOP_LINKS_PER_SOURCE)%nat) (nodes st) /\
  (length (linksRaw st) <= 300)%nat /\
  (length (linksView st) <= 300)%nat.
Proof.
  intros Hd.
  assert (Forall (fun n => (length (linksOf st n) <= TOP_LINKS_PER_SOURCE)%nat) (nodes st))
    as Hall.
  { apply Forall_forall. intros n _. apply length_linksOf. rewrite Hd. naive_solver. }
  assert (length (linksRaw st) <= 300)%nat as Hraw.
  { pose proof (length_flat_map_le (linksOf st) (nodes st) _ Hall) as H.
    assert (length (nodes st) <= MAX_NODES)%nat as Hlen
      by (unfold nodes; rewrite length_take; lia).
    unfold linksRaw, TOP_LINKS_PER_SOURCE, MAX_NODES in *. lia. }
  split; [exact Hall|]. split; [exact Hraw|].
  assert (length (links st) <= length (linksRaw st))%nat as H1.
  { unfold links. destruct (detailMode st); apply length_filter. }
  assert (length (linksView st) <= length (links st))%nat as H2.
  { unfold linksView. destruct (negb (isDetail st) && hideLowNodes st); [|done].
    apply length_filter. }
  lia.
Qed.

Lemma X10_overview_link_budget_witness :
  isDetail stateEx = false /\ (length (linksView stateEx) <= 300)%nat.
Proof.
  split; [reflexivity|].
  exact (proj2 (proj2 (X10_overview_link_budget stateEx eq_refl))).
Defined.

Lemma hide_links_kept st :
  isDetail st = false -> hideLowNodes st = true ->
  Forall (fun n => Node.name n <> "") (nodes st) ->
  forall l, l ∈ links st ->
    Link.source l ∈ keepNames st /\ Link.target l ∈ keepNames st.
Proof.
  intros Hd Hh Hne l Hl.
  assert (forall a, a ∈ map Node.name (nodes st) ->
                    (exists l', l' ∈ links st /\ (Link.source l' = a \/ Link.target l' = a)) ->
                    a ∈ keepNames st) as Hkeep.
  { intros a Ha Hex. unfold keepNames, nodesVis. rewrite Hd, Hh. simpl.
    apply elem_of_list_to_set.
    apply list_elem_of_fmap in Ha as (n & -> & Hn).
    apply list_elem_of_fmap. exists n. split; [done|].
    apply list_elem_of_filter. split; [|done].
    apply elem_of_keep. split; [|done].
    rewrite Forall_forall in Hne. by apply Hne. }
  destruct (linksRaw_endpoints st l (links_raw st l Hl)) as [Hs Ht].
  split; apply Hkeep; eauto.
Qed.

(** X11.  Hiding low-activity nodes.  In the overview with the option on
    and no station of empty name, a selected node is drawn exactly when it
    is an endpoint of a link that passed the popularity filter; the second
    filter on the links then removes nothing, so every drawn node is an
    endpoint of a drawn link. *)
Theorem X11_hide_low_nodes (st : State) :
  isDetail st = false -> hideLowNodes st = true ->
  Forall (fun n => Node.name n <> "") (nodes st) ->
  linksView st = links st /\
  forall n, n ∈ nodesVis st <->
            n ∈ nodes st /\ exists l, l ∈ linksView st /\ touches n l.
Proof.
  intros Hd Hh Hne.
  assert (linksView st = links st) as Hv.
  { unfold linksView. rewrite Hd, Hh. simpl.
    apply filter_Forall_id, Forall_forall. intros l Hl.
    by apply hide_links_kept. }
  split; [exact Hv|].
  intros n. rewrite Hv. unfold nodesVis. rewrite Hd, Hh. simpl.
  rewrite list_elem_of_filter, elem_of_keep.
  rewrite Forall_forall in Hne. unfold touches.
  split.
  - intros [[_ Hex] Hn]. by split.
  - intros [Hn Hex]. split; [|done]. split; [by apply Hne|done].
Qed.

Lemma X11_hide_low_nodes_witness :
  isDetail stateHide = false /\ hideLowNodes stateHide = true /\
  Forall (fun n => Node.name n <> "") (nodes stateHide) /\
  linksView stateHide = links stateHide.
Proof.
  assert (Forall (fun n => Node.name n <> "") (nodes stateHide)) as Hne.
  { vm_compute nodes. repeat (constructor; [done|]). constructor. }
  split; [reflexivity|]. split; [reflexivity|]. split; [exact Hne|].
  exact (proj1 (X11_hide_low_nodes stateHide eq_refl eq_refl Hne)).
Defined.

(** ** The popularity filter *)

Lemma linksRaw_no_caches st : stationAgg st = None -> linksRaw st = [].
Proof.
  intros E. unfold linksRaw, nodes, aggMap. rewrite E. reflexivity.
Qed.

Lemma values_value st l : l ∈ linksRaw st -> Link.value l ∈ values st.
Proof.
  intros Hl. unfold values. rewrite js_sort_perm.
  apply list_elem_of_fmap. by exists l.
Qed.

Lemma values_from st v : v ∈ values st -> exists l, l ∈ linksRaw st /\ Link.value l = v.
Proof.
  unfold values. rewrite js_sort_perm. intros Hv.
  apply list_elem_of_fmap in Hv as (l & -> & Hl). by exists l.
Qed.

Lemma thresholdCount_range st :
  values st <> [] ->
  nthZ (values st) 0 <= thresholdCount st
  <= nthZ (values st) (Z.of_nat (length (values st)) - 1).
Proof.
  intros Hne. rewrite thresholdCount_thresholdOf. unfold thresholdOf.
  destruct (quantile_range (values st) (minRoutePercent st / 100)
              (values_ascending st) Hne) as (q & E & Q1 & Q2).
  destruct (values st) as [|v vs] eqn:Ev; [done|].
  rewrite E. simpl default. by apply Qfloor_between.
Qed.

Lemma thresholdCount_zero st :
  values st <> [] -> (minRoutePercent st <= 0)%Q ->
  thresholdCount st = nthZ (values st) 0.
Proof.
  intros Hne Hp. rewrite thresholdCount_thresholdOf. unfold thresholdOf.
  rewrite (quantile_low (values st) _ Hne (or_introl (percent_low _ Hp))).
  destruct (values st); [done|]. simpl default. apply Qfloor_Z.
Qed.

Lemma links_overview st :
  detailMode st = false ->
  links st = filter (fun l => thresholdCount st <= Link.value l) (linksRaw st).
Proof.
  intros Hm. unfold links. rewrite Hm. unfold updateVis.
  destruct (stationAgg st) eqn:E; [done|].
  by rewrite (linksRaw_no_caches st E).
Qed.

Lemma heaviest_kept st l : detailMode st = false -> heaviest st l -> l ∈ links st.
Proof.
  intros Hm [Hl Hmax]. rewrite (links_overview st Hm).
  apply list_elem_of_filter. split; [|done].
  assert (values st <> []) as Hne.
  { intros E. pose proof (values_value st l Hl) as H. rewrite E in H.
    by apply elem_of_nil in H. }
  destruct (thresholdCount_range st Hne) as [_ Hhi].
  assert (nthZ (values st) (Z.of_nat (length (values st)) - 1) ∈ values st) as Hin.
  { apply nthZ_In. pose proof (length_pos_Z _ Hne). lia. }
  apply values_from in Hin as (l' & Hl' & E). specialize (Hmax l' Hl'). lia.
Qed.

Lemma slider_zero_keeps_all st :
  detailMode st = false -> (minRoutePercent st <= 0)%Q -> links st = linksRaw st.
Proof.
  intros Hm Hp. rewrite (links_overview st Hm).
  apply filter_Forall_id, Forall_forall. intros l Hl.
  assert (values st <> []) as Hne.
  { intros E. pose proof (values_value st l Hl) as H. rewrite E in H.
    by apply elem_of_nil in H. }
  rewrite (thresholdCount_zero st Hne Hp).
  pose proof (values_value st l Hl) as Hv.
  apply list_elem_of_In, (In_nth _ _ 0) in Hv as (i & Hi & <-).
  pose proof (nthZ_mono (values st) 0 (Z.of_nat i) (values_ascending st)) as H.
  unfold nthZ at 2 in H. rewrite Nat2Z.id in H. apply H; lia.
Qed.

(** X12.  The popularity filter never empties the overview.  Outside
    detail mode a heaviest candidate link passes the filter at every slider
    position, and at slider position 0 (or below) every candidate link
    passes. *)
Theorem X12_heaviest_link_survives (st : State) (l : Link.t) :
  detailMode st = false -> heaviest st l ->
  l ∈ links st /\ ((minRoutePercent st <= 0)%Q -> links st = linksRaw st).
Proof.
  intros Hm Hl. split; [by apply heaviest_kept|by apply slider_zero_keeps_all].
Qed.

Lemma X12_heaviest_link_survives_witness :
  detailMode stateTop = false /\ heaviest stateTop (Link.mk "A" "B" 3) /\
  Link.mk "A" "B" 3 ∈ links stateTop.
Proof.
  assert (linksRaw stateTop
          = [Link.mk "A" "B" 3; Link.mk "A" "C" 2; Link.mk "B" "A" 1]) as Eraw
    by (vm_compute; reflexivity).
  assert (heaviest stateTop (Link.mk "A" "B" 3)) as Hh.
  { split; rewrite Eraw; [in_list|].
    intros l' Hl'.
    repeat (apply elem_of_cons in Hl' as [->|Hl']; [simpl; lia|]).
    apply elem_of_nil in Hl'. destruct Hl'. }
  split; [reflexivity|]. split; [exact Hh|].
  exact (proj1 (X12_heaviest_link_survives stateTop _ eq_refl Hh)).
Defined.

(** ** The handlers *)

Lemma thresholdCount_set_minRouteCount v st :
  thresholdCount (set_minRouteCount v st) = thresholdCount st.
Proof. reflexivity. Qed.

Lemma updateVis_sync st : is_Some (stationAgg st) -> thresholdInSync (updateVis st).
Proof.
  intros [sa E]. unfold thresholdInSync, updateVis. rewrite E. reflexivity.
Qed.

Lemma updateVis_idem st : updateVis (updateVis st) = updateVis st.
Proof.
  unfold updateVis at 2. destruct (stationAgg st) eqn:E.
  - unfold updateVis. simpl. rewrite E. simpl. reflexivity.
  - unfold updateVis. by rewrite E.
Qed.

Lemma updateVis_frame st :
  allData (updateVis st) = allData st /\
  stationAgg (updateVis st) = stationAgg st /\
  endRoutes (updateVis st) = endRoutes st.
Proof.
  unfold updateVis. destruct (stationAgg st) eqn:E; simpl; rewrite ?E; done.
Qed.

Lemma handle_updateVis ev st :
  exists st',
    handle ev st = updateVis st' /\
    allData st' = allData st /\ stationAgg st' = stationAgg st /\
    endRoutes st' = endRoutes st.
Proof.
  assert (forall s, allData (leaveDetail s) = allData s /\
                    stationAgg (leaveDetail s) = stationAgg s /\
                    endRoutes (leaveDetail s) = endRoutes s) as Hleave.
  { intros s. unfold leaveDetail, exitDetailView. destruct (isDetail s); [|done].
    apply (updateVis_frame (set_detail false None s)). }
  destruct ev; simpl; eexists; (split; [reflexivity|]);
    try (match goal with
         | |- allData (leaveDetail ?s) = _ /\ _ =>
             destruct (Hleave s) as (Ha & Hs & He); rewrite Ha, Hs, He
         end);
    try apply (updateVis_frame (set_detail _ _ st));
    try (destruct checked); done.
Qed.

(** X13.  What a listener leaves behind.  Whatever the event, the trip
    data and both caches are untouched; once the caches are built the
    stored threshold [minRouteCount] is the threshold of the state's own
    selection; and a further [updateVis] changes nothing. *)
Theorem X13_handlers_keep_caches_and_sync (ev : Event) (st : State) :
  allData (handle ev st) = allData st /\
  stationAgg (handle ev st) = stationAgg st /\
  endRoutes (handle ev st) = endRoutes st /\
  (is_Some (stationAgg st) -> thresholdInSync (handle ev st)) /\
  updateVis (handle ev st) = handle ev st.
Proof.
  destruct (handle_updateVis ev st) as (st' & -> & Ha & Hs & He).
  destruct (updateVis_frame st') as (-> & -> & ->).
  split; [done|]. split; [done|]. split; [done|].
  split; [|apply updateVis_idem].
  rewrite <- Hs. apply updateVis_sync.
Qed.

Lemma handle_mode ev st m : inMode st m -> inMode (handle ev st) (modeStep m ev).
Proof.
  intros Hm.
  assert (forall s, isDetail s = false -> selectedStation s = None ->
                    inOverview (updateVis (leaveDetail s))) as Hov.
  { intros s H1 H2. unfold leaveDetail. rewrite H1.
    split; [by rewrite updateVis_isDetail|by rewrite updateVis_selectedStation]. }
  assert (forall s x, inDetail s x -> inOverview (updateVis (leaveDetail s))) as Hdt.
  { intros s x. apply leaveDetail_overview. }
  assert (forall s, inMode s m -> inOverview (updateVis (leaveDetail s))) as Hleave.
  { intros s. destruct m as [x|]; simpl; [apply Hdt|]. intros [H1 H2]. by apply Hov. }
  destruct ev; simpl; try (apply Hleave); try (destruct m; exact Hm).
  - destruct checked; simpl; destruct m; exact Hm.
  - destruct (exitDetailView_overview st) as [H1 H2].
    split; [by rewrite updateVis_isDetail|by rewrite updateVis_selectedStation].
  - destruct m as [x|]; simpl in *; destruct Hm as [H1 H2];
      (split; [by rewrite updateVis_isDetail|by rewrite updateVis_selectedStation]).
  - destruct m as [x|]; simpl in *; destruct Hm as [H1 H2];
      (split; [by rewrite updateVis_isDetail|by rewrite updateVis_selectedStation]).
  - unfold goToDetail.
    split; [by rewrite !updateVis_isDetail|by rewrite !updateVis_selectedStation].
Qed.

Lemma run_mode evs st m : inMode st m -> inMode (run evs st) (foldl modeStep m evs).
Proof.
  unfold run. revert st m. induction evs as [|ev evs IH]; intros st m Hm; [done|].
  simpl. apply IH. by apply handle_mode.
Qed.

Lemma react_mode i st m : inMode st m -> inMode (react i st) (inputStep m i).
Proof. destruct i as [ev|g]; simpl; [apply handle_mode|done]. Qed.

Lemma runInputs_mode ins st m :
  inMode st m -> inMode (runInputs ins st) (foldl inputStep m ins).
Proof.
  unfold runInputs. revert st m. induction ins as [|i ins IH]; intros st m Hm; [done|].
  simpl. apply IH. by apply react_mode.
Qed.

(** X14.  The view mode depends on the inputs alone.  Starting in the
    overview, after any sequence of control events and pointer gestures the
    view is in the detail view of station [s] exactly when the last input
    other than a move of the popularity slider, a change of the palette or
    a pointer gesture (zoom, rotation, hover, drag, simulation tick) was a
    click on [s]; otherwise it is in the overview with no station selected.
    The trip data plays no part. *)
Theorem X14_mode_follows_events (ins : list Input) (st : State) :
  inOverview st -> inMode (runInputs ins st) (modeAfter ins).
Proof. intros H. by apply (runInputs_mode ins st None). Qed.

Lemma X14_mode_follows_events_witness :
  inOverview stateEx /\
  inDetail (runInputs [Control (StationClick "B"); Control (StationClick "A");
                       Control (MinRouteSliderInput 50); Pointer RotateMove;
                       Control (ColorBlindChange true); Pointer Zoom] stateEx) "A" /\
  inOverview (runInputs [Control (StationClick "A"); Pointer Tick;
                         Control (HideLowNodesChange true)] stateEx).
Proof.
  assert (inOverview stateEx) as H by (split; reflexivity).
  split; [exact H|]. split.
  - exact (X14_mode_follows_events
             [Control (StationClick "B"); Control (StationClick "A");
              Control (MinRouteSliderInput 50); Pointer RotateMove;
              Control (ColorBlindChange true); Pointer Zoom] stateEx H).
  - exact (X14_mode_follows_events
             [Control (StationClick "A"); Pointer Tick;
              Control (HideLowNodesChange true)] stateEx H).
Defined.

(** ** The top-start-stations table *)

(** X15.  The table of start stations.  [updateTopStartTable] lists the
    stations of the current cell that have at least one departure, in
    descending order of departures, cut after 25 rows: every row has a
    positive start count, every station left out has no more departures
    than any listed one, and stations with equally many departures appear
    in the order of the cell's Map. *)
Theorem X15_top_start_table (st : State) :
  let cand := startCandidates st in
  let rows := topStartRows st in
  length rows = Nat.min TOP_ROWS (length cand) /\
  Forall (fun r => 0 < TopRow.start r /\
                   TopRow.total r = TopRow.start r + TopRow.end_ r) rows /\
  (exists rest,
     rows ++ rest ≡ₚ cand /\
     forall a r, a ∈ rows -> r ∈ rest -> TopRow.start r <= TopRow.start a) /\
  descendingBy TopRow.start rows /\
  tiesInOrderOf TopRow.start cand rows.
Proof.
  intros cand rows.
  destruct (take_sort_desc TopRow.start byStartDesc TOP_ROWS cand) as (H1 & H2 & H3 & H4).
  { intros a b. unfold byStartDesc. lia. }
  split; [exact H1|]. split; [|split; [exact H2|split; [exact H3|exact H4]]].
  destruct H2 as (rest & Hp & _).
  apply Forall_forall. intros r Hr.
  assert (r ∈ cand) as Hc.
  { rewrite <- Hp. apply elem_of_app. by left. }
  unfold cand, startCandidates in Hc.
  apply list_elem_of_fmap in Hc as (d & -> & Hd).
  apply list_elem_of_filter in Hd as [Hpos _]. by split.
Qed.

(** ** From the trips to the picture *)

Lemma NoDup_get {V} k (v : V) (m : JsMap.t V) :
  NoDup (JsMap.keys m) -> (k, v) ∈ m -> JsMap.get k m = Some v.
Proof.
  unfold JsMap.keys. induction m as [|[k' v'] m IH]; simpl; intros Hnd Hin.
  - by apply elem_of_nil in Hin.
  - apply NoDup_cons in Hnd as [Hk Hnd].
    apply elem_of_cons in Hin as [[= -> ->]|Hin].
    + by rewrite String.eqb_refl.
    + destruct (String.eqb_spec k k') as [->|_]; [|by apply IH].
      exfalso. apply Hk. apply list_elem_of_fmap. by exists (k', v).
Qed.

Lemma NoDup_keys_set {V} k (v : V) (m : JsMap.t V) (P : string * V -> Prop) :
  P (k, v) -> NoDup (JsMap.keys m) -> Forall P m ->
  NoDup (JsMap.keys (JsMap.set k v m)) /\ Forall P (JsMap.set k v m).
Proof.
  intros HP Hnd Hall. destruct (JsMap.get k m) as [v0|] eqn:E.
  - destruct (set_existing k v v0 m E) as [Hk HF]. split; [by rewrite Hk|by apply HF].
  - rewrite (set_fresh k v m E). split.
    + unfold JsMap.keys in *. rewrite map_app. simpl.
      apply NoDup_app. split; [done|]. split.
      * intros x Hx Hx'. apply list_elem_of_singleton in Hx' as ->.
        by apply (get_None_keys k m E).
      * apply NoDup_singleton.
    + apply Forall_app. split; [done|]. by constructor.
Qed.

Lemma get_ge_1 k (m : JsMap.t Z) :
  Forall (fun kv => 1 <= kv.2) m -> 0 <= or0 (JsMap.get k m).
Proof.
  intros Hall. destruct (JsMap.get k m) as [v|] eqn:E; [|done].
  apply get_Some_In in E. rewrite Forall_forall in Hall.
  specialize (Hall _ E). simpl in *. lia.
Qed.

Lemma routesOk_bumpRoute s e rts : routesOk rts -> routesOk (bumpRoute s e rts).
Proof.
  intros Hok s' m'. unfold bumpRoute.
  destruct (decide (s' = s)) as [->|Hne].
  - rewrite lookup_insert_eq. intros [= <-].
    assert (NoDup (JsMap.keys (default JsMap.empty (rts !! s))) /\
            Forall (fun kv : string * Z => 1 <= kv.2) (default JsMap.empty (rts !! s)))
      as [Hnd Hall].
    { destruct (rts !! s) as [m|] eqn:E; [by apply (Hok s)|].
      split; constructor. }
    apply NoDup_keys_set; [|done|done].
    simpl. pose proof (get_ge_1 e _ Hall). lia.
  - rewrite lookup_insert_ne by done. apply Hok.
Qed.

(** Every cell of the built caches satisfies what the empty cell satisfies
    and every trip preserves. *)
Section CellInvariant.
Variable PA : JsMap.t Rec.t -> Prop.
Variable PR : gmap string (JsMap.t Z) -> Prop.
Hypothesis PA_step : forall t agg, PA agg -> PA (tripStations t agg).
Hypothesis PR_step : forall t rts, PR rts -> PR (tripRoute t rts).
Hypothesis PA_init : PA JsMap.empty.
Hypothesis PR_init : PR ∅.

Lemma processTrip_cellsSatisfy mm trip c c' :
  wfCaches c -> monthOk mm -> processTrip mm trip c = Some c' ->
  cellsSatisfy PA PR c -> cellsSatisfy PA PR c'.
Proof.
  intros Hwf Hmm E [HA HR].
  destruct (processTrip_spec mm trip c Hwf Hmm) as (c2 & E2 & _ & Hcell).
  rewrite E in E2. injection E2 as <-.
  split.
  - intros mem mk agg Hagg. destruct (Hcell mem mk) as [H1 _]. rewrite Hagg in H1.
    destruct (applies trip mm mem mk).
    + destruct (cell (c_stationAgg c) mem mk) as [a0|] eqn:E0; [|done].
      simpl in H1. injection H1 as ->. apply PA_step. by eapply HA.
    + symmetry in H1. by eapply HA.
  - intros mem mk rts Hrts. destruct (Hcell mem mk) as [_ H2]. rewrite Hrts in H2.
    destruct (applies trip mm mem mk).
    + destruct (cell (c_endRoutes c) mem mk) as [r0|] eqn:E0; [|done].
      simpl in H2. injection H2 as ->. apply PR_step. by eapply HR.
    + symmetry in H2. by eapply HR.
Qed.

Lemma processMonth_cellsSatisfy mo c c' :
  wfCaches c -> monthOk (MonthObj.mm mo) -> processMonth mo c = Some c' ->
  cellsSatisfy PA PR c -> wfCaches c' /\ cellsSatisfy PA PR c'.
Proof.
  intros Hwf Hmm. unfold processMonth. revert c Hwf.
  induction (MonthObj.trips mo) as [|t ts IH]; intros c Hwf E Hok; simpl in E.
  - by injection E as <-.
  - destruct (processTrip_spec (MonthObj.mm mo) t c Hwf Hmm) as (c1 & E1 & W1 & _).
    rewrite E1 in E. simpl in E.
    apply (IH c1 W1 E). exact (processTrip_cellsSatisfy _ _ _ _ Hwf Hmm E1 Hok).
Qed.

Lemma buildCaches_cellsSatisfy allData c :
  cleanData allData -> buildCaches allData = Some c -> cellsSatisfy PA PR c.
Proof.
  unfold buildCaches. intros Hclean.
  assert (cellsSatisfy PA PR initCaches) as Hinit.
  { split.
    - intros mem mk agg H. by apply init_table_cell in H as ->.
    - intros mem mk rts H. by apply init_table_cell in H as ->. }
  pose proof initCaches_wf as Hwf. revert Hinit Hwf. generalize initCaches.
  induction Hclean as [|mo mos [Hmm _] Hmos IH]; intros c0 Hok Hwf E; simpl in E.
  - by injection E as <-.
  - destruct (processMonth mo c0) as [c1|] eqn:E1; [simpl in E|done].
    destruct (processMonth_cellsSatisfy mo c0 c1 Hwf Hmm E1 Hok) as [W1 O1].
    by apply (IH c1 O1 W1).
Qed.
End CellInvariant.

Lemma buildCaches_routesOk allData c mem mk rts :
  cleanData allData -> buildCaches allData = Some c ->
  cell (c_endRoutes c) mem mk = Some rts -> routesOk rts.
Proof.
  intros Hclean E Hc.
  destruct (buildCaches_cellsSatisfy (fun _ => True) routesOk
              ltac:(done) ltac:(intros; by apply routesOk_bumpRoute)
              ltac:(done) ltac:(intros s m H; by rewrite lookup_empty in H)
              allData c Hclean E) as [_ HR].
  by apply (HR mem mk).
Qed.

Lemma shows_cells st allData c :
  shows st allData c ->
  exists agg rts,
    cell (c_stationAgg c) (memberKey st) (monthKey st) = Some agg /\
    cell (c_endRoutes c) (memberKey st) (monthKey st) = Some rts /\
    aggMap st = agg /\ routes st = rts /\ cellOk agg /\ routesOk rts.
Proof.
  intros (Hclean & E & Hsa & Her & Hm & Hk).
  destruct (buildCaches_cells allData c _ _ Hclean E Hm Hk) as (agg & rts & Ha & Hr).
  exists agg, rts. split; [exact Ha|]. split; [exact Hr|].
  split; [unfold aggMap; by rewrite Hsa; simpl; rewrite Ha|].
  split; [unfold routes; by rewrite Her; simpl; rewrite Hr|].
  split; [by apply (buildCaches_cellOk allData c Hclean E _ _ _ Ha)|].
  by apply (buildCaches_routesOk allData c _ _ _ Hclean E Hr).
Qed.

Lemma shows_record st allData c d :
  shows st allData c -> d ∈ JsMap.values (aggMap st) ->
  Rec.start d = departures st allData (Rec.name d) /\
  Rec.end_ d = arrivals st allData (Rec.name d).
Proof.
  intros Hsh Hd.
  destruct (shows_cells st allData c Hsh) as (agg & rts & Ha & Hr & Hagg & _ & Hok & _).
  destruct Hsh as (Hclean & E & _ & _ & Hm & Hk).
  rewrite Hagg in Hd. unfold JsMap.values in Hd. apply list_elem_of_fmap in Hd as ([k r] & -> & Hin).
  simpl. destruct Hok as [Hnd Hall].
  assert (Rec.name r = k) as Hname.
  { rewrite Forall_forall in Hall. apply (Hall _ Hin). }
  pose proof (NoDup_get k r agg Hnd Hin) as Hget.
  destruct (counts_are_sums allData c _ _ k k Hclean E Hm Hk) as (Hs & He & _).
  unfold start_count, end_count, stationRec in Hs, He.
  rewrite Ha in Hs, He. simpl in Hs, He. rewrite Hget in Hs, He. simpl in Hs, He.
  rewrite Hname. by split.
Qed.

Lemma elem_of_nodes st n :
  n ∈ nodes st -> exists d, d ∈ JsMap.values (aggMap st) /\ n = toNode d.
Proof.
  unfold nodes. intros Hn. apply subseteq_take in Hn.
  rewrite js_sort_perm in Hn. apply list_elem_of_fmap in Hn as (d & -> & Hd).
  by exists d.
Qed.

Lemma elem_of_linksRaw st l :
  l ∈ linksRaw st ->
  exists m, routes st !! Link.source l = Some m /\ (Link.target l, Link.value l) ∈ m.
Proof.
  unfold linksRaw. rewrite list_elem_of_In, in_flat_map.
  intros (src & _ & Hl). apply list_elem_of_In in Hl. revert Hl. unfold linksOf.
  destruct (routes st !! Node.name src) as [m|] eqn:Em; [|by intros ?%elem_of_nil].
  intros Hl. apply list_elem_of_fmap in Hl as ([t n] & -> & Htc). simpl.
  exists m. split; [exact Em|].
  apply list_elem_of_filter in Htc as [_ Htc].
  assert ((t, n) ∈ js_sort byCountDesc (JsMap.entries m)) as Hs.
  { destruct (negb _); [by apply subseteq_take in Htc|done]. }
  by rewrite js_sort_perm in Hs.
Qed.

(** X16.  From the trips to the picture.  When the state shows caches
    built from validated trip data, every selected node carries the number
    of trips that leave and that arrive at its station under the selected
    member and month filters, every candidate link carries the (positive)
    number of trips on its route, and every row of the start-station table
    carries the same departures and arrivals. *)
Theorem X16_picture_counts_trips (st : State) (allData : list MonthObj.t) (c : Caches) :
  shows st allData c ->
  (forall n, n ∈ nodes st ->
     Node.start n = departures st allData (Node.name n) /\
     Node.end_ n = arrivals st allData (Node.name n) /\
     Node.total n = departures st allData (Node.name n)
                    + arrivals st allData (Node.name n)) /\
  (forall l, l ∈ linksRaw st ->
     Link.value l = tripsOn st allData (Link.source l) (Link.target l) /\
     1 <= Link.value l) /\
  (forall r, r ∈ topStartRows st ->
     TopRow.start r = departures st allData (TopRow.name r) /\
     TopRow.end_ r = arrivals st allData (TopRow.name r)).
Proof.
  intros Hsh. split; [|split].
  - intros n Hn. apply elem_of_nodes in Hn as (d & Hd & ->).
    destruct (shows_record st allData c d Hsh Hd) as [Hs He]. simpl.
    rewrite <- Hs, <- He. done.
  - intros l Hl. apply elem_of_linksRaw in Hl as (m & Em & Hin).
    destruct (shows_cells st allData c Hsh) as (agg & rts & Ha & Hr & _ & Hrts & _ & Hok).
    rewrite Hrts in Em. destruct (Hok _ _ Em) as [Hnd Hall].
    pose proof (NoDup_get _ _ m Hnd Hin) as Hget.
    destruct Hsh as (Hclean & E & _ & _ & Hm & Hk).
    destruct (counts_are_sums allData c _ _ (Link.source l) (Link.target l)
                Hclean E Hm Hk) as (_ & _ & Hrc).
    unfold route_count in Hrc. rewrite Hr in Hrc. simpl in Hrc.
    rewrite Em in Hrc. simpl in Hrc. rewrite Hget in Hrc. simpl in Hrc.
    split; [exact Hrc|].
    rewrite Forall_forall in Hall. apply (Hall _ Hin).
  - intros r Hr. unfold topStartRows in Hr. apply subseteq_take in Hr.
    rewrite js_sort_perm in Hr. unfold startCandidates in Hr.
    apply list_elem_of_fmap in Hr as (d & -> & Hd).
    apply list_elem_of_filter in Hd as [_ Hd].
    apply (shows_record st allData c d Hsh Hd).
Qed.

Lemma initialise_shows data c :
  cleanData data -> buildCaches data = Some c -> shows (initialise data state0) data c.
Proof.
  intros Hclean E. unfold shows.
  split; [exact Hclean|]. split; [exact E|].
  unfold initialise.
  change (allData (set_allData data state0)) with data. rewrite E.
  unfold updateVis. simpl.
  split; [reflexivity|]. split; [reflexivity|].
  split; [unfold members; in_list|unfold months; in_list].
Qed.

Lemma X16_picture_counts_trips_witness :
  shows stateEx dataEx cachesEx /\
  Link.mk "A" "B" 3 ∈ linksRaw stateEx /\
  tripsOn stateEx dataEx "A" "B" = 3.
Proof.
  pose proof (initialise_shows dataEx cachesEx dataEx_clean cachesEx_built) as Hsh.
  assert (Link.mk "A" "B" 3 ∈ linksRaw stateEx) as Hl.
  { assert (linksRaw stateEx
            = [Link.mk "A" "B" 3; Link.mk "A" "C" 2; Link.mk "B" "A" 1]) as ->
      by (vm_compute; reflexivity).
    in_list. }
  split; [exact Hsh|]. split; [exact Hl|].
  destruct (X16_picture_counts_trips stateEx dataEx cachesEx Hsh) as (_ & H & _).
  destruct (H _ Hl) as [Hv _]. symmetry. exact Hv.
Defined.

(** ** The month slider *)

(** X17.  The month slider addresses the month cells.  For a slider value
    [m] between 1 and 12, [updateMonthFromSlider] stores the [m]-th month
    key of the cache grid, so the selection that follows reads an existing
    cell and different slider positions read different cells. *)
Theorem X17_month_slider_key (m : nat) (st : State) :
  (1 <= m <= 12)%nat ->
  tail months !! (m - 1)%nat = Some (selectedMonthKey (updateMonthFromSlider m st)) /\
  monthKey (updateMonthFromSlider m st) = selectedMonthKey (updateMonthFromSlider m st) /\
  monthOk (monthKey (updateMonthFromSlider m st)).
Proof.
  intros Hm.
  assert (m = 1 \/ m = 2 \/ m = 3 \/ m = 4 \/ m = 5 \/ m = 6 \/ m = 7 \/ m = 8 \/
          m = 9 \/ m = 10 \/ m = 11 \/ m = 12)%nat as Hc by lia.
  unfold monthOk, monthKey, updateMonthFromSlider. simpl.
  repeat (destruct Hc as [->|Hc];
          [vm_compute; split; [reflexivity|]; split; [reflexivity|];
           split; [unfold months; in_list|discriminate]|]).
  subst m. vm_compute. split; [reflexivity|]. split; [reflexivity|].
  split; [unfold months; in_list|discriminate].
Qed.

Lemma X17_month_slider_key_witness :
  (1 <= 9 <= 12)%nat /\
  tail months !! 8%nat = Some (selectedMonthKey (updateMonthFromSlider 9 state0)).
Proof.
  assert (1 <= 9 <= 12)%nat as H by lia.
  split; [exact H|]. exact (proj1 (X17_month_slider_key 9 state0 H)).
Defined.

(** ** The geocode resolver *)

Lemma unit_fraction (z : Z) :
  (0 <= inject_Z (Z.abs z mod 1000) / 999 <= 1)%Q.
Proof.
  pose proof (Z.mod_pos_bound (Z.abs z) 1000 ltac:(lia)) as [H0 H1].
  assert (0 <= inject_Z (Z.abs z mod 1000) <= 999)%Q as [Q0 Q1].
  { split.
    - change 0%Q with (inject_Z 0). rewrite <- Zle_Qle. lia.
    - change 999%Q with (inject_Z 999). rewrite <- Zle_Qle. lia. }
  split.
  - apply Qle_shift_div_l; [reflexivity|]. Lqa.lra.
  - apply Qle_shift_div_r; [reflexivity|]. Lqa.lra.
Qed.

Lemma guess_inBounds (h : Z) :
  inBounds
    (LatLng.mk
       (Finite (Geocode.minLat
                + inject_Z (Z.abs h mod 1000) / 999 * (Geocode.maxLat - Geocode.minLat)))
       (Finite (Geocode.minLng
                + inject_Z (Z.abs (Z.shiftr h 10) mod 1000) / 999
                  * (Geocode.maxLng - Geocode.minLng)))).
Proof.
  pose proof (unit_fraction h) as [U0 U1].
  pose proof (unit_fraction (Z.shiftr h 10)) as [V0 V1].
  eexists _, _. split; [reflexivity|]. split; [reflexivity|].
  unfold Geocode.minLat, Geocode.maxLat, Geocode.minLng, Geocode.maxLng.
  set (u := (inject_Z (Z.abs h mod 1000) / 999)%Q) in *.
  set (v := (inject_Z (Z.abs (Z.shiftr h 10) mod 1000) / 999)%Q) in *.
  split; split; Lqa.lra.
Qed.

Lemma resolver_fallback geojson st name :
  unknownStation st name ->
  let r := Geocode.getStationLatLng geojson st name in
  match geojson with
  | None => inBounds r
  | Some contains =>
      contains (LatLng.lng r) (LatLng.lat r) = true \/ r = centroidOf st
  end.
Proof.
  intros [H1 H2] r. subst r. unfold Geocode.getStationLatLng. rewrite H1, H2.
  destruct geojson as [contains|]; [|apply guess_inBounds].
  cbv zeta.
  match goal with
  | |- context [if contains ?a ?b then _ else _] =>
      destruct (contains a b) eqn:E1; [left; exact E1|]
  end.
  match goal with
  | |- context [if contains ?a ?b then _ else _] =>
      destruct (contains a b) eqn:E2; [left; exact E2|]
  end.
  right. reflexivity.
Qed.

(** X18.  Where an unknown station is put.  For a station that neither
    feed locates with finite coordinates: without the city polygon the
    resolver's answer lies in the bounding box 43.58..43.85 N,
    79.65..79.12 W; with the polygon it is a point the polygon contains
    or, failing both tries, the centroid itself. *)
Theorem X18_unknown_station_position (geojson : option (JsNum -> JsNum -> bool))
    (st : State) (name : string) :
  unknownStation st name ->
  let r := Geocode.getStationLatLng geojson st name in
  match geojson with
  | None => inBounds r
  | Some contains =>
      contains (LatLng.lng r) (LatLng.lat r) = true \/ r = centroidOf st
  end.
Proof. apply resolver_fallback. Qed.

Lemma X18_unknown_station_position_witness :
  unknownStation state0 "King St W" /\
  inBounds (Geocode.getStationLatLng None state0 "King St W").
Proof.
  assert (unknownStation state0 "King St W") as H by (split; reflexivity).
  split; [exact H|]. exact (X18_unknown_station_position None state0 "King St W" H).
Defined.

(** ** Name normalisation *)

Lemma tidy_weaken b l : tidy b l -> tidy false l.
Proof. destruct l as [|c l]; [done|]. simpl. intros [H|(? & _ & ?)]; auto. Qed.

Lemma squeeze_tidy b l : tidy b (Geocode.squeeze b l).
Proof.
  revert b. induction l as [|c l IH]; intros b; simpl; [done|].
  destruct (Geocode.isAlnum c) eqn:E.
  - simpl. left. by rewrite E.
  - destruct b; [apply IH|]. simpl. right. auto.
Qed.

Lemma space_not_alnum : Geocode.isAlnum " "%char = false.
Proof. reflexivity. Qed.

Lemma squeeze_id b l : tidy b l -> Geocode.squeeze b l = l.
Proof.
  revert b. induction l as [|c l IH]; intros b; simpl; [done|].
  intros [[E H]|(-> & -> & H)].
  - rewrite E. f_equal. by apply IH.
  - rewrite space_not_alnum. f_equal. by apply IH.
Qed.

Lemma lowerChar_alnum c : Geocode.isAlnum c = true -> Geocode.lowerChar c = c.
Proof.
  unfold Geocode.isAlnum, Geocode.lowerChar. intros H.
  destruct ((65 <=? N_of_ascii c) && (N_of_ascii c <=? 90))%N eqn:E; [|done].
  exfalso.
  apply andb_true_iff in E as [E1 E2].
  apply N.leb_le in E1, E2.
  apply orb_true_iff in H as [H|H]; apply andb_true_iff in H as [H1 H2];
    apply N.leb_le in H1, H2; lia.
Qed.

Lemma lower_tidy b l : tidy b l -> map Geocode.lowerChar l = l.
Proof.
  revert b. induction l as [|c l IH]; intros b; simpl; [done|].
  intros [[E H]|(-> & -> & H)].
  - rewrite (lowerChar_alnum c E). f_equal. by apply (IH false).
  - f_equal. by apply (IH true).
Qed.

Lemma tidy_app_l b l k : tidy b (l ++ k) -> tidy b l.
Proof.
  revert b. induction l as [|c l IH]; intros b; simpl; [done|].
  intros [[E H]|(-> & -> & H)]; [left|right]; eauto.
Qed.

Lemma dropSpaces_head l : head (Geocode.dropSpaces l) <> Some " "%char.
Proof.
  induction l as [|c l IH]; [done|].
  destruct (Ascii.ascii_dec c " ") as [->|Hne]; [exact IH|].
  assert (Geocode.dropSpaces (c :: l) = c :: l) as ->.
  { simpl. destruct c as [[] [] [] [] [] [] [] []]; try reflexivity. done. }
  simpl. congruence.
Qed.

Lemma dropSpaces_id l : head l <> Some " "%char -> Geocode.dropSpaces l = l.
Proof.
  destruct l as [|c l]; [done|]. simpl. intros H.
  destruct c as [[] [] [] [] [] [] [] []]; try reflexivity. done.
Qed.

Lemma dropSpaces_suffix l : exists sp, l = (sp ++ Geocode.dropSpaces l)%list.
Proof.
  induction l as [|c l [sp IH]]; [by exists []|].
  destruct (Ascii.ascii_dec c " ") as [->|Hne].
  - exists (" "%char :: sp). simpl. by rewrite <- IH.
  - exists []. simpl. symmetry. apply (dropSpaces_id (c :: l)). simpl. congruence.
Qed.

Lemma dropSpaces_tidy b l : tidy b l -> tidy true (Geocode.dropSpaces l).
Proof.
  revert b. induction l as [|c l IH]; intros b; [done|].
  intros H. destruct (Ascii.ascii_dec c " ") as [->|Hne].
  - simpl in H. destruct H as [[E _]|(_ & _ & H)]; [by rewrite space_not_alnum in E|].
    change (Geocode.dropSpaces (" "%char :: l)) with (Geocode.dropSpaces l). by eapply IH.
  - rewrite (dropSpaces_id (c :: l)) by (simpl; congruence).
    simpl in *. destruct H as [H|(-> & _)]; [by left|done].
Qed.

Lemma normalizeName_normalised name : normalised (Geocode.normalizeName name).
Proof.
  unfold normalised, Geocode.normalizeName.
  rewrite list_ascii_of_string_of_list_ascii.
  set (x := Geocode.dropSpaces
              (Geocode.squeeze false (map Geocode.lowerChar (list_ascii_of_string name)))).
  assert (tidy true x) as Hx by (apply (dropSpaces_tidy false), squeeze_tidy).
  split.
  - destruct (dropSpaces_suffix (rev x)) as [sp Hsp].
    apply (f_equal (@rev ascii)) in Hsp. rewrite rev_involutive, rev_app_distr in Hsp.
    rewrite Hsp in Hx. by apply tidy_app_l in Hx.
  - rewrite rev_involutive. apply dropSpaces_head.
Qed.

Lemma normalizeName_fixed s : normalised s -> Geocode.normalizeName s = s.
Proof.
  intros [Ht Hl]. unfold Geocode.normalizeName.
  rewrite (lower_tidy true _ Ht), (squeeze_id false _ (tidy_weaken _ _ Ht)).
  assert (head (list_ascii_of_string s) <> Some " "%char) as Hh.
  { destruct (list_ascii_of_string s) as [|c l]; [done|]. simpl in *.
    destruct Ht as [[E _]|(_ & ? & _)]; [|done].
    intros [= ->]. by rewrite space_not_alnum in E. }
  rewrite (dropSpaces_id _ Hh), (dropSpaces_id _ Hl), rev_involutive.
  apply string_of_list_ascii_of_string.
Qed.

(** X19.  Name normalisation.  [normalizeName] yields a name made of
    lower-case letters, digits and single spaces with no space at either
    end, and leaves every such name as it is; so normalising twice is the
    same as normalising once. *)
Theorem X19_normalizeName_idempotent (name : string) :
  normalised (Geocode.normalizeName name) /\
  Geocode.normalizeName (Geocode.normalizeName name) = Geocode.normalizeName name /\
  (normalised name -> Geocode.normalizeName name = name).
Proof.
  split; [apply normalizeName_normalised|].
  split; [apply normalizeName_fixed, normalizeName_normalised|apply normalizeName_fixed].
Qed.

(** ** The camera *)

Section CameraFacts.
Import Projection.
Local Open Scope R_scope.

Lemma maxPitch_lt : 0 < maxPitch < PI / 2.
Proof. unfold maxPitch. pose proof PI_RGT_0. split; Lra.lra. Qed.

Lemma rotate_pitch dx dy cam :
  - maxPitch <= pitch (rotate dx dy cam) <= maxPitch /\
  (- maxPitch <= pitch cam + dy * ROT_SENS <= maxPitch ->
   pitch (rotate dx dy cam) = pitch cam + dy * ROT_SENS).
Proof.
  pose proof maxPitch_lt as [Hpos _].
  unfold rotate. simpl. fold maxPitch.
  destruct (Rlt_dec maxPitch (pitch cam + dy * ROT_SENS)) as [H1|H1].
  - destruct (Rlt_dec maxPitch (- maxPitch)) as [H2|H2]; [Lra.lra|].
    split; [Lra.lra|]. intros. Lra.lra.
  - destruct (Rlt_dec (pitch cam + dy * ROT_SENS) (- maxPitch)) as [H2|H2].
    + split; [Lra.lra|]. intros. Lra.lra.
    + split; [Lra.lra|]. intros. Lra.lra.
Qed.

(** X20.  The rotation drag.  Whatever the camera before and whatever the
    pointer movement, after a drag the pitch lies within
    [+- 0.88 * PI / 2], so its cosine is positive and the scene never flips
    over; a movement that stays within the limits is applied unchanged;
    the yaw moves by [-0.005] radians per pixel, and the mode and the
    viewport are left alone. *)
Theorem X20_drag_keeps_pitch_clamped (dx dy : R) (cam : Camera) :
  let cam' := rotate dx dy cam in
  - maxPitch <= pitch cam' <= maxPitch /\
  0 < cos (pitch cam') /\
  (- maxPitch <= pitch cam + dy * ROT_SENS <= maxPitch ->
   pitch cam' = pitch cam + dy * ROT_SENS) /\
  yaw cam' = yaw cam - dx * 0.005 /\
  mode3d cam' = mode3d cam /\ width cam' = width cam /\ height cam' = height cam.
Proof.
  intros cam'. destruct (rotate_pitch dx dy cam) as [Hb Hid].
  pose proof maxPitch_lt as [_ Hlt].
  split; [exact Hb|]. split.
  - apply cos_gt_0; fold cam' in Hb; Lra.lra.
  - split; [exact Hid|]. repeat split.
Qed.

End CameraFacts.

(** ** States of the running page *)

Lemma updateVis_positions st :
  stationPos (updateVis st) = stationPos st /\
  stationPosNorm (updateVis st) = stationPosNorm st.
Proof. unfold updateVis. destruct (stationAgg st) eqn:E; simpl; done. Qed.

Lemma handle_positions ev st :
  stationPos (handle ev st) = stationPos st /\
  stationPosNorm (handle ev st) = stationPosNorm st.
Proof.
  assert (forall s, stationPos (leaveDetail s) = stationPos s /\
                    stationPosNorm (leaveDetail s) = stationPosNorm s) as Hleave.
  { intros s. unfold leaveDetail, exitDetailView. destruct (isDetail s); [|done].
    apply (updateVis_positions (set_detail false None s)). }
  destruct ev; simpl;
    match goal with
    | |- stationPos (updateVis ?s) = _ /\ _ =>
        destruct (updateVis_positions s) as [-> ->]
    end;
    try (match goal with
         | |- stationPos (leaveDetail ?s) = _ /\ _ =>
             destruct (Hleave s) as [-> ->]
         end);
    try (unfold exitDetailView, goToDetail;
         match goal with
         | |- stationPos (updateVis ?s) = _ /\ _ =>
             destruct (updateVis_positions s) as [-> ->]
         end);
    try (destruct checked); done.
Qed.

Lemma start_built results :
  exists c,
    buildCaches (loadAllCSVs results).2 = Some c /\
    start results
    = updateVis (set_caches (Some (c_stationAgg c)) (Some (c_endRoutes c))
                   (set_allData (loadAllCSVs results).2 state0)).
Proof.
  destruct (for_each_months_balanced _ initCaches initCaches_wf
              (loadAllCSVs_clean results)) as (c & E & _).
  exists c. split; [exact E|].
  unfold start, initialise.
  change (allData (set_allData (loadAllCSVs results).2 state0))
    with (loadAllCSVs results).2.
  unfold buildCaches. by rewrite E.
Qed.

Lemma start_pageInv results : pageInv (start results).
Proof.
  destruct (start_built results) as (c & E & ->).
  set (st1 := set_caches (Some (c_stationAgg c)) (Some (c_endRoutes c))
                (set_allData (loadAllCSVs results).2 state0)).
  unfold pageInv.
  destruct (updateVis_frame st1) as (-> & -> & ->).
  destruct (updateVis_positions st1) as [-> ->].
  split; [exact (loadAllCSVs_clean results)|].
  split; [exists c; split; [exact E|by split]|].
  split; [apply updateVis_sync; simpl; eauto|].
  split; [left; split; [by rewrite updateVis_isDetail|by rewrite updateVis_selectedStation]|].
  by split.
Qed.

Lemma handle_pageInv ev st : pageInv st -> pageInv (handle ev st).
Proof.
  intros (Hclean & (c & E & Hsa & Her) & _ & Hmode & Hp & Hn).
  destruct (handle_updateVis ev st) as (st' & Eh & Ha & Hs & He).
  destruct (handle_positions ev st) as [Hp' Hn'].
  destruct (updateVis_frame st') as (Fa & Fs & Fe).
  assert (allData (handle ev st) = allData st) as Ga by (rewrite Eh, Fa; exact Ha).
  assert (stationAgg (handle ev st) = stationAgg st) as Gs by (rewrite Eh, Fs; exact Hs).
  assert (endRoutes (handle ev st) = endRoutes st) as Ge by (rewrite Eh, Fe; exact He).
  assert (thresholdInSync (handle ev st)) as Gt.
  { rewrite Eh. apply updateVis_sync. rewrite Hs, Hsa. eauto. }
  unfold pageInv. rewrite Hp', Hn', Ga, Gs, Ge.
  split; [exact Hclean|].
  split; [exists c; by split|].
  split; [exact Gt|].
  split; [|by split].
  destruct Hmode as [Ho|[s Hd]].
  - pose proof (handle_mode ev st None Ho) as H.
    destruct (modeStep None ev) as [x|]; [right; by exists x|by left].
  - pose proof (handle_mode ev st (Some s) Hd) as H.
    destruct (modeStep (Some s) ev) as [x|]; [right; by exists x|by left].
Qed.

Lemma run_pageInv evs st : pageInv st -> pageInv (run evs st).
Proof.
  unfold run. revert st. induction evs as [|ev evs IH]; intros st H; [done|].
  simpl. apply IH. by apply handle_pageInv.
Qed.

(** X22.  States of the running page.  Whatever the files held and
    whatever the user did, the state holds validated trip data and the
    caches built from it, the stored threshold is that of the current
    selection, the view is in the overview or in the detail view of one
    station, and both position feeds are empty (nothing on the
    initialisation chain or in a listener fills them); so every station is
    placed by its name hash inside the bounding box. *)
Theorem X22_reachable_states (st : State) (name : string) :
  reachable st ->
  pageInv st /\ inBounds (Geocode.getStationLatLng None st name).
Proof.
  intros (results & evs & ->).
  pose proof (run_pageInv evs _ (start_pageInv results)) as Hinv.
  split; [exact Hinv|].
  destruct Hinv as (_ & _ & _ & _ & Hp & Hn).
  apply (resolver_fallback None). unfold unknownStation. by rewrite Hp, Hn.
Qed.

Lemma X22_reachable_states_witness :
  reachable (run [StationClick "A"] (start [])) /\
  inBounds (Geocode.getStationLatLng None (run [StationClick "A"] (start [])) "A").
Proof.
  assert (reachable (run [StationClick "A"] (start []))) as H
    by (exists [], [StationClick "A"]; reflexivity).
  split; [exact H|]. exact (proj2 (X22_reachable_states _ "A" H)).
Defined.

(** ** C9: the geocode resolver on every state *)












(** ** Tooltip text *)

Lemma escapeChar_cases c :
  (escapeChar c = [c] /\ c <> "&"%char /\ ~ markup c) \/
  (c = "&"%char /\ escapeChar c = list_ascii_of_string "&amp;") \/
  (c = "<"%char /\ escapeChar c = list_ascii_of_string "&lt;") \/
  (c = ">"%char /\ escapeChar c = list_ascii_of_string "&gt;") \/
  (c = dquote /\ escapeChar c = list_ascii_of_string "&quot;") \/
  (c = "'"%char /\ escapeChar c = list_ascii_of_string "&#39;").
Proof.
  unfold escapeChar, markup.
  destruct (Ascii.eqb_spec c "&") as [->|H1]; [right; left; done|].
  destruct (Ascii.eqb_spec c "<") as [->|H2]; [right; right; left; done|].
  destruct (Ascii.eqb_spec c ">") as [->|H3]; [right; right; right; left; done|].
  destruct (Ascii.eqb_spec c dquote) as [->|H4]; [right; right; right; right; left; done|].
  destruct (Ascii.eqb_spec c "'") as [->|H5]; [right; right; right; right; right; done|].
  left. split; [done|]. split; [done|]. intros [?|[?|[?|?]]]; done.
Qed.

Lemma escapeChar_prefix_code c c' x y :
  (escapeChar c ++ x = escapeChar c' ++ y)%list -> c = c' /\ x = y.
Proof.
  intros H.
  destruct (escapeChar_cases c) as [(E & N & _)|[(-> & E)|[(-> & E)|[(-> & E)|[(-> & E)|(-> & E)]]]]];
  destruct (escapeChar_cases c') as [(E' & N' & _)|[(-> & E')|[(-> & E')|[(-> & E')|[(-> & E')|(-> & E')]]]]];
  rewrite ?E, ?E' in H; simpl in H;
  try discriminate H;
  try (injection H as -> ->; done);
  try (injection H as -> _; done);
  try (injection H as <- _; done);
  try (injection H as ->; done).
Qed.

Lemma escape_injective l l' :
  flat_map escapeChar l = flat_map escapeChar l' -> l = l'.
Proof.
  revert l'. induction l as [|c l IH]; intros [|c' l'] H; simpl in H.
  - done.
  - destruct (escapeChar_cases c') as [(E & _)|[(_ & E)|[(_ & E)|[(_ & E)|[(_ & E)|(_ & E)]]]]];
      rewrite E in H; discriminate H.
  - destruct (escapeChar_cases c) as [(E & _)|[(_ & E)|[(_ & E)|[(_ & E)|[(_ & E)|(_ & E)]]]]];
      rewrite E in H; discriminate H.
  - apply escapeChar_prefix_code in H as [-> H]. f_equal. by apply IH.
Qed.

Lemma escape_no_markup l : Forall (fun c => ~ markup c) (flat_map escapeChar l).
Proof.
  induction l as [|c l IH]; simpl; [constructor|].
  apply Forall_app. split; [|exact IH].
  destruct (escapeChar_cases c) as [(E & _ & N)|[(_ & E)|[(_ & E)|[(_ & E)|[(_ & E)|(_ & E)]]]]];
    rewrite E.
  - by constructor.
  - repeat (constructor; [intros [?|[?|[?|?]]]; discriminate|]). constructor.
  - repeat (constructor; [intros [?|[?|[?|?]]]; discriminate|]). constructor.
  - repeat (constructor; [intros [?|[?|[?|?]]]; discriminate|]). constructor.
  - repeat (constructor; [intros [?|[?|[?|?]]]; discriminate|]). constructor.
  - repeat (constructor; [intros [?|[?|[?|?]]]; discriminate|]). constructor.
Qed.

Lemma escape_plain l :
  Forall (fun c => c <> "&"%char /\ ~ markup c) l -> flat_map escapeChar l = l.
Proof.
  induction 1 as [|c l [H1 H2] Hl IH]; simpl; [done|].
  rewrite IH.
  destruct (escapeChar_cases c) as [(E & _)|[(-> & _)|[(-> & _)|[(-> & _)|[(-> & _)|(-> & _)]]]]];
    [by rewrite E|done|..]; exfalso; apply H2; unfold markup; auto.
Qed.

(** X23.  Tooltip text is inert and unambiguous.  The text [escapeHtml]
    returns contains none of the characters [<], [>], the double quote and
    the apostrophe, so a station name cannot open a tag or close an
    attribute in the tooltip; two different names never give the same text;
    and a name without any of the five special characters is returned as it
    is. *)
Theorem X23_escapeHtml_inert (s : string) :
  Forall (fun c => ~ markup c) (list_ascii_of_string (escapeHtml s)) /\
  (forall s', escapeHtml s = escapeHtml s' -> s = s') /\
  (Forall (fun c => c <> "&"%char /\ ~ markup c) (list_ascii_of_string s) ->
   escapeHtml s = s).
Proof.
  unfold escapeHtml. split; [|split].
  - rewrite list_ascii_of_string_of_list_ascii. apply escape_no_markup.
  - intros s' H.
    apply (f_equal list_ascii_of_string) in H.
    rewrite !list_ascii_of_string_of_list_ascii in H.
    apply escape_injective in H.
    apply (f_equal string_of_list_ascii) in H.
    by rewrite !string_of_list_ascii_of_string in H.
  - intros H. rewrite (escape_plain _ H). apply string_of_list_ascii_of_string.
Qed.

(** ** The sampling script *)

Lemma step_loopInv {G} (rand : G -> Q * G) rate pre (st : Sampler.Loop G) line :
  loopInv pre st -> loopInv (pre ++ [line]) (Sampler.step rand rate st line).
Proof.
  intros (Ht & Hk & Hs & Hh & Hf).
  assert (forall g : G, loopInv (pre ++ [line])
            (Sampler.mkLoop false (S (Sampler.total st)) (S (Sampler.kept st))
                            (Sampler.out st ++ [line]) g)) as Hkeep.
  { intros g. unfold loopInv. simpl. rewrite !length_app. simpl.
    split; [lia|]. split; [lia|]. split; [by apply sublist_app|].
    split.
    - destruct pre as [|p pre]; simpl in *.
      + apply sublist_nil_r in Hs. by rewrite Hs.
      + destruct (Sampler.out st); simpl in *; done.
    - split; [done|]. by destruct pre. }
  assert (forall g : G, Sampler.isFirst st = false ->
            loopInv (pre ++ [line])
              (Sampler.mkLoop false (S (Sampler.total st)) (Sampler.kept st)
                              (Sampler.out st) g)) as Hdrop.
  { intros g Hnf. unfold loopInv. simpl. rewrite !length_app. simpl.
    split; [lia|]. split; [lia|]. split; [by apply sublist_inserts_r|].
    split.
    - destruct pre as [|p pre]; simpl in *; [|done].
      destruct Hf as [_ Hf]. rewrite Hf in Hnf; done.
    - split; [done|]. by destruct pre. }
  unfold Sampler.step. destruct (Sampler.isFirst st) eqn:E1; [apply Hkeep|].
  destruct (rand (Sampler.rng st)) as [r g].
  destruct (negb (Qle_bool rate r)); [apply Hkeep|by apply Hdrop].
Qed.

Lemma foldl_loopInv {G} (rand : G -> Q * G) rate lines pre (st : Sampler.Loop G) :
  loopInv pre st ->
  loopInv (pre ++ lines) (foldl (Sampler.step rand rate) st lines).
Proof.
  revert pre st. induction lines as [|l lines IH]; intros pre st H; simpl.
  - by rewrite app_nil_r.
  - rewrite (cons_middle l pre lines), app_assoc. apply IH. by apply step_loopInv.
Qed.

(** X24.  Sampling a file.  For every generator (seeded or not) and every
    rate, the sampled file is a subsequence of the lines of the source in
    their order, it starts with the source's first line (the header), the
    reported [total] is the number of lines read and the reported [kept]
    the number of lines written, header included. *)
Theorem X24_sample_keeps_header {G} (rand : G -> Q * G) (rate : Q)
    (lines : list string) (g : G) :
  let r := Sampler.sampleFile rand rate lines g in
  Sampler.total r = length lines /\
  Sampler.kept r = length (Sampler.out r) /\
  Sampler.out r `sublist_of` lines /\
  head (Sampler.out r) = head lines /\
  (Sampler.kept r <= Sampler.total r)%nat /\
  (lines <> [] -> (1 <= Sampler.kept r)%nat).
Proof.
  intros r.
  assert (loopInv lines r) as (Ht & Hk & Hs & Hh & Hf).
  { apply (foldl_loopInv rand rate lines [] (Sampler.mkLoop true 0 0 [] g)).
    unfold loopInv. simpl. by repeat split. }
  split; [exact Ht|]. split; [exact Hk|]. split; [exact Hs|]. split; [exact Hh|].
  split.
  - rewrite Ht, Hk. by apply sublist_length.
  - intros Hne. rewrite Hk. destruct lines as [|l ls]; [done|].
    destruct (Sampler.out r); simpl in *; [done|lia].
Qed.

Lemma lcg_range (s : Z) :
  0 <= s < 2 ^ 32 ->
  1664525 * s + 1013904223 < 2 ^ 53 /\
  Sampler.lcg s = (1664525 * s + 1013904223) mod 2 ^ 32 /\
  0 <= Sampler.lcg s < 2 ^ 32.
Proof.
  intros Hs. unfold Sampler.lcg.
  change 4294967296 with (2 ^ 32).
  split; [lia|].
  rewrite Z.rem_mod_nonneg by lia.
  split; [done|]. apply Z.mod_pos_bound. lia.
Qed.

(** X25.  The seeded generator.  From a state in [0, 2^32) one step of the
    generator computes below 2^53 (so the double arithmetic of the script
    is exact), lands in [0, 2^32) again and draws a number in [0, 1). *)
Theorem X25_seeded_generator (s : Z) :
  0 <= s < 2 ^ 32 ->
  1664525 * s + 1013904223 < 2 ^ 53 /\
  (Sampler.randLcg s).2 = (1664525 * s + 1013904223) mod 2 ^ 32 /\
  0 <= (Sampler.randLcg s).2 < 2 ^ 32 /\
  (0 <= (Sampler.randLcg s).1)%Q /\ ((Sampler.randLcg s).1 < 1)%Q.
Proof.
  intros Hs. destruct (lcg_range s Hs) as (H53 & Hmod & H0 & H1).
  unfold Sampler.randLcg. simpl.
  split; [exact H53|]. split; [exact Hmod|]. split; [by split|].
  assert (0 <= inject_Z (Sampler.lcg s))%Q as Q0.
  { change 0%Q with (inject_Z 0). rewrite <- Zle_Qle. lia. }
  assert (inject_Z (Sampler.lcg s) < 4294967296)%Q as Q1.
  { change 4294967296%Q with (inject_Z 4294967296). rewrite <- Zlt_Qlt. lia. }
  split.
  - apply Qle_shift_div_l; [reflexivity|]. Lqa.lra.
  - apply Qlt_shift_div_r; [reflexivity|]. Lqa.lra.
Qed.

Lemma X25_seeded_generator_witness :
  0 <= Sampler.seedOf None < 2 ^ 32 /\
  0 <= (Sampler.randLcg (Sampler.seedOf None)).2 < 2 ^ 32.
Proof.
  assert (0 <= Sampler.seedOf None < 2 ^ 32) as H by (simpl; lia).
  split; [exact H|].
  exact (proj1 (proj2 (proj2 (X25_seeded_generator _ H)))).
Defined.

(** ** The detail view and the route Map *)

(** X26.  The highlighted routes come straight from the route Map.  When
    the state shows caches built from validated data and is in the detail
    view of a selected station [s] that is among the nodes, the highlighted
    links are the first five entries of [s]'s route Map after the stable
    descending sort on the count and the restriction to selected nodes; so
    destinations with equally many trips appear in the order in which their
    first trips were loaded. *)
Theorem X26_detail_top_from_route_map (allData : list MonthObj.t) (c : Caches)
    (st : State) (s : string) (n : Node.t) (m : JsMap.t Z) :
  cleanData allData -> buildCaches allData = Some c ->
  stationAgg st = Some (c_stationAgg c) ->
  isDetail st = true -> selectedStation st = Some s -> s <> "" ->
  n ∈ nodes st -> Node.name n = s -> routes st !! s = Some m ->
  top st
  = take 5 ((fun tc => Link.mk s tc.1 tc.2)
              <$> filter (fun tc => tc.1 ∈ included st)
                         (js_sort byCountDesc (JsMap.entries m))).
Proof. apply top_from_route_map. Qed.

Lemma dataACB_clean : cleanData dataACB.
Proof.
  constructor; [|constructor]. split.
  - split; [unfold months; in_list|done].
  - repeat (constructor; [by split|]). constructor.
Qed.

Lemma cachesACB_built : buildCaches dataACB = Some cachesACB.
Proof. vm_compute. reflexivity. Qed.

Lemma X26_detail_top_from_route_map_witness :
  cleanData dataACB /\ buildCaches dataACB = Some cachesACB /\
  isDetail stateACB = true /\ selectedStation stateACB = Some "A" /\
  routes stateACB !! "A" = Some [("C", 1); ("B", 1)] /\
  top stateACB
  = take 5 ((fun tc => Link.mk "A" tc.1 tc.2)
              <$> filter (fun tc => tc.1 ∈ included stateACB)
                         (js_sort byCountDesc (JsMap.entries [("C", 1); ("B", 1)]))).
Proof.
  assert (stationAgg stateACB = Some (c_stationAgg cachesACB)) as Hsa.
  { destruct (initialise_shows dataACB cachesACB dataACB_clean cachesACB_built)
      as (_ & _ & H & _). exact H. }
  assert (nodes stateACB
          = [Node.mk "A" "A" 2 0 2; Node.mk "C" "C" 0 1 1; Node.mk "B" "B" 0 1 1]) as En
    by (vm_compute; reflexivity).
  assert (Node.mk "A" "A" 2 0 2 ∈ nodes stateACB) as Hn by (rewrite En; in_list).
  assert (routes stateACB !! "A" = Some [("C", 1); ("B", 1)]) as Hm
    by (vm_compute; reflexivity).
  assert ("A" <> "") as Hne by discriminate.
  split; [exact dataACB_clean|]. split; [exact cachesACB_built|].
  split; [reflexivity|]. split; [reflexivity|]. split; [exact Hm|].
  exact (X26_detail_top_from_route_map dataACB cachesACB stateACB "A" _ _
           dataACB_clean cachesACB_built Hsa eq_refl eq_refl Hne Hn eq_refl Hm).
Defined.


(** The edges drawn and highlighted in the two sample detail views: the
    route Map order C, B is kept among equal counts, and six edges are
    drawn from the hub while five are highlighted. *)
Example detail_edges_samples :
  edgesOf stateACB "A" = [Link.mk "A" "C" 1; Link.mk "A" "B" 1] /\
  linksView stateACB = [Link.mk "A" "C" 1; Link.mk "A" "B" 1] /\
  top stateACB = [Link.mk "A" "C" 1; Link.mk "A" "B" 1] /\
  length (edgesOf stateHub6 "H") = 6%nat /\
  length (linksView stateHub6) = 6%nat /\ length (top stateHub6) = 5%nat.
Proof. by vm_compute. Qed.

(** ** Great-circle distance *)

Section HaversineFacts.
Import Haversine.
Local Open Scope R_scope.

Lemma hav_sym a b : hav a b = hav b a.
Proof.
  unfold hav, toRad.
  replace ((lat a - lat b) * PI / 180 / 2) with (- ((lat b - lat a) * PI / 180 / 2))
    by Lra.lra.
  replace ((lng a - lng b) * PI / 180 / 2) with (- ((lng b - lng a) * PI / 180 / 2))
    by Lra.lra.
  rewrite !sin_neg. ring.
Qed.

Lemma hav_refl a : hav a a = 0.
Proof.
  unfold hav, toRad.
  replace ((lat a - lat a) * PI / 180 / 2) with 0 by Lra.lra.
  replace ((lng a - lng a) * PI / 180 / 2) with 0 by Lra.lra.
  rewrite sin_0. ring.
Qed.

Lemma asin_nonneg x : 0 <= x <= 1 -> 0 <= asin x.
Proof.
  intros [H0 H1].
  destruct (Rle_lt_dec 0 (asin x)) as [H|H]; [exact H|].
  exfalso.
  pose proof (asin_bound x) as [Hlo _].
  pose proof PI_RGT_0.
  assert (sin (asin x) < 0) as Hs by (apply sin_lt_0_var; Lra.lra).
  rewrite sin_asin in Hs by Lra.lra. Lra.lra.
Qed.

Lemma capped_root h : 0 <= Rmin 1 (sqrt h) <= 1.
Proof.
  split; [|apply Rmin_l].
  apply Rmin_glb; [Lra.lra|apply sqrt_pos].
Qed.

(** X27.  The distance shown in a route tooltip.  [haversineKm] answers
    [null] exactly when a position is missing; otherwise the distance does
    not depend on the direction of the route, is 0 from a position to
    itself, and lies between 0 and half the circumference of the sphere of
    radius 6371 km. *)
Theorem X27_haversine_distance (a b : option Pos) :
  (haversineKm a b = None <-> a = None \/ b = None) /\
  haversineKm a b = haversineKm b a /\
  haversineKm a a = (fun _ => 0) <$> a /\
  (forall d, haversineKm a b = Some d -> 0 <= d <= PI * 6371).
Proof.
  split; [|split; [|split]].
  - destruct a as [a|], b as [b|]; simpl;
      (split; [intros H; try discriminate H; auto
              |intros [H|H]; try discriminate H; reflexivity]).
  - destruct a as [a|], b as [b|]; simpl; try done.
    by rewrite (hav_sym a b).
  - destruct a as [a|]; simpl; [|done].
    rewrite hav_refl, sqrt_0.
    replace (Rmin 1 0) with 0 by (symmetry; apply Rmin_right; Lra.lra).
    rewrite asin_0. f_equal. ring.
  - intros d. destruct a as [a|], b as [b|]; simpl; try done.
    intros [= <-].
    pose proof (capped_root (hav a b)) as Hc.
    pose proof (asin_nonneg _ Hc) as H0.
    pose proof (asin_bound (Rmin 1 (sqrt (hav a b)))) as [_ H1].
    split; Lra.nra.
Qed.
End HaversineFacts.
